(** * Wordle solver: the constraint-filtering and guess-scoring engine

    A shallow embedding of [src/wordle-solver.js] (class [WordleSolver]).

    Conventions of the embedding.
    - A JavaScript string is the list of its code units ([jsstring]); the
      word lists are upper-case ASCII, so a code unit is an [ascii].
      [word.split('')] is then the identity and [s.length] is [length].
    - Reading an array or a string out of range gives [undefined]; a read
      is an [option ascii] with [None] for [undefined], and [===] on two
      reads is equality of options.
    - A feedback symbol is one of the three tags ['green'], ['yellow'],
      ['grey']; [tag] gives the tag's text where the code needs it.
    - A JavaScript number is a binary64 floating-point number. The
      numbers of the engine are array lengths, the literals of the
      source and what [+], [-], [*], [/] and [Math.round] make of them;
      every divisor is a length of at least 2 or the literal 10, so none
      is a NaN, and for arrays that JavaScript can hold (fewer than 2^32
      elements) none is an infinity or a subnormal. A number is modelled
      by the rational it denotes ([Qc]); a literal and each arithmetic
      operation give the binary64 number nearest to the exact value
      ([binary64]). *)

From Stdlib Require Import Ascii String QArith Qcanon Qround Qpower Lqa.
From stdpp Require Import base decidable option list numbers strings gmap sorting.

Local Open Scope nat_scope.

(** ** Strings, letters and feedback *)

Abbreviation jsstring := (list ascii) (only parsing).
Abbreviation jsletter := (option ascii) (only parsing).

(** A string literal as a [jsstring]. *)
Definition str (s : string) : jsstring := list_ascii_of_string s.

Inductive color : Type := green | yellow | grey.

#[global] Instance color_eq_dec : EqDecision color.
Proof. solve_decision. Defined.

Abbreviation pattern := (list color) (only parsing).

Definition tag (c : color) : jsstring :=
  match c with
  | green => str "green"
  | yellow => str "yellow"
  | grey => str "grey"
  end.

(** [pattern.join('')] *)
Definition join (p : pattern) : jsstring := concat (map tag p).

(** [s.includes(t)] for strings: [t] occurs in [s] as a substring. *)
Fixpoint startsWith (t s : jsstring) : bool :=
  match t, s with
  | [], _ => true
  | _ :: _, [] => false
  | c :: t', d :: s' => bool_decide (c = d) && startsWith t' s'
  end.

Fixpoint includesString (s t : jsstring) : bool :=
  startsWith t s || match s with [] => false | _ :: s' => includesString s' t end.

(** [word.includes(letter)] where [letter] was read from an array: a
    letter is searched as a one-letter string, [undefined] is converted
    to the text ["undefined"]. *)
Definition includes (word : jsstring) (letter : jsletter) : bool :=
  match letter with
  | Some c => bool_decide (c ∈ word)
  | None => includesString word (str "undefined")
  end.

(** [array.includes(letter)] on an array of letters: no element of the
    array is [undefined]. *)
Definition arrayIncludes (letters : list ascii) (letter : jsletter) : bool :=
  bool_decide (letter ∈ (Some <$> letters)).

(** The array with its indices, as the callbacks [(x, idx) => ...] of
    [filter] and [some] see it. *)
Definition indexed {A} (l : list A) : list (nat * A) := zip (seq 0 (length l)) l.

Definition isGreenOrYellow (r : option color) : bool :=
  bool_decide (r = Some green ∨ r = Some yellow).

(** ** PatternEvaluator: [getResultPattern] *)

Record evalState := mkEval {
  result : pattern;
  usedAnswerIndices : gset nat
}.

(** Body of the first loop: mark greens. *)
Definition markGreen (guessLetters answerLetters : list ascii)
    (st : evalState) (i : nat) : evalState :=
  if decide (guessLetters !! i = answerLetters !! i)
  then mkEval (<[i := green]> (result st)) ({[i]} ∪ usedAnswerIndices st)
  else st.

(** The inner loop of the second pass: the first [j] in [0..4] that is
    not used and holds [letter]; the loop breaks there. *)
Definition findUnused (answerLetters : list ascii) (used : gset nat)
    (letter : jsletter) : option nat :=
  fst <$> (list_find (λ j, (j ∉ used) ∧ answerLetters !! j = letter) (seq 0 5)).

(** Body of the second loop: mark yellows. *)
Definition markYellow (guessLetters answerLetters : list ascii)
    (st : evalState) (i : nat) : evalState :=
  if decide (result st !! i = Some grey) then
    match findUnused answerLetters (usedAnswerIndices st) (guessLetters !! i) with
    | Some j => mkEval (<[i := yellow]> (result st)) ({[j]} ∪ usedAnswerIndices st)
    | None => st
    end
  else st.

Definition firstPass (guess answer : jsstring) : evalState :=
  foldl (markGreen guess answer) (mkEval (replicate 5 grey) ∅) (seq 0 5).

Definition secondPass (guess answer : jsstring) (st : evalState) : evalState :=
  foldl (markYellow guess answer) st (seq 0 5).

Definition getResultPattern (guess answer : jsstring) : pattern :=
  result (secondPass guess answer (firstPass guess answer)).

(** ** ConstraintFilter: [isWordCompatible] *)

(** [guessLetters.filter((l, idx) => l === letter &&
      (result[idx] === 'yellow' || result[idx] === 'green')).length] *)
Definition guessCount (guessLetters : list ascii) (result : pattern)
    (letter : jsletter) : nat :=
  length (filter (λ p, Some p.2 = letter ∧ isGreenOrYellow (result !! p.1) = true)
                 (indexed guessLetters)).

(** [wordLetters.filter(l => l === letter).length] *)
Definition wordCount (wordLetters : list ascii) (letter : jsletter) : nat :=
  length (filter (λ l, Some l = letter) wordLetters).

(** [result.some((r, idx) => (r === 'yellow' || r === 'green') &&
      guessLetters[idx] === guessLetter)] *)
Definition hasYellowOrGreen (guessLetters : list ascii) (result : pattern)
    (guessLetter : jsletter) : bool :=
  existsb (λ p, isGreenOrYellow (Some p.2) && bool_decide (guessLetters !! p.1 = guessLetter))
          (indexed result).

(** Body of the first loop of [isWordCompatible]; [false] is the early
    [return false]. *)
Definition positionCompatible (word guess : jsstring) (result : pattern)
    (i : nat) : bool :=
  let guessLetter := guess !! i in
  let wordLetter := word !! i in
  match result !! i with
  | Some green => bool_decide (wordLetter = guessLetter)
  | Some yellow => negb (bool_decide (wordLetter = guessLetter)) && includes word guessLetter
  | Some grey => negb (negb (hasYellowOrGreen guess result guessLetter) && includes word guessLetter)
  | None => true
  end.

(** Body of the second loop: the multiplicity check for yellow letters. *)
Definition yellowCountCompatible (word guess : jsstring) (result : pattern)
    (i : nat) : bool :=
  if decide (result !! i = Some yellow)
  then negb (bool_decide (wordCount word (guess !! i) < guessCount guess result (guess !! i)))
  else true.

Definition isWordCompatible (word guess : jsstring) (result : pattern) : bool :=
  forallb (positionCompatible word guess result) (seq 0 5)
  && forallb (yellowCountCompatible word guess result) (seq 0 5).

(** ** Numbers *)

(** An array length, a count or an integer literal as a number; the
    integers below 2^53 are binary64 numbers. *)
Definition num (n : nat) : Qc := Qc_of_Z (Z.of_nat n).

(** [n / (d * 2 ^ e)] as a fraction of two integers. *)
Definition scaled (n d e : Z) : Z * Z :=
  if decide (e ≤ 0)%Z then (n * 2 ^ (- e), d)%Z else (n, d * 2 ^ e)%Z.

(** The integer nearest to [a / b]; of two nearest ones, the even one. *)
Definition nearestEven (a b : Z) : Z :=
  let q := (a `div` b)%Z in
  match (2 * (a `mod` b) ?= b)%Z with
  | Lt => q
  | Gt => (q + 1)%Z
  | Eq => if Z.even q then q else (q + 1)%Z
  end.

(** The exponent [k] of a positive [n / d]: [2 ^ k ≤ n / d < 2 ^ (k + 1)]. *)
Definition binade (n d : Z) : Z :=
  let k := (Z.log2 n - Z.log2 d)%Z in
  let '(a, b) := scaled n d k in
  if decide (a < b)%Z then (k - 1)%Z else k.

(** The binary64 number nearest to [x] (round to nearest, ties to even):
    [x] is brought to a significand in [[2^52, 2^53)], which is rounded to
    an integer. *)
Definition binary64 (x : Qc) : Qc :=
  let n := Z.abs (Qnum x) in
  let d := Zpos (Qden x) in
  if decide (n = 0)%Z then 0%Qc
  else
    let e := (binade n d - 52)%Z in
    let '(a, b) := scaled n d e in
    Q2Qc (inject_Z (Z.sgn (Qnum x) * nearestEven a b) * 2 ^ e).

(** A decimal literal of the source, such as [0.4]. *)
Definition literal (x : Q) : Qc := binary64 (Q2Qc x).

(** The operators [+], [-], [*] and [/] on numbers. *)
Definition jsAdd (x y : Qc) : Qc := binary64 (x + y).
Definition jsSub (x y : Qc) : Qc := binary64 (x - y).
Definition jsMul (x y : Qc) : Qc := binary64 (x * y).
Definition jsDiv (x y : Qc) : Qc := binary64 (x / y).

Infix "⊕" := jsAdd (at level 50, left associativity).
Infix "⊖" := jsSub (at level 50, left associativity).
Infix "⊗" := jsMul (at level 40, left associativity).
Infix "⊘" := jsDiv (at level 40, left associativity).

(** [Math.round]: the nearest integer, halves going up; the result of
    rounding a binary64 number is a binary64 number. *)
Definition Math_round (x : Qc) : Qc := Qc_of_Z (Qfloor (x + Q2Qc (1 # 2))%Qc).

(** ** A [Set] read in insertion order, and a [Map] *)

(** [s.add(x)] on a set kept in insertion order. *)
Definition setAdd {A} `{EqDecision A} (s : list A) (x : A) : list A :=
  if decide (x ∈ s) then s else s ++ [x].

(** [[...new Set(xs)]]: the distinct elements, in order of first
    occurrence; its length is [new Set(xs).size]. *)
Definition newSet {A} `{EqDecision A} (xs : list A) : list A := foldl setAdd [] xs.

(** A [Map] is the list of its entries in insertion order; keys are
    unique. *)
Fixpoint mapGet {K V} `{EqDecision K} (m : list (K * V)) (key : K) : option V :=
  match m with
  | [] => None
  | e :: m' => if decide (e.1 = key) then Some e.2 else mapGet m' key
  end.

(** [m.set(key, v)]: a present key keeps its place, a new key goes last. *)
Fixpoint mapSet {K V} `{EqDecision K} (m : list (K * V)) (key : K) (v : V) : list (K * V) :=
  match m with
  | [] => [(key, v)]
  | e :: m' => if decide (e.1 = key) then (key, v) :: m' else e :: mapSet m' key v
  end.

(** ** LetterState bookkeeping and the session *)

(** One suggestion of [findTopGuesses]. *)
Record recommendation := mkRecommendation {
  word : list ascii;
  score : Qc;
  expectedRemaining : Qc;
  newLetters : nat;
  isPossibleAnswer : bool;
  uniqueLetters : nat
}.

(** The texts written to [recommendationReason]; the numbers and words
    of the template strings are the constructors' arguments. *)
Inductive reasonText : Type :=
  | NoReason
  | NoWordsMatch            (* 'No possible words match your constraints. Check your inputs.' *)
  | OnlyPossibleAnswer      (* 'This is the only possible answer!' *)
  | BestExpected (remaining : Qc)
  | Distinguishing (words : list (list ascii))
  | PossibleAnswer (remaining : Qc)
  | NewLetters (count : nat) (remaining : Qc).

(** The texts of [showErrorMessage]. *)
Inductive errorText : Type :=
  | EnterFiveLetterWord                   (* 'Please enter a 5-letter word' *)
  | NotAnAllowedWord (guess : list ascii).  (* '"..." is not an allowed word. ...' *)

(** The elements of the page that the solver writes with its results.
    The guess history, the letter tiles and the styling are renderings
    of the solver's fields and are left out. *)
Record Page := mkPage {
  wordsCount : nat;
  recommendedWord : list ascii;
  recommendationReason : reasonText;
  topRecommendations : list recommendation;
  finalAnswers : option (list ascii);
  errorMessage : option errorText
}.

Record WordleSolver := mkSolver {
  answerWords : list (list ascii);
  allWords : list (list ascii);
  possibleWords : list (list ascii);
  guessHistory : list (list ascii * list color);
  currentGuess : list ascii;
  currentResult : list color;
  testedLetters : gset (option ascii);
  knownLetters : gset (option ascii);
  excludedLetters : gset (option ascii);
  page : Page
}.

Definition setPage (f : Page → Page) (s : WordleSolver) : WordleSolver :=
  mkSolver (answerWords s) (allWords s) (possibleWords s) (guessHistory s)
    (currentGuess s) (currentResult s) (testedLetters s) (knownLetters s)
    (excludedLetters s) (f (page s)).

Definition setPossibleWords (ws : list (list ascii)) (s : WordleSolver) : WordleSolver :=
  mkSolver (answerWords s) (allWords s) ws (guessHistory s)
    (currentGuess s) (currentResult s) (testedLetters s) (knownLetters s)
    (excludedLetters s) (page s).

Definition setGuessHistory (h : list (list ascii * list color)) (s : WordleSolver) : WordleSolver :=
  mkSolver (answerWords s) (allWords s) (possibleWords s) h
    (currentGuess s) (currentResult s) (testedLetters s) (knownLetters s)
    (excludedLetters s) (page s).

Definition setInput (guess : list ascii) (res : list color) (s : WordleSolver) : WordleSolver :=
  mkSolver (answerWords s) (allWords s) (possibleWords s) (guessHistory s)
    guess res (testedLetters s) (knownLetters s) (excludedLetters s) (page s).

Definition setLetters (tested known excluded : gset (option ascii)) (s : WordleSolver)
    : WordleSolver :=
  mkSolver (answerWords s) (allWords s) (possibleWords s) (guessHistory s)
    (currentGuess s) (currentResult s) tested known excluded (page s).

Definition updateWordsCount (s : WordleSolver) : WordleSolver :=
  setPage (λ p, mkPage (length (possibleWords s)) (recommendedWord p)
                  (recommendationReason p) (topRecommendations p) (finalAnswers p)
                  (errorMessage p)) s.

Definition clearErrorMessage (s : WordleSolver) : WordleSolver :=
  setPage (λ p, mkPage (wordsCount p) (recommendedWord p) (recommendationReason p)
                  (topRecommendations p) (finalAnswers p) None) s.

Definition showErrorMessage (message : errorText) (s : WordleSolver) : WordleSolver :=
  setPage (λ p, mkPage (wordsCount p) (recommendedWord p) (recommendationReason p)
                  (topRecommendations p) (finalAnswers p) (Some message)) s.

(** [result.some((r, idx) => idx !== i && letters[idx] === letter &&
      (r === 'green' || r === 'yellow'))] *)
Definition appearsElsewhere (letters : list ascii) (result : pattern) (i : nat)
    (letter : jsletter) : bool :=
  existsb (λ p, negb (bool_decide (p.1 = i)) && bool_decide (letters !! p.1 = letter)
                && isGreenOrYellow (Some p.2))
          (indexed result).

(** Body of the loop of [updateLetterTracking], on the three sets. *)
Definition trackLetter (letters : list ascii) (result : pattern)
    (sets : gset (option ascii) * gset (option ascii) * gset (option ascii)) (i : nat)
    : gset (option ascii) * gset (option ascii) * gset (option ascii) :=
  let '(tested, known, excluded) := sets in
  let letter := letters !! i in
  let tested := {[letter]} ∪ tested in
  if isGreenOrYellow (result !! i) then (tested, {[letter]} ∪ known, excluded)
  else if decide (result !! i = Some grey) then
    if appearsElsewhere letters result i letter then (tested, known, excluded)
    else (tested, known, {[letter]} ∪ excluded)
  else (tested, known, excluded).

Definition updateLetterTracking (guess : jsstring) (result : pattern)
    (s : WordleSolver) : WordleSolver :=
  let '(tested, known, excluded) :=
    foldl (trackLetter guess result)
          (testedLetters s, knownLetters s, excludedLetters s) (seq 0 5) in
  setLetters tested known excluded s.

Definition filterWords (guess : jsstring) (result : pattern) (s : WordleSolver)
    : WordleSolver :=
  updateWordsCount
    (setPossibleWords
       (filter (λ word, isWordCompatible word guess result = true) (possibleWords s)) s).

(** ** GuessScorer *)

Definition calculateExpectedInformation (pattern : list color) : Qc :=
  foldl (λ information result,
           match result with
           | green => information ⊕ literal (3 # 2)
           | yellow => information ⊕ literal 1
           | grey => information ⊕ literal (2 # 5)
           end)
        0%Qc pattern.

Definition mapHas {K V} `{EqDecision K} (m : list (K * V)) (key : K) : bool :=
  bool_decide (is_Some (mapGet m key)).

(** Body of the grouping loop:
    [if (!resultGroups.has(key)) resultGroups.set(key, []);
     resultGroups.get(key).push(answer)]; the array of a key is pushed
    to in place. *)
Definition pushToGroup (resultGroups : list (list ascii * list (list ascii)))
    (key : list ascii) (answer : list ascii) : list (list ascii * list (list ascii)) :=
  let resultGroups :=
    if mapHas resultGroups key then resultGroups else mapSet resultGroups key [] in
  match mapGet resultGroups key with
  | Some group => mapSet resultGroups key (group ++ [answer])
  | None => resultGroups
  end.

(** The possible answers grouped by the key of the pattern that [guess]
    gives against each. *)
Definition groupByPattern (guess : jsstring) (possibleWords : list (list ascii))
    : list (list ascii * list (list ascii)) :=
  foldl (λ resultGroups answer,
           pushToGroup resultGroups (join (getResultPattern guess answer)) answer)
        [] possibleWords.

(** [resultGroups.forEach(group => { probability = group.length / n;
      expectedRemaining += probability * group.length })] *)
Definition sumExpectedRemaining (n : nat)
    (resultGroups : list (list ascii * list (list ascii))) : Qc :=
  foldl (λ expectedRemaining e,
           let probability := num (length e.2) ⊘ num n in
           expectedRemaining ⊕ probability ⊗ num (length e.2))
        0%Qc resultGroups.

Definition calculateExpectedRemainingWords (guess : jsstring) (s : WordleSolver) : Qc :=
  if decide (length (possibleWords s) ≤ 1) then num (length (possibleWords s))
  else
    let resultGroups := groupByPattern guess (possibleWords s) in
    let expectedRemaining := sumExpectedRemaining (length (possibleWords s)) resultGroups in
    Math_round (expectedRemaining ⊗ num 10) ⊘ num 10.

Definition calculateExpectedValue (guess : jsstring) (s : WordleSolver) : Qc :=
  if decide (length (possibleWords s) ≤ 1) then 0%Qc
  else
    let n := length (possibleWords s) in
    let resultGroups := groupByPattern guess (possibleWords s) in
    let totalInformation :=
      foldl (λ total answer,
               total ⊕ calculateExpectedInformation (getResultPattern guess answer))
            0%Qc (possibleWords s) in
    let expectedRemaining := sumExpectedRemaining n resultGroups in
    let informationGain := num n ⊖ expectedRemaining in
    let avgInformation := totalInformation ⊘ num n in
    let guessLetters := newSet guess in
    let newLettersCount :=
      length (filter (λ letter, Some letter ∉ testedLetters s) guessLetters) in
    let informationGain := informationGain ⊕ num newLettersCount ⊗ literal (3 # 2) in
    let uniqueLetters := length guessLetters in
    let informationGain :=
      if decide (uniqueLetters < 5 ∧ 10 < n)
      then informationGain ⊖ num (5 - uniqueLetters) ⊗ literal 1
      else informationGain in
    let excludedLettersUsed :=
      length (filter (λ letter, Some letter ∈ excludedLetters s) guessLetters) in
    let informationGain := informationGain ⊖ num excludedLettersUsed ⊗ num 3 in
    informationGain ⊕ avgInformation ⊗ literal (4 # 5).

(** ** RecommendationEngine *)

(** Body of the loop of [findDistinguishingWords] on [diffLetters]. *)
Definition addDiffLetters (word1 word2 : jsstring) (diffLetters : list (option ascii))
    (i : nat) : list (option ascii) :=
  if decide (word1 !! i ≠ word2 !! i)
  then setAdd (setAdd diffLetters (word1 !! i)) (word2 !! i)
  else diffLetters.

Definition findDistinguishingWords (s : WordleSolver) : list (list ascii) :=
  match possibleWords s with
  | [word1; word2] =>
      let diffLetters := foldl (addDiffLetters word1 word2) [] (seq 0 5) in
      filter (λ word,
                let containsDistinguishingLetters := existsb (arrayIncludes word) diffLetters in
                let hasUniqueLetters := bool_decide (length (newSet word) = 5) in
                containsDistinguishingLetters && hasUniqueLetters = true)
             (allWords s)
  | _ => allWords s
  end.

(** The entry returned for a remaining answer when nothing is scored. *)
Definition answerEntry (word : jsstring) : recommendation :=
  mkRecommendation word 0%Qc 1%Qc 0 true (length (newSet word)).

Definition detailedGuess (s : WordleSolver) (guess : jsstring) : recommendation :=
  let guessLetters := newSet guess in
  mkRecommendation guess
    (calculateExpectedValue guess s)
    (calculateExpectedRemainingWords guess s)
    (length (filter (λ l, Some l ∉ testedLetters s) guessLetters))
    (bool_decide (guess ∈ possibleWords s))
    (length guessLetters).

(** The comparator [(a, b) => b.score - a.score]. *)
Definition compareScore (a b : recommendation) : Qc := score b ⊖ score a.

(** [sort(compareScore)]: the sort is stable, and [a] goes behind [b]
    when [compareScore a b] is positive. [x] comes before the entries of
    the sorted [l] in the array. *)
Fixpoint insertByScore (x : recommendation) (l : list recommendation)
    : list recommendation :=
  match l with
  | [] => [x]
  | y :: l' =>
      if decide (0 < compareScore x y)%Qc then y :: insertByScore x l' else x :: y :: l'
  end.

Definition sortByScore (l : list recommendation) : list recommendation :=
  foldr insertByScore [] l.

Definition findTopGuesses (numRecommendations : nat) (s : WordleSolver)
    : list recommendation :=
  match possibleWords s with
  | [] => []
  | [word] => [answerEntry word]
  | _ =>
      let rank guessPool :=
        take numRecommendations (sortByScore (detailedGuess s <$> guessPool)) in
      if decide (50 < length (possibleWords s)) then rank (take 2000 (allWords s))
      else if decide (2 < length (possibleWords s)) then rank (allWords s)
      else
        let guessPool := findDistinguishingWords s in
        if decide (length guessPool = 0)
        then answerEntry <$> possibleWords s
        else rank guessPool
  end.

(** ** GameSession *)

Definition setRecommendation (w : list ascii) (r : reasonText) (s : WordleSolver)
    : WordleSolver :=
  setPage (λ p, mkPage (wordsCount p) w r (topRecommendations p) (finalAnswers p)
                  (errorMessage p)) s.

Definition showTopRecommendations (topGuesses : list recommendation) (s : WordleSolver)
    : WordleSolver :=
  setPage (λ p, mkPage (wordsCount p) (recommendedWord p) (recommendationReason p)
                  topGuesses (finalAnswers p) (errorMessage p)) s.

Definition showFinalAnswers (s : WordleSolver) : WordleSolver :=
  match possibleWords s with
  | [w] =>
      setRecommendation w OnlyPossibleAnswer
        (setPage (λ p, mkPage (wordsCount p) (recommendedWord p) (recommendationReason p)
                         (topRecommendations p) (Some w) (errorMessage p)) s)
  | _ => s
  end.

Definition updateRecommendations (s : WordleSolver) : WordleSolver :=
  if decide (length (possibleWords s) = 0) then
    setRecommendation (str "NO WORDS") NoWordsMatch s
  else if decide (length (possibleWords s) = 1) then showFinalAnswers s
  else
    match findTopGuesses 8 s with
    | [] => s
    | (top :: _) as topGuesses =>
        let reason :=
          if decide (length (guessHistory s) = 0) then BestExpected (expectedRemaining top)
          else if decide (length (possibleWords s) = 2) then Distinguishing (possibleWords s)
          else if isPossibleAnswer top && bool_decide (length (possibleWords s) ≤ 5)
               then PossibleAnswer (expectedRemaining top)
          else if decide (0 < newLetters top)
               then NewLetters (newLetters top) (expectedRemaining top)
          else BestExpected (expectedRemaining top) in
        showTopRecommendations topGuesses (setRecommendation (word top) reason s)
    end.

Definition resetInput (s : WordleSolver) : WordleSolver :=
  clearErrorMessage (setInput [] (replicate 5 grey) s).

Definition submitGuess (s : WordleSolver) : WordleSolver :=
  let s := clearErrorMessage s in
  if decide (length (currentGuess s) ≠ 5) then showErrorMessage EnterFiveLetterWord s
  else if decide (currentGuess s ∉ allWords s)
  then showErrorMessage (NotAnAllowedWord (currentGuess s)) s
  else
    let guess := currentGuess s in
    let result := currentResult s in
    let s := setGuessHistory (guessHistory s ++ [(guess, result)]) s in
    let s := updateLetterTracking guess result s in
    let s := filterWords guess result s in
    let s := updateRecommendations s in
    resetInput s.

Definition resetGame (s : WordleSolver) : WordleSolver :=
  let s := setPossibleWords (answerWords s) s in
  let s := setGuessHistory [] s in
  let s := setLetters ∅ ∅ ∅ s in
  let s := resetInput s in
  let s := updateRecommendations s in
  let s := updateWordsCount s in
  setPage (λ p, mkPage (wordsCount p) (recommendedWord p) (recommendationReason p)
                  (topRecommendations p) None (errorMessage p)) s.

(** The solver once the word lists are loaded: [loadWords] followed by
    the first [updateRecommendations]. *)
Definition loaded (answerWords allWords : list (list ascii)) : WordleSolver :=
  updateRecommendations
    (updateWordsCount
       (mkSolver answerWords allWords answerWords [] [] (replicate 5 grey) ∅ ∅ ∅
          (mkPage 0 [] NoReason [] None None))).

(** The player enters a word and its feedback (the input box or a
    clicked recommendation, and the result buttons), then submits. *)
Definition play (s : WordleSolver) (record : list ascii * list color) : WordleSolver :=
  submitGuess (setInput record.1 record.2 s).

Definition playAll (s : WordleSolver) (records : list (list ascii * list color))
    : WordleSolver :=
  foldl play s records.

(** * Vocabulary of the statements *)

(** ** Invariants of the pattern evaluator *)

(** Position [i] of the pattern is green or yellow. *)
Definition marked (res : pattern) (i : nat) : Prop :=
  res !! i = Some green ∨ res !! i = Some yellow.

(** A ghost matching of marked guess positions with consumed answer
    positions: every marked position consumed one answer position of
    its own that holds the same letter. *)
Record matches (guess answer : list ascii) (st : evalState) (M : nat → nat → Prop) : Prop := {
  m_sound : ∀ i j, M i j →
    i < 5 ∧ j < 5 ∧ guess !! i = answer !! j
    ∧ marked (result st) i ∧ j ∈ usedAnswerIndices st;
  m_inj : ∀ i i' j, M i j → M i' j → i = i';
  m_marked : ∀ i, marked (result st) i → ∃ j, M i j;
  m_used : ∀ j, j ∈ usedAnswerIndices st → ∃ i, M i j
}.

(** After [k] rounds of the first loop. *)
Record firstPassInv (guess answer : list ascii) (k : nat) (st : evalState) : Prop := {
  fp_length : length (result st) = 5;
  fp_rest : ∀ i, k ≤ i → i < 5 → result st !! i = Some grey;
  fp_used : ∀ j, j ∈ usedAnswerIndices st → j < k;
  fp_green : ∀ i, i < k → result st !! i = Some green ↔ guess !! i = answer !! i;
  fp_noyellow : ∀ i, result st !! i ≠ Some yellow;
  fp_matches : ∃ M, matches guess answer st M
}.

(** After [k] rounds of the second loop. *)
Record secondPassInv (guess answer : list ascii) (k : nat) (st : evalState) : Prop := {
  sp_length : length (result st) = 5;
  sp_green : ∀ i, i < 5 → result st !! i = Some green ↔ guess !! i = answer !! i;
  sp_matches : ∃ M, matches guess answer st M;
  sp_grey : ∀ i, i < k → result st !! i = Some grey →
    ∀ j, j < 5 → answer !! j = guess !! i → j ∈ usedAnswerIndices st
}.

(** ** The pool for two remaining candidates *)

(** [c] occurs in [word1] or [word2] at a position where they differ. *)
Definition distinguishingLetter (word1 word2 : list ascii) (c : ascii) : Prop :=
  ∃ i, word1 !! i ≠ word2 !! i ∧ (word1 !! i = Some c ∨ word2 !! i = Some c).

(** ** Letter-state bookkeeping *)

(** The feedback of every record is the evaluator's pattern of the guess
    against one fixed answer. *)
Definition truthful (answer : list ascii) (records : list (list ascii * list color)) : Prop :=
  Forall (λ record, record.2 = getResultPattern record.1 answer) records.

(** What the letter sets may hold when the feedback is about [answer]:
    known letters are letters of the answer, excluded letters are not. *)
Definition lettersAgree (answer : list ascii)
    (known excluded : gset (option ascii)) : Prop :=
  (∀ x, x ∈ known → ∃ c, x = Some c ∧ c ∈ answer)
  ∧ (∀ c, Some c ∈ excluded → c ∉ answer).

(** ** The [Map] of pattern groups *)

(** What the grouping loop has built after the answers [done]: the
    entry of a key is the list of the answers with that key, and keys
    without an answer have no entry. *)
Definition groupsOf {A} (key : A → list ascii) (done : list A)
    (resultGroups : list (list ascii * list A)) : Prop :=
  NoDup resultGroups.*1
  ∧ ∀ k, mapGet resultGroups k
         = match filter (λ a, key a = k) done with [] => None | group => Some group end.

(** ** The scorer, as the specification words it *)

(** The formulas of the specification, read in the arithmetic of the
    program: every sum, difference, product and quotient is rounded to
    binary64, and a formula is evaluated from left to right. *)

(** The sum of a list of numbers, added from left to right. *)
Definition sumNumbers (l : list Qc) : Qc := foldl jsAdd 0%Qc l.

(** The distinct elements of a list, each at its first occurrence. *)
Fixpoint distinct {A} `{EqDecision A} (l : list A) : list A :=
  match l with
  | [] => []
  | x :: l' => x :: filter (λ y, y ≠ x) (distinct l')
  end.

(** The candidates grouped by the feedback each would produce against
    [guess]: one group for each distinct feedback, in the order in which
    the feedbacks first occur among the candidates. *)
Definition patternGroups (guess : list ascii) (candidates : list (list ascii))
    : list (list (list ascii)) :=
  (λ p, filter (λ answer, getResultPattern guess answer = p) candidates)
    <$> distinct (getResultPattern guess <$> candidates).

(** The sum over the groups of [(|group| / |candidates|) * |group|]. *)
Definition expectedRemainingSum (guess : list ascii) (candidates : list (list ascii)) : Qc :=
  sumNumbers ((λ group, num (length group) ⊘ num (length candidates) ⊗ num (length group))
                <$> patternGroups guess candidates).

(** Rounding to one decimal place: [Math.round(x * 10) / 10]. *)
Definition roundToTenth (x : Qc) : Qc := Math_round (x ⊗ num 10) ⊘ num 10.

(** The weight of a feedback symbol: Green 1.5, Yellow 1.0, Grey 0.4. *)
Definition symbolWeight (c : color) : Qc :=
  match c with
  | green => literal (3 # 2)
  | yellow => literal 1
  | grey => literal (2 # 5)
  end.

(** The sum over the positions of the weight of the symbol. *)
Definition expectedInformationValue (p : list color) : Qc :=
  sumNumbers (symbolWeight <$> p).

(** The mean of [expectedInformationValue] over the candidates taken as
    hypothetical answers. *)
Definition avgInformation (guess : list ascii) (candidates : list (list ascii)) : Qc :=
  sumNumbers (expectedInformationValue <$> (getResultPattern guess <$> candidates))
  ⊘ num (length candidates).

(** The score of a guess: 0 with at most one candidate, otherwise the
    information gain with its bonus and penalties plus 0.8 times the
    average information. *)
Definition scoreSpec (guess : list ascii) (candidates : list (list ascii))
    (tested excluded : gset (option ascii)) : Qc :=
  if decide (length candidates ≤ 1) then 0%Qc
  else
    let letters := remove_dups guess in
    let newLetters := length (filter (λ l, Some l ∉ tested) letters) in
    let uniqueLetters := length letters in
    let excludedUsed := length (filter (λ l, Some l ∈ excluded) letters) in
    let gain :=
      num (length candidates) ⊖ expectedRemainingSum guess candidates
      ⊕ literal (3 # 2) ⊗ num newLetters in
    let gain :=
      if decide (uniqueLetters < 5 ∧ 10 < length candidates)
      then gain ⊖ literal 1 ⊗ num (5 - uniqueLetters) else gain in
    gain ⊖ literal 3 ⊗ num excludedUsed
    ⊕ literal (4 # 5) ⊗ avgInformation guess candidates.

(** ** Vocabulary of the further properties *)

(** A matching gives every guess position at most one answer position. *)
Definition functional (M : nat → nat → Prop) : Prop :=
  ∀ i j j', M i j → M i j' → j = j'.

(** The state has a matching that is a one-to-one pairing. *)
Definition paired (guess answer : list ascii) (st : evalState) : Prop :=
  ∃ M, matches guess answer st M ∧ functional M.

(** [submitGuess] accepts the guess of a record: it has five letters and
    is in the allowed vocabulary. *)
Definition accepted (allWords : list (list ascii)) (record : list ascii * list color) : Prop :=
  length record.1 = 5 ∧ record.1 ∈ allWords.

(** The word is compatible with the record. *)
Definition compatibleWith (word : list ascii) (record : list ascii * list color) : Prop :=
  isWordCompatible word record.1 record.2 = true.

#[global] Instance accepted_dec allWords record : Decision (accepted allWords record).
Proof. unfold accepted. apply _. Defined.

#[global] Instance compatibleWith_dec word record : Decision (compatibleWith word record).
Proof. unfold compatibleWith. apply _. Defined.

(** A state in which no guess has been recorded: the candidates are the
    answer words, the history and the letter sets are empty, and the
    page shows the number of candidates. *)
Definition fresh (s : WordleSolver) : Prop :=
  possibleWords s = answerWords s ∧ guessHistory s = []
  ∧ testedLetters s = ∅ ∧ knownLetters s = ∅ ∧ excludedLetters s = ∅
  ∧ wordsCount (page s) = length (possibleWords s).

(** Every candidate has all the Known letters and none of the Excluded
    ones. *)
Definition lettersFitCandidates (s : WordleSolver) : Prop :=
  ∀ w, w ∈ possibleWords s →
    (∀ c, Some c ∈ knownLetters s → c ∈ w)
    ∧ (∀ c, Some c ∈ excludedLetters s → c ∉ w).

(** * Proofs *)

Example crane_trace :
  getResultPattern (str "CRANE") (str "TRACE") = [yellow; green; green; grey; green].
Proof. vm_compute. reflexivity. Qed.

Example speed_abide :
  getResultPattern (str "SPEED") (str "ABIDE") = [grey; grey; yellow; grey; yellow].
Proof. vm_compute. reflexivity. Qed.

Example crane_trace_compatible :
  isWordCompatible (str "TRACE") (str "CRANE")
    (getResultPattern (str "CRANE") (str "TRACE")) = true.
Proof. vm_compute. reflexivity. Qed.

(** ** Counting along an injective relation *)

Lemma length_le_injection (M : nat → nat → Prop) (I J : list nat) :
  NoDup I →
  (∀ i i' j, M i j → M i' j → i = i') →
  (∀ i, i ∈ I → ∃ j, M i j ∧ j ∈ J) →
  length I ≤ length J.
Proof.
  intros HI Hinj. revert J.
  induction HI as [|i I Hi HI IH]; intros J HJ; simpl; [lia|].
  destruct (HJ i) as (j & Hij & Hj); [left|].
  assert (length I ≤ length (filter (λ x, x ≠ j) J)) as Hle.
  { apply IH. intros i' Hi'.
    destruct (HJ i') as (j' & Hij' & Hj'); [by right|].
    exists j'. split; [done|]. apply list_elem_of_filter. split; [|done].
    intros ->. apply Hi. by rewrite (Hinj i i' j). }
  assert (length (filter (λ x, x ≠ j) J) < length J); [|lia].
  apply (length_filter_lt _ _ j); [done|]. by intros H.
Qed.

(** ** The array with its indices *)

Lemma indexed_lookup {A} (l : list A) i x :
  (i, x) ∈ indexed l ↔ l !! i = Some x.
Proof.
  unfold indexed. rewrite list_elem_of_lookup. split.
  - intros [n Hn]. apply lookup_zip_Some in Hn as [Hs Hl]; simpl in *.
    apply lookup_seq in Hs as [-> _]. done.
  - intros Hl. exists i. apply lookup_zip_Some. split; [|done]. simpl.
    apply lookup_seq. split; [done|]. by eapply lookup_lt_Some.
Qed.

Lemma indexed_fst {A} (l : list A) : (indexed l).*1 = seq 0 (length l).
Proof. unfold indexed. apply fst_zip. by rewrite length_seq. Qed.

Lemma filter_zip_snd_length {A B} (P : B → Prop) `{!∀ x, Decision (P x)}
    (k : list A) (l : list B) :
  length k = length l →
  length (filter (λ p, P p.2) (zip k l)) = length (filter P l).
Proof.
  revert k. induction l as [|x l IH]; intros [|y k] Hlen; simplify_eq/=; [done|].
  rewrite !filter_cons; simpl. destruct (decide (P x)); simpl; by rewrite IH.
Qed.

Lemma indexed_filter_NoDup {A} (P : nat * A → Prop) `{!∀ x, Decision (P x)}
    (l : list A) :
  NoDup (filter P (indexed l)).*1.
Proof.
  apply (sublist_NoDup _ (indexed l).*1).
  - rewrite indexed_fst. apply NoDup_seq.
  - apply fmap_sublist, sublist_filter.
Qed.

(** ** Invariants of the two passes of [getResultPattern] *)

Lemma isGreenOrYellow_marked res i :
  isGreenOrYellow (res !! i) = true ↔ marked res i.
Proof. unfold isGreenOrYellow, marked. by rewrite bool_decide_eq_true. Qed.

Section evaluator.
Variables guess answer : jsstring.

Lemma marked_insert res i c i' :
  i < length res → res !! i = Some grey → c ≠ grey →
  marked (<[i := c]> res) i' ↔ i' = i ∨ marked res i'.
Proof.
  intros Hlen Hgrey Hc. unfold marked.
  destruct (decide (i' = i)) as [->|Hne].
  - rewrite list_lookup_insert_eq by done. rewrite Hgrey.
    split; [by left|]. intros _. destruct c; [by left|by right|done].
  - rewrite list_lookup_insert_ne by done. split; [by right|].
    by intros [?|?].
Qed.

Lemma matches_extend st M i j c :
  matches guess answer st M → length (result st) = 5 → i < 5 → j < 5 →
  result st !! i = Some grey → j ∉ usedAnswerIndices st →
  guess !! i = answer !! j → c ≠ grey →
  matches guess answer (mkEval (<[i := c]> (result st)) ({[j]} ∪ usedAnswerIndices st))
          (λ i' j', M i' j' ∨ (i' = i ∧ j' = j)).
Proof.
  intros [Hs Hinj Hm Hu] Hlen Hi Hj Hgrey Hfresh Heq Hc.
  assert (∀ i', marked (<[i := c]> (result st)) i' ↔ i' = i ∨ marked (result st) i')
    as Hmk by (intros; apply marked_insert; [lia|done..]).
  split; simpl.
  - intros i' j' [HM|[-> ->]]; rewrite Hmk, elem_of_union, elem_of_singleton.
    + destruct (Hs _ _ HM) as (?&?&?&?&?). auto 10.
    + auto 10.
  - intros i1 i2 j' [H1|[E1 E1']] [H2|[E2 E2']]; simplify_eq.
    + by eapply Hinj.
    + destruct (Hs _ _ H1) as (?&?&?&?&?). done.
    + destruct (Hs _ _ H2) as (?&?&?&?&?). done.
    + done.
  - intros i' [->|Hi']%Hmk; [by eauto|].
    destruct (Hm _ Hi') as [j' ?]. eauto.
  - intros j' [->%elem_of_singleton|Hj']%elem_of_union; [by eauto|].
    destruct (Hu _ Hj') as [i' ?]. eauto.
Qed.

Lemma firstPassInv_init : firstPassInv guess answer 0 (mkEval (replicate 5 grey) ∅).
Proof.
  split; cbn [result usedAnswerIndices].
  - apply length_replicate.
  - intros i _ Hi. by apply lookup_replicate_2.
  - intros j Hj. by apply not_elem_of_empty in Hj.
  - lia.
  - intros i [? _]%lookup_replicate. done.
  - exists (λ _ _, False). split; cbn [result usedAnswerIndices]; [done|done| |].
    + intros i [[? _]%lookup_replicate|[? _]%lookup_replicate]; done.
    + intros j Hj. by apply not_elem_of_empty in Hj.
Qed.

Lemma firstPassInv_step k st :
  k < 5 → firstPassInv guess answer k st → firstPassInv guess answer (S k) (markGreen guess answer st k).
Proof.
  intros Hk [Hlen Hrest Hused Hgreen Hny [M HM]]. unfold markGreen.
  assert (result st !! k = Some grey) as Hgrey by (apply Hrest; lia).
  destruct (decide (guess !! k = answer !! k)) as [Heq|Hne].
  - split; simpl.
    + by rewrite length_insert.
    + intros i ? ?. rewrite list_lookup_insert_ne by lia. apply Hrest; lia.
    + intros j [->%elem_of_singleton|Hj]%elem_of_union; [lia|].
      apply Hused in Hj. lia.
    + intros i Hi. destruct (decide (i = k)) as [->|].
      * rewrite list_lookup_insert_eq by lia. done.
      * rewrite list_lookup_insert_ne by done. apply Hgreen. lia.
    + intros i. destruct (decide (i = k)) as [->|].
      * rewrite list_lookup_insert_eq by lia. done.
      * rewrite list_lookup_insert_ne by done. apply Hny.
    + eexists. apply (matches_extend st M k k green); try done.
      intros ?%Hused. lia.
  - split; try done.
    + intros i ? ?. apply Hrest; lia.
    + intros j ?%Hused. lia.
    + intros i Hi. destruct (decide (i = k)) as [->|]; [|apply Hgreen; lia].
      rewrite Hgrey. split; [done|]. by intros ?.
    + by exists M.
Qed.

Lemma firstPassInv_loop k :
  k ≤ 5 →
  firstPassInv guess answer k (foldl (markGreen guess answer) (mkEval (replicate 5 grey) ∅) (seq 0 k)).
Proof.
  induction k as [|k IH]; intros Hk; [apply firstPassInv_init|].
  rewrite seq_S, foldl_snoc. apply firstPassInv_step; [lia|]. apply IH. lia.
Qed.

Lemma secondPassInv_init : secondPassInv guess answer 0 (firstPass guess answer).
Proof.
  destruct (firstPassInv_loop 5) as [Hlen _ _ Hgreen _ HM]; [done|].
  split; [done|done|done|lia].
Qed.

Lemma secondPassInv_step k st :
  k < 5 → secondPassInv guess answer k st → secondPassInv guess answer (S k) (markYellow guess answer st k).
Proof.
  intros Hk [Hlen Hgreen [M HM] Hgrey]. unfold markYellow, findUnused.
  destruct (decide (result st !! k = Some grey)) as [Hk_grey|Hk_not].
  - destruct (list_find _ _) as [[n j]|] eqn:Hfind; simpl.
    + apply list_find_Some in Hfind as (Hn & [Hfresh Hj] & _).
      apply lookup_seq in Hn as [-> Hn]; simpl in *.
      split; simpl.
      * by rewrite length_insert.
      * intros i Hi. destruct (decide (i = k)) as [->|].
        -- rewrite list_lookup_insert_eq by lia. rewrite <-Hgreen by done.
           rewrite Hk_grey. split; by intros ?.
        -- rewrite list_lookup_insert_ne by done. by apply Hgreen.
      * eexists. by apply (matches_extend st M k n yellow).
      * intros i Hi Hi_grey j Hj5 Hji.
        destruct (decide (i = k)) as [->|].
        { rewrite list_lookup_insert_eq in Hi_grey by lia. done. }
        rewrite list_lookup_insert_ne in Hi_grey by done.
        apply elem_of_union_r. apply (Hgrey i); [lia|done..].
    + apply list_find_None in Hfind.
      split; [done|done|by exists M|].
      intros i Hi Hi_grey j Hj5 Hji.
      destruct (decide (i = k)) as [->|]; [|apply (Hgrey i); [lia|done..]].
      rewrite Forall_forall in Hfind.
      destruct (decide (j ∈ usedAnswerIndices st)) as [|Hnot]; [done|].
      exfalso. apply (Hfind j); [|done]. apply elem_of_seq. lia.
  - split; [done|done|by exists M|].
    intros i Hi Hi_grey j Hj5 Hji.
    destruct (decide (i = k)) as [->|]; [done|]. apply (Hgrey i); [lia|done..].
Qed.

Lemma secondPassInv_loop k :
  k ≤ 5 →
  secondPassInv guess answer k (foldl (markYellow guess answer) (firstPass guess answer) (seq 0 k)).
Proof.
  induction k as [|k IH]; intros Hk; [apply secondPassInv_init|].
  rewrite seq_S, foldl_snoc. apply secondPassInv_step; [lia|]. apply IH. lia.
Qed.

Lemma secondPassInv_final :
  secondPassInv guess answer 5 (secondPass guess answer (firstPass guess answer)).
Proof. by apply secondPassInv_loop. Qed.

End evaluator.

(** ** Facts about the finished pattern *)

Lemma getResultPattern_inv guess answer :
  ∃ st, getResultPattern guess answer = result st ∧ secondPassInv guess answer 5 st.
Proof. eexists. split; [reflexivity|]. apply secondPassInv_final. Qed.

Lemma getResultPattern_length guess answer :
  length (getResultPattern guess answer) = 5.
Proof.
  destruct (getResultPattern_inv guess answer) as (st & Hp & Hinv).
  rewrite Hp. apply (sp_length _ _ _ _ Hinv).
Qed.

Lemma getResultPattern_green guess answer i :
  i < 5 →
  getResultPattern guess answer !! i = Some green ↔ guess !! i = answer !! i.
Proof.
  destruct (getResultPattern_inv guess answer) as (st & Hp & Hinv).
  rewrite Hp. apply (sp_green _ _ _ _ Hinv).
Qed.

(** A position marked green or yellow holds a letter of the answer. *)
Lemma getResultPattern_marked guess answer i :
  marked (getResultPattern guess answer) i →
  ∃ j, j < 5 ∧ answer !! j = guess !! i.
Proof.
  destruct (getResultPattern_inv guess answer) as (st & Hp & Hinv).
  rewrite Hp. destruct (sp_matches _ _ _ _ Hinv) as [M HM].
  intros Hmk. destruct (m_marked _ _ _ _ HM _ Hmk) as [j Hj].
  destruct (m_sound _ _ _ _ HM _ _ Hj) as (_ & ? & ? & _). eauto.
Qed.

(** A grey position whose letter is in the answer: the same letter is
    marked green or yellow at another position of the guess. *)
Lemma getResultPattern_grey guess answer i j :
  i < 5 → j < 5 →
  getResultPattern guess answer !! i = Some grey →
  answer !! j = guess !! i →
  ∃ i', i' < 5 ∧ marked (getResultPattern guess answer) i' ∧ guess !! i' = guess !! i.
Proof.
  destruct (getResultPattern_inv guess answer) as (st & Hp & Hinv).
  rewrite Hp. intros Hi Hj Hgrey Hji.
  destruct Hinv as [_ _ [M HM] Hg].
  destruct (m_used _ _ _ _ HM j) as [i' Hi'].
  { by apply (Hg i). }
  destruct (m_sound _ _ _ _ HM _ _ Hi') as (? & _ & ? & ? & _).
  exists i'. split; [done|]. split; [done|]. congruence.
Qed.

(** The counts of the multiplicity check, for the evaluator's own
    pattern, at any words. *)
Lemma guessCount_le_wordCount guess answer (letter : ascii) :
  guessCount guess (getResultPattern guess answer) (Some letter)
  ≤ wordCount answer (Some letter).
Proof.
  destruct (getResultPattern_inv guess answer) as (st & Hp & Hinv).
  rewrite Hp. clear Hp. unfold guessCount, wordCount.
  destruct (sp_matches _ _ _ _ Hinv) as [M HM].
  set (F := filter _ (indexed guess)).
  rewrite <-(filter_zip_snd_length (λ l, Some l = Some letter)
               (seq 0 (length answer)) answer) by apply length_seq.
  fold (indexed answer). set (W := filter _ (indexed answer)).
  rewrite <-(length_fmap fst F), <-(length_fmap fst W).
  apply (length_le_injection M).
  - apply indexed_filter_NoDup.
  - apply (m_inj _ _ _ _ HM).
  - intros i ([i0 c] & -> & Hic)%list_elem_of_fmap. simpl.
    apply list_elem_of_filter in Hic as [[Hc Hmk] Hin]; simpl in *.
    apply indexed_lookup in Hin. apply isGreenOrYellow_marked in Hmk.
    destruct (m_marked _ _ _ _ HM _ Hmk) as [j Hj].
    exists j. split; [done|].
    destruct (m_sound _ _ _ _ HM _ _ Hj) as (_ & _ & Heq & _).
    apply list_elem_of_fmap. exists (j, c). split; [done|].
    apply list_elem_of_filter. split; [done|].
    apply indexed_lookup. congruence.
Qed.

#[global] Opaque getResultPattern.

Lemma hasYellowOrGreen_true guess (res : list color) i' (letter : option ascii) :
  marked res i' → guess !! i' = letter →
  hasYellowOrGreen guess res letter = true.
Proof.
  intros Hmk Hl. unfold hasYellowOrGreen. apply existsb_exists.
  assert (∃ r, res !! i' = Some r ∧ isGreenOrYellow (Some r) = true) as (r & Hr & Hgy).
  { destruct Hmk as [H|H]; eexists; (split; [exact H|]); by vm_compute. }
  exists (i', r). split.
  - apply list_elem_of_In, indexed_lookup, Hr.
  - simpl. rewrite Hgy. simpl. by apply bool_decide_eq_true.
Qed.

Lemma positionCompatible_own guess answer i :
  length guess = 5 → length answer = 5 → i < 5 →
  positionCompatible answer guess (getResultPattern guess answer) i = true.
Proof.
  intros Hg Ha Hi. unfold positionCompatible.
  destruct (lookup_lt_is_Some_2 guess i) as [c Hc]; [lia|].
  destruct (getResultPattern guess answer !! i) as [[]|] eqn:Hp; [| | |done].
  - apply bool_decide_eq_true. symmetry. by apply getResultPattern_green.
  - apply andb_true_iff. split.
    + apply negb_true_iff, bool_decide_eq_false. intros Heq.
      assert (getResultPattern guess answer !! i = Some green) as Hgreen
        by (by apply getResultPattern_green).
      congruence.
    + destruct (getResultPattern_marked guess answer i) as (j & _ & Hj); [by right|].
      rewrite Hc in *. simpl. apply bool_decide_eq_true.
      by eapply list_elem_of_lookup_2.
  - apply negb_true_iff, andb_false_iff.
    destruct (includes answer (guess !! i)) eqn:Hinc; [left|by right].
    apply negb_false_iff. rewrite Hc in Hinc. simpl in Hinc.
    apply bool_decide_eq_true, list_elem_of_lookup in Hinc as [j Hj].
    destruct (getResultPattern_grey guess answer i j) as (i' & _ & Hmk & Hi');
      [done|apply lookup_lt_Some in Hj; lia|done|congruence|].
    by apply (hasYellowOrGreen_true _ _ i').
Qed.

Lemma yellowCountCompatible_own guess answer i :
  length guess = 5 → i < 5 →
  yellowCountCompatible answer guess (getResultPattern guess answer) i = true.
Proof.
  intros Hg Hi. unfold yellowCountCompatible.
  destruct (decide _) as [_|_]; [|done].
  destruct (lookup_lt_is_Some_2 guess i) as [c ->]; [lia|].
  apply negb_true_iff, bool_decide_eq_false.
  pose proof (guessCount_le_wordCount guess answer c). lia.
Qed.

(** ** Claims about the pattern evaluator and the compatibility check *)

(** C1. Pattern self-consistency: for 5-letter words, the answer passes
    the compatibility check of the feedback that the evaluator computes
    for a guess against it. *)
Theorem pattern_self_consistency (guess answer : list ascii) :
  length guess = 5 → length answer = 5 →
  isWordCompatible answer guess (getResultPattern guess answer) = true.
Proof.
  intros Hg Ha. unfold isWordCompatible. apply andb_true_iff.
  split; apply forallb_forall; intros i [_ Hi]%list_elem_of_In%elem_of_seq.
  - by apply positionCompatible_own.
  - by apply yellowCountCompatible_own.
Qed.

Lemma pattern_self_consistency_witness :
  isWordCompatible (str "SPEED") (str "ERASE")
    (getResultPattern (str "ERASE") (str "SPEED")) = true.
Proof. apply pattern_self_consistency; reflexivity. Defined.

(** C2. Duplicate-letter bound: for 5-letter words and any letter, the
    number of guess positions that hold the letter and are marked green
    or yellow is at most the number of occurrences of the letter in the
    answer. *)
Theorem duplicate_letter_bound (guess answer : list ascii) (letter : ascii) :
  length guess = 5 → length answer = 5 →
  guessCount guess (getResultPattern guess answer) (Some letter)
  ≤ wordCount answer (Some letter).
Proof. intros _ _. apply guessCount_le_wordCount. Qed.

Lemma duplicate_letter_bound_witness :
  guessCount (str "EERIE") (getResultPattern (str "EERIE") (str "SPEED")) (Some "E"%char)
  ≤ wordCount (str "SPEED") (Some "E"%char).
Proof. apply duplicate_letter_bound; reflexivity. Defined.

(** C10. All-green characterises equality: for 5-letter words the
    evaluator answers green at all five positions exactly when the guess
    is the answer. *)
Theorem all_green_iff_equal (guess answer : list ascii) :
  length guess = 5 → length answer = 5 →
  getResultPattern guess answer = [green; green; green; green; green]
  ↔ guess = answer.
Proof.
  intros Hg Ha. split.
  - intros Hp. apply list_eq. intros i.
    destruct (decide (i < 5)) as [Hi|Hi].
    + apply getResultPattern_green; [done|]. rewrite Hp.
      by apply (lookup_replicate_2 5 green).
    + rewrite !lookup_ge_None_2 by lia. done.
  - intros <-. apply list_eq. intros i.
    destruct (decide (i < 5)) as [Hi|Hi].
    + change [green; green; green; green; green] with (replicate 5 green).
      rewrite (lookup_replicate_2 5 green i) by done.
      by apply getResultPattern_green.
    + rewrite !lookup_ge_None_2; [done|simpl; lia|].
      rewrite getResultPattern_length. lia.
Qed.

Lemma all_green_iff_equal_witness :
  getResultPattern (str "CRANE") (str "CRANE") = [green; green; green; green; green]
  ↔ str "CRANE" = str "CRANE".
Proof. apply all_green_iff_equal; reflexivity. Defined.

(** ** Sets in insertion order *)

Lemma setAdd_elem_of {A} `{EqDecision A} (s : list A) x y :
  y ∈ setAdd s x ↔ y ∈ s ∨ y = x.
Proof.
  unfold setAdd. destruct (decide (x ∈ s)) as [Hx|Hx].
  - split; [by left|]. intros [?| ->]; done.
  - rewrite elem_of_app, list_elem_of_singleton. done.
Qed.

Lemma setAdd_NoDup {A} `{EqDecision A} (s : list A) x :
  NoDup s → NoDup (setAdd s x).
Proof.
  intros Hs. unfold setAdd. destruct (decide (x ∈ s)) as [Hx|Hx]; [done|].
  apply NoDup_app. split; [done|]. split; [|apply NoDup_singleton].
  intros y Hy ->%list_elem_of_singleton. done.
Qed.

Lemma foldl_setAdd {A} `{EqDecision A} (xs s : list A) :
  NoDup s →
  NoDup (foldl setAdd s xs) ∧ ∀ y, y ∈ foldl setAdd s xs ↔ y ∈ s ∨ y ∈ xs.
Proof.
  revert s. induction xs as [|x xs IH]; intros s Hs; simpl.
  - split; [done|]. intros y. rewrite elem_of_nil. tauto.
  - destruct (IH (setAdd s x)) as [Hnd Hel]; [by apply setAdd_NoDup|].
    split; [done|]. intros y. rewrite Hel, setAdd_elem_of, elem_of_cons. tauto.
Qed.

Lemma newSet_NoDup {A} `{EqDecision A} (xs : list A) : NoDup (newSet xs).
Proof. apply foldl_setAdd, NoDup_nil_2. Qed.

Lemma newSet_elem_of {A} `{EqDecision A} (xs : list A) y : y ∈ newSet xs ↔ y ∈ xs.
Proof.
  unfold newSet. destruct (foldl_setAdd xs []) as [_ ->]; [apply NoDup_nil_2|].
  rewrite elem_of_nil. tauto.
Qed.

(** The distinct elements are the canonical duplicate-free list, up to
    order. *)
Lemma newSet_remove_dups {A} `{EqDecision A} (xs : list A) :
  newSet xs ≡ₚ remove_dups xs.
Proof.
  apply NoDup_Permutation; [apply newSet_NoDup|apply NoDup_remove_dups|].
  intros y. by rewrite newSet_elem_of, elem_of_remove_dups.
Qed.

Lemma newSet_length_NoDup {A} `{EqDecision A} (xs : list A) :
  length (newSet xs) = length xs ↔ NoDup xs.
Proof.
  split.
  - intros Hlen. assert (newSet xs ≡ₚ xs) as <-; [|apply newSet_NoDup].
    apply submseteq_length_Permutation; [|lia].
    apply NoDup_submseteq; [apply newSet_NoDup|].
    intros y. by rewrite newSet_elem_of.
  - intros Hnd. apply Permutation_length.
    apply NoDup_Permutation; [apply newSet_NoDup|done|].
    intros y. by rewrite newSet_elem_of.
Qed.

(** ** Claims about the session *)

Lemma filterWords_possibleWords s guess result :
  possibleWords (filterWords guess result s)
  = filter (λ word, isWordCompatible word guess result = true) (possibleWords s).
Proof. reflexivity. Qed.

Lemma updateLetterTracking_possibleWords s guess result :
  possibleWords (updateLetterTracking guess result s) = possibleWords s.
Proof. unfold updateLetterTracking. by destruct (foldl _ _ _) as [[? ?] ?]. Qed.

Lemma updateRecommendations_possibleWords s :
  possibleWords (updateRecommendations s) = possibleWords s.
Proof.
  unfold updateRecommendations, showFinalAnswers.
  destruct (decide (length (possibleWords s) = 0)); [done|].
  destruct (decide (length (possibleWords s) = 1)).
  - by destruct (possibleWords s) as [|? [|? ?]] eqn:E.
  - by destruct (findTopGuesses 8 s).
Qed.

(** C7. Monotonic narrowing: the constraint filter leaves a candidate
    list that is no longer than before and holds only words that were
    candidates before. *)
Theorem filterWords_narrows (s : WordleSolver) (guess : list ascii) (result : list color) :
  length (possibleWords (filterWords guess result s)) ≤ length (possibleWords s)
  ∧ ∀ w, w ∈ possibleWords (filterWords guess result s) → w ∈ possibleWords s.
Proof.
  rewrite filterWords_possibleWords. split; [apply length_filter|].
  intros w [_ Hw]%list_elem_of_filter. done.
Qed.

(** An accepted or rejected submission never enlarges the candidates. *)
Lemma submitGuess_narrows (s : WordleSolver) :
  length (possibleWords (submitGuess s)) ≤ length (possibleWords s).
Proof.
  unfold submitGuess. repeat case_decide; [done|done|].
  unfold resetInput. cbn [clearErrorMessage setPage setInput possibleWords].
  rewrite updateRecommendations_possibleWords, filterWords_possibleWords,
    updateLetterTracking_possibleWords.
  apply length_filter.
Qed.

(** C6. Rejections never mutate state: a guess whose length is not 5,
    or a guess outside the allowed vocabulary, is answered with the
    matching error message, and the candidates, the history and the
    three letter sets stay as they were. *)
Theorem rejection_keeps_state (s : WordleSolver) :
  length (currentGuess s) ≠ 5 ∨ currentGuess s ∉ allWords s →
  errorMessage (page (submitGuess s))
    = Some (if decide (length (currentGuess s) ≠ 5) then EnterFiveLetterWord
            else NotAnAllowedWord (currentGuess s))
  ∧ possibleWords (submitGuess s) = possibleWords s
  ∧ guessHistory (submitGuess s) = guessHistory s
  ∧ testedLetters (submitGuess s) = testedLetters s
  ∧ knownLetters (submitGuess s) = knownLetters s
  ∧ excludedLetters (submitGuess s) = excludedLetters s.
Proof.
  intros Hrej. unfold submitGuess.
  cbn [clearErrorMessage setPage currentGuess allWords].
  destruct (decide (length (currentGuess s) ≠ 5)) as [Hlen|Hlen]; [done|].
  destruct (decide (currentGuess s ∉ allWords s)) as [Hnot|Hin]; [done|].
  destruct Hrej; done.
Qed.

Lemma rejection_keeps_state_witness :
  let s := setInput (str "CRAN") (replicate 5 grey)
             (loaded [str "CRANE"; str "TRACE"] [str "CRANE"; str "TRACE"; str "SLATE"]) in
  errorMessage (page (submitGuess s)) = Some EnterFiveLetterWord
  ∧ possibleWords (submitGuess s) = possibleWords s
  ∧ guessHistory (submitGuess s) = guessHistory s
  ∧ testedLetters (submitGuess s) = testedLetters s
  ∧ knownLetters (submitGuess s) = knownLetters s
  ∧ excludedLetters (submitGuess s) = excludedLetters s.
Proof.
  intros s. apply (rejection_keeps_state s). left. vm_compute. lia.
Defined.

(** C9. Empty-candidate behaviour: with no candidate left,
    [findTopGuesses] returns the empty list for every requested number
    of recommendations, and [updateRecommendations] tells the player so:
    it writes NO WORDS and the reason that no word matches the
    constraints. *)
Theorem empty_candidates_signalled (s : WordleSolver) :
  possibleWords s = [] →
  (∀ numRecommendations, findTopGuesses numRecommendations s = [])
  ∧ recommendedWord (page (updateRecommendations s)) = str "NO WORDS"
  ∧ recommendationReason (page (updateRecommendations s)) = NoWordsMatch.
Proof.
  intros Hempty. split.
  - intros n. unfold findTopGuesses. by rewrite Hempty.
  - unfold updateRecommendations. rewrite Hempty. simpl. done.
Qed.

Lemma empty_candidates_signalled_witness :
  let s := playAll (loaded [str "CRANE"; str "TRACE"] [str "CRANE"; str "TRACE"])
             [(str "CRANE", replicate 5 grey); (str "TRACE", replicate 5 green)] in
  (∀ numRecommendations, findTopGuesses numRecommendations s = [])
  ∧ recommendedWord (page (updateRecommendations s)) = str "NO WORDS"
  ∧ recommendationReason (page (updateRecommendations s)) = NoWordsMatch.
Proof.
  intros s. apply (empty_candidates_signalled s). vm_compute. reflexivity.
Defined.

(** ** The pool for two remaining candidates *)

Lemma foldl_addDiffLetters word1 word2 (positions : list nat) diffLetters x :
  x ∈ foldl (addDiffLetters word1 word2) diffLetters positions
  ↔ x ∈ diffLetters
    ∨ ∃ i, i ∈ positions ∧ word1 !! i ≠ word2 !! i ∧ (x = word1 !! i ∨ x = word2 !! i).
Proof.
  revert diffLetters. induction positions as [|k positions IH]; intros diffLetters; simpl.
  - split; [by left|]. intros [?|(i & []%elem_of_nil & _)]. done.
  - rewrite IH. unfold addDiffLetters.
    destruct (decide (word1 !! k ≠ word2 !! k)) as [Hk|Hk].
    + rewrite !setAdd_elem_of. split.
      * intros [[[?| ->]| ->]|(i & ? & ? & ?)]; [by left|right..].
        -- exists k. split; [left|]. auto.
        -- exists k. split; [left|]. auto.
        -- exists i. split; [by right|]. auto.
      * intros [?|(i & [ ->|?]%elem_of_cons & ? & Hx)]; [by auto| |by eauto 10].
        destruct Hx as [->| ->]; auto.
    + split.
      * intros [?|(i & ? & ? & ?)]; [by left|right].
        exists i. split; [by right|]. auto.
      * intros [?|(i & [ ->|?]%elem_of_cons & ? & Hx)]; [by left|done|right].
        eauto.
Qed.

Lemma containsDistinguishingLetters_spec word1 word2 (word : list ascii) :
  length word1 = 5 → length word2 = 5 →
  existsb (arrayIncludes word) (foldl (addDiffLetters word1 word2) [] (seq 0 5)) = true
  ↔ ∃ c, c ∈ word ∧ distinguishingLetter word1 word2 c.
Proof.
  intros H1 H2. rewrite existsb_exists. unfold arrayIncludes, distinguishingLetter. split.
  - intros (x & Hx%list_elem_of_In & Hw%bool_decide_eq_true).
    apply list_elem_of_fmap in Hw as (c & -> & Hc).
    apply foldl_addDiffLetters in Hx as [[]%elem_of_nil|(i & _ & Hne & Hx)].
    exists c. split; [done|]. exists i. split; [done|]. destruct Hx; auto.
  - intros (c & Hc & i & Hne & Hi). exists (Some c). split.
    + apply list_elem_of_In, foldl_addDiffLetters. right. exists i.
      split; [|split; [done|destruct Hi; auto]].
      apply elem_of_seq. split; [lia|]. simpl.
      destruct Hi as [Hi|Hi]; apply lookup_lt_Some in Hi; lia.
    + apply bool_decide_eq_true, list_elem_of_fmap. eauto.
Qed.

(** C5. Two-candidate pool selection: with exactly two 5-letter
    candidates and a vocabulary of 5-letter words, the pool is made of
    exactly the allowed words that contain a letter standing at a
    position where the two candidates differ and whose five letters are
    pairwise distinct; and when that pool is empty the recommendations
    that [findTopGuesses] returns are the two candidates themselves, in
    their order. *)
Theorem two_candidate_pool (s : WordleSolver) (word1 word2 : list ascii) :
  possibleWords s = [word1; word2] →
  length word1 = 5 → length word2 = 5 →
  Forall (λ w, length w = 5) (allWords s) →
  (∀ w, w ∈ findDistinguishingWords s
        ↔ w ∈ allWords s ∧ (∃ c, c ∈ w ∧ distinguishingLetter word1 word2 c) ∧ NoDup w)
  ∧ (findDistinguishingWords s = [] →
     ∀ numRecommendations,
       word <$> findTopGuesses numRecommendations s = [word1; word2]).
Proof.
  intros Hposs H1 H2 Hall. split.
  - intros w. unfold findDistinguishingWords. rewrite Hposs.
    rewrite list_elem_of_filter, andb_true_iff, bool_decide_eq_true.
    rewrite (containsDistinguishingLetters_spec _ _ _ H1 H2).
    split.
    + intros [[Hc Hu] Hw]. split; [done|]. split; [done|].
      apply newSet_length_NoDup. rewrite Forall_forall in Hall.
      rewrite (Hall w Hw). done.
    + intros (Hw & Hc & Hnd). split; [|done]. split; [done|].
      rewrite Forall_forall in Hall. rewrite <-(Hall w Hw).
      by apply newSet_length_NoDup.
  - intros Hpool n. unfold findTopGuesses. rewrite Hposs.
    cbn [length]. rewrite decide_False by lia. rewrite decide_False by lia.
    rewrite Hpool. reflexivity.
Qed.

Lemma two_candidate_pool_witness :
  let s := loaded [str "LLAMA"; str "MAMMA"] [str "LLAMA"; str "MAMMA"; str "BOOKS"] in
  (∀ w, w ∈ findDistinguishingWords s
        ↔ w ∈ allWords s
          ∧ (∃ c, c ∈ w ∧ distinguishingLetter (str "LLAMA") (str "MAMMA") c) ∧ NoDup w)
  ∧ findDistinguishingWords s = []
  ∧ ∀ numRecommendations,
      word <$> findTopGuesses numRecommendations s = [str "LLAMA"; str "MAMMA"].
Proof.
  intros s.
  assert (findDistinguishingWords s = []) as Hempty by (vm_compute; reflexivity).
  assert (Forall (λ w, length w = 5) (allWords s)) as Hfive
    by (vm_compute; repeat constructor).
  pose proof (two_candidate_pool s (str "LLAMA") (str "MAMMA")
                eq_refl eq_refl eq_refl Hfive) as [Hpool Hfallback].
  split; [exact Hpool|]. split; [exact Hempty|]. exact (Hfallback Hempty).
Defined.

(** ** Letter-state bookkeeping *)

Lemma lettersAgree_disjoint answer known excluded :
  lettersAgree answer known excluded → known ## excluded.
Proof.
  intros [Hk He] x Hx1 Hx2. destruct (Hk x Hx1) as (c & -> & Hc).
  by apply (He c).
Qed.

Lemma appearsElsewhere_true letters (res : list color) i i' (letter : option ascii) :
  i' ≠ i → marked res i' → letters !! i' = letter →
  appearsElsewhere letters res i letter = true.
Proof.
  intros Hne Hmk Hl. unfold appearsElsewhere. apply existsb_exists.
  assert (∃ r, res !! i' = Some r ∧ isGreenOrYellow (Some r) = true) as (r & Hr & Hgy).
  { destruct Hmk as [H|H]; eexists; (split; [exact H|]); by vm_compute. }
  exists (i', r). split.
  - apply list_elem_of_In, indexed_lookup, Hr.
  - simpl. rewrite Hgy, andb_true_r. apply andb_true_iff. split.
    + by apply negb_true_iff, bool_decide_eq_false.
    + by apply bool_decide_eq_true.
Qed.

Lemma trackLetter_agree guess answer tested known excluded i :
  length guess = 5 → length answer = 5 → i < 5 →
  lettersAgree answer known excluded →
  let '(_, known', excluded') :=
    trackLetter guess (getResultPattern guess answer) (tested, known, excluded) i in
  lettersAgree answer known' excluded'.
Proof.
  intros Hg Ha Hi [Hk He]. unfold trackLetter.
  destruct (lookup_lt_is_Some_2 guess i) as [c Hc]; [lia|].
  destruct (isGreenOrYellow _) eqn:Hgy.
  - apply isGreenOrYellow_marked in Hgy.
    destruct (getResultPattern_marked guess answer i Hgy) as (j & _ & Hj).
    split; [|done].
    intros x [->%elem_of_singleton|Hx]%elem_of_union; [|by apply Hk].
    exists c. split; [done|]. apply (list_elem_of_lookup_2 _ j). congruence.
  - destruct (decide _) as [Hgrey|_]; [|by split].
    destruct (appearsElsewhere _ _ _ _) eqn:Hel; [by split|].
    split; [done|].
    intros c' [Hc'%elem_of_singleton|Hx]%elem_of_union; [|by apply He].
    intros [j Hj]%list_elem_of_lookup.
    destruct (getResultPattern_grey guess answer i j) as (i' & _ & Hmk & Hi');
      [done|apply lookup_lt_Some in Hj; lia|done|congruence|].
    rewrite (appearsElsewhere_true _ _ _ i') in Hel; [done| |done..].
    intros ->. destruct Hmk; congruence.
Qed.

Lemma trackLetters_agree guess answer positions :
  length guess = 5 → length answer = 5 → Forall (λ i, i < 5) positions →
  ∀ sets, lettersAgree answer sets.1.2 sets.2 →
  let r := foldl (trackLetter guess (getResultPattern guess answer)) sets positions in
  lettersAgree answer r.1.2 r.2.
Proof.
  intros Hg Ha.
  induction positions as [|i positions IH]; intros His [[t k] e] Hsets; [done|].
  apply Forall_cons in His as [Hi His]. cbn [foldl]. apply IH; [done|].
  pose proof (trackLetter_agree guess answer t k e i Hg Ha Hi Hsets) as Hstep.
  destruct (trackLetter _ _ _ _) as [[? ?] ?]. exact Hstep.
Qed.

Lemma updateRecommendations_letters s :
  knownLetters (updateRecommendations s) = knownLetters s
  ∧ excludedLetters (updateRecommendations s) = excludedLetters s.
Proof.
  unfold updateRecommendations, showFinalAnswers.
  destruct (decide (length (possibleWords s) = 0)); [done|].
  destruct (decide (length (possibleWords s) = 1)).
  - by destruct (possibleWords s) as [|? [|? ?]].
  - by destruct (findTopGuesses 8 s).
Qed.

(** The Known and Excluded sets after [submitGuess]. *)
Lemma submitGuess_letters s :
  let accepted := length (currentGuess s) = 5 ∧ currentGuess s ∈ allWords s in
  let r := foldl (trackLetter (currentGuess s) (currentResult s))
                 (testedLetters s, knownLetters s, excludedLetters s) (seq 0 5) in
  knownLetters (submitGuess s) = (if decide accepted then r.1.2 else knownLetters s)
  ∧ excludedLetters (submitGuess s) = (if decide accepted then r.2 else excludedLetters s).
Proof.
  intros accepted r. subst accepted. unfold submitGuess.
  cbn [clearErrorMessage setPage currentGuess currentResult allWords guessHistory].
  destruct (decide (length (currentGuess s) ≠ 5)) as [Hlen|Hlen].
  { rewrite !decide_False by tauto. by split. }
  destruct (decide (currentGuess s ∉ allWords s)) as [Hnot|Hin].
  { rewrite !decide_False by tauto. by split. }
  rewrite !decide_True by (split; [lia|by apply dec_stable]).
  unfold resetInput. cbn [clearErrorMessage setPage setInput knownLetters excludedLetters].
  match goal with
  | |- context [updateRecommendations ?x] =>
      destruct (updateRecommendations_letters x) as [-> ->]
  end.
  unfold filterWords, updateLetterTracking.
  cbn [updateWordsCount setPage setPossibleWords setGuessHistory
       testedLetters knownLetters excludedLetters].
  change (testedLetters (clearErrorMessage s)) with (testedLetters s).
  change (knownLetters (clearErrorMessage s)) with (knownLetters s).
  change (excludedLetters (clearErrorMessage s)) with (excludedLetters s).
  fold r. destruct r as [[? ?] ?]. by split.
Qed.

Lemma play_agree answer s guess :
  length answer = 5 →
  lettersAgree answer (knownLetters s) (excludedLetters s) →
  lettersAgree answer
    (knownLetters (play s (guess, getResultPattern guess answer)))
    (excludedLetters (play s (guess, getResultPattern guess answer))).
Proof.
  intros Ha Hs. unfold play. cbn [fst snd].
  destruct (submitGuess_letters (setInput guess (getResultPattern guess answer) s))
    as [Hk He].
  cbn [setInput currentGuess currentResult allWords testedLetters knownLetters
       excludedLetters] in Hk, He.
  rewrite Hk, He. destruct (decide _) as [[Hg _]|_]; [|done].
  apply (trackLetters_agree guess answer (seq 0 5) Hg Ha); [|done].
  apply Forall_forall. intros i Hi%elem_of_seq. lia.
Qed.

Lemma playAll_agree answer records : ∀ s,
  length answer = 5 → truthful answer records →
  lettersAgree answer (knownLetters s) (excludedLetters s) →
  lettersAgree answer (knownLetters (playAll s records)) (excludedLetters (playAll s records)).
Proof.
  induction records as [|[guess res] records IH]; intros s Ha Htrue Hs; [done|].
  apply Forall_cons in Htrue as [Hres Htrue]. simpl in Hres. subst res.
  unfold playAll. cbn [foldl]. apply IH; [done|done|]. by apply play_agree.
Qed.

Lemma loaded_letters answerWords allWords :
  knownLetters (loaded answerWords allWords) = ∅
  ∧ excludedLetters (loaded answerWords allWords) = ∅.
Proof. unfold loaded. by destruct (updateRecommendations_letters
    (updateWordsCount
       (mkSolver answerWords allWords answerWords [] [] (replicate 5 grey) ∅ ∅ ∅
          (mkPage 0 [] NoReason [] None None)))) as [-> ->]. Qed.

Lemma resetGame_letters s :
  knownLetters (resetGame s) = ∅ ∧ excludedLetters (resetGame s) = ∅.
Proof.
  unfold resetGame.
  cbn [setPage updateWordsCount knownLetters excludedLetters].
  by destruct (updateRecommendations_letters
    (resetInput (setLetters ∅ ∅ ∅ (setGuessHistory [] (setPossibleWords (answerWords s) s)))))
    as [-> ->].
Qed.

(** ** The [Map] of pattern groups *)

Lemma mapGet_mapSet {K V} `{EqDecision K} (m : list (K * V)) key v key' :
  mapGet (mapSet m key v) key' = if decide (key' = key) then Some v else mapGet m key'.
Proof.
  induction m as [|[k0 v0] m IH]; simpl.
  - destruct (decide (key = key')), (decide (key' = key)); congruence.
  - destruct (decide (k0 = key)) as [->|Hk0]; simpl.
    + destruct (decide (key = key')), (decide (key' = key)); congruence.
    + destruct (decide (k0 = key')) as [->|]; [|done].
      by rewrite decide_False.
Qed.

Lemma mapSet_keys {K V} `{EqDecision K} (m : list (K * V)) key v k :
  k ∈ (mapSet m key v).*1 ↔ k = key ∨ k ∈ m.*1.
Proof.
  induction m as [|[k0 v0] m IH]; simpl.
  - rewrite list_elem_of_singleton, elem_of_nil. tauto.
  - destruct (decide (k0 = key)) as [->|Hk0]; simpl.
    + rewrite !elem_of_cons. tauto.
    + rewrite !elem_of_cons, IH. tauto.
Qed.

Lemma mapSet_NoDup {K V} `{EqDecision K} (m : list (K * V)) key v :
  NoDup m.*1 → NoDup (mapSet m key v).*1.
Proof.
  induction m as [|[k0 v0] m IH]; simpl; intros Hnd.
  - apply NoDup_singleton.
  - apply NoDup_cons in Hnd as [Hk0 Hnd].
    destruct (decide (k0 = key)) as [->|Hne]; simpl.
    + by apply NoDup_cons.
    + apply NoDup_cons. split; [|by apply IH].
      rewrite mapSet_keys. intros [?|?]; done.
Qed.

Lemma mapGet_elem_of {K V} `{EqDecision K} (m : list (K * V)) key v :
  NoDup m.*1 → (key, v) ∈ m ↔ mapGet m key = Some v.
Proof.
  induction m as [|[k0 v0] m IH]; simpl; intros Hnd.
  - rewrite elem_of_nil. split; [done|]. discriminate.
  - apply NoDup_cons in Hnd as [Hk0 Hnd]. rewrite elem_of_cons.
    destruct (decide (k0 = key)) as [->|Hne].
    + split.
      * intros [[= ->]|Hin]; [done|]. exfalso. apply Hk0.
        apply list_elem_of_fmap. by exists (key, v).
      * intros [= ->]. by left.
    + rewrite <-(IH Hnd). split; [|by right]. intros [[= -> ->]|?]; done.
Qed.

Lemma pushToGroup_NoDup resultGroups key answer :
  NoDup resultGroups.*1 → NoDup (pushToGroup resultGroups key answer).*1.
Proof.
  intros Hnd. unfold pushToGroup.
  destruct (mapHas resultGroups key);
    destruct (mapGet _ key); auto using mapSet_NoDup.
Qed.

Lemma mapGet_pushToGroup resultGroups key answer key' :
  mapGet (pushToGroup resultGroups key answer) key'
  = if decide (key' = key)
    then Some (default [] (mapGet resultGroups key) ++ [answer])
    else mapGet resultGroups key'.
Proof.
  unfold pushToGroup, mapHas.
  destruct (mapGet resultGroups key) as [group|] eqn:Hget.
  - rewrite bool_decide_eq_true_2 by eauto. rewrite Hget. apply mapGet_mapSet.
  - rewrite bool_decide_eq_false_2 by (by intros [? ?]).
    rewrite mapGet_mapSet. destruct (decide (key = key)) as [_|?]; [|done].
    rewrite !mapGet_mapSet. by destruct (decide (key' = key)).
Qed.

Lemma groupByPattern_groupsOf guess candidates :
  groupsOf (λ answer, join (getResultPattern guess answer)) candidates
           (groupByPattern guess candidates).
Proof.
  unfold groupByPattern.
  assert (∀ rest done resultGroups,
    groupsOf (λ answer, join (getResultPattern guess answer)) done resultGroups →
    groupsOf (λ answer, join (getResultPattern guess answer)) (done ++ rest)
      (foldl (λ resultGroups answer,
                pushToGroup resultGroups (join (getResultPattern guess answer)) answer)
             resultGroups rest)) as Hloop.
  { induction rest as [|answer rest IH]; intros done resultGroups Hg; simpl.
    - by rewrite app_nil_r.
    - rewrite (cons_middle answer done rest), (assoc_L (++)). apply IH. destruct Hg as [Hnd Hget]. split.
      + by apply pushToGroup_NoDup.
      + intros k. rewrite mapGet_pushToGroup, filter_app, filter_cons, filter_nil.
        rewrite !Hget.
        destruct (decide (k = join (getResultPattern guess answer))) as [->|Hne].
        * rewrite decide_True by done.
          destruct (filter _ done); simpl; done.
        * rewrite decide_False by done. by rewrite app_nil_r. }
  apply (Hloop candidates [] []). split; [apply NoDup_nil_2|done].
Qed.

(** The key of a pattern determines the pattern: no tag is the start
    of another one. *)
Lemma join_inj (p q : list color) : join p = join q → p = q.
Proof.
  revert q. induction p as [|c p IH]; intros [|d q] Heq.
  - done.
  - by destruct d.
  - by destruct c.
  - unfold join in *. cbn [map concat] in Heq.
    destruct c, d; cbn in Heq; simplify_eq; f_equal; by apply IH.
Qed.

(** ** Numbers *)

Lemma scaled_ge (n d e : Z) :
  (0 < n)%Z → (0 < d)%Z → (e < Z.log2 n - Z.log2 d)%Z →
  (0 < (scaled n d e).2 ≤ (scaled n d e).1)%Z.
Proof.
  intros Hn Hd He.
  destruct (Z.log2_spec n Hn) as [Hn1 Hn2], (Z.log2_spec d Hd) as [Hd1 Hd2].
  pose proof (Z.log2_nonneg n). pose proof (Z.log2_nonneg d).
  unfold scaled. destruct (decide (e ≤ 0)%Z) as [Hle|Hgt]; cbn [fst snd].
  - split; [done|].
    assert (2 ^ Z.succ (Z.log2 d) ≤ 2 ^ Z.log2 n * 2 ^ (- e))%Z.
    { rewrite <-Z.pow_add_r by lia. apply Z.pow_le_mono_r; lia. }
    assert (2 ^ Z.log2 n * 2 ^ (- e) ≤ n * 2 ^ (- e))%Z.
    { apply Z.mul_le_mono_nonneg_r; [apply Z.pow_nonneg; lia|done]. }
    lia.
  - assert (0 < 2 ^ e)%Z by (apply Z.pow_pos_nonneg; lia).
    split; [lia|].
    assert (d * 2 ^ e ≤ 2 ^ Z.succ (Z.log2 d) * 2 ^ e)%Z.
    { apply Z.mul_le_mono_nonneg_r; lia. }
    assert (2 ^ Z.succ (Z.log2 d) * 2 ^ e ≤ 2 ^ Z.log2 n)%Z.
    { rewrite <-Z.pow_add_r by lia. apply Z.pow_le_mono_r; lia. }
    lia.
Qed.

Lemma binade_le (n d : Z) : (binade n d ≤ Z.log2 n - Z.log2 d)%Z.
Proof.
  unfold binade. destruct (scaled _ _ _) as [a b]. destruct (decide _); lia.
Qed.

Lemma nearestEven_pos (a b : Z) : (0 < b ≤ a)%Z → (0 < nearestEven a b)%Z.
Proof.
  intros [Hb Ha]. assert (0 < a `div` b)%Z by (apply Z.div_str_pos; lia).
  unfold nearestEven. destruct (_ ?= _)%Z; [destruct (Z.even _)|..]; lia.
Qed.

Lemma Qpower_two_pos (e : Z) : (0 < 2 ^ e)%Q.
Proof. apply Qpower_0_lt. done. Qed.

(** Rounding keeps the sign: no number other than 0 rounds to 0. *)
Lemma binary64_pos (x : Qc) : (0 < x)%Qc → (0 < binary64 x)%Qc.
Proof.
  intros Hx. unfold binary64.
  assert (0 < Qnum x)%Z as Hn.
  { unfold Qclt, Qlt in Hx. simpl in Hx. lia. }
  rewrite decide_False by lia.
  rewrite Z.abs_eq by lia.
  pose proof (binade_le (Qnum x) (Z.pos (Qden x))) as Hb.
  pose proof (scaled_ge (Qnum x) (Z.pos (Qden x)) (binade (Qnum x) (Z.pos (Qden x)) - 52)
                Hn eq_refl ltac:(lia)) as Hs.
  destruct (scaled _ _ _) as [a b]. cbn [fst snd] in Hs.
  apply nearestEven_pos in Hs.
  unfold Qclt. cbn [this Q2Qc]. rewrite !Qred_correct.
  apply Qmult_lt_0_compat; [|apply Qpower_two_pos].
  unfold Qlt. simpl. rewrite Z.sgn_pos by done. lia.
Qed.

Lemma binary64_neg (x : Qc) : (x < 0)%Qc → (binary64 x < 0)%Qc.
Proof.
  intros Hx. unfold binary64.
  assert (Qnum x < 0)%Z as Hn.
  { unfold Qclt, Qlt in Hx. simpl in Hx. lia. }
  rewrite decide_False by lia.
  rewrite Z.abs_neq by lia.
  pose proof (binade_le (- Qnum x) (Z.pos (Qden x))) as Hb.
  pose proof (scaled_ge (- Qnum x) (Z.pos (Qden x)) (binade (- Qnum x) (Z.pos (Qden x)) - 52)
                ltac:(lia) eq_refl ltac:(lia)) as Hs.
  destruct (scaled _ _ _) as [a b]. cbn [fst snd] in Hs.
  apply nearestEven_pos in Hs.
  unfold Qclt. cbn [this Q2Qc]. rewrite !Qred_correct.
  rewrite Z.sgn_neg by done.
  pose proof (Qpower_two_pos (binade (- Qnum x) (Z.pos (Qden x)) - 52)) as Hp.
  destruct (2 ^ _)%Q as [pn pd]. unfold Qlt in *. simpl in *. nia.
Qed.

(** The sign of a rounded number is the sign of the number. *)
Lemma binary64_sign (x : Qc) : (0 < binary64 x)%Qc ↔ (0 < x)%Qc.
Proof.
  split; [|apply binary64_pos].
  intros Hpos. destruct (Qclt_le_dec 0 x) as [|Hle]; [done|exfalso].
  apply Qcle_lt_or_eq in Hle as [Hneg| ->].
  - apply binary64_neg in Hneg. apply (Qclt_not_eq 0 0); [|done]. by etrans.
  - by apply Qclt_not_eq in Hpos.
Qed.

(** [y - x] is positive exactly when [x] is below [y]. *)
Lemma jsSub_pos (x y : Qc) : (0 < jsSub y x)%Qc ↔ (x < y)%Qc.
Proof. unfold jsSub. rewrite binary64_sign. symmetry. apply Qclt_minus_iff. Qed.

(** ** The rounding of binary64 *)

Lemma nearestEven_spec (a b : Z) :
  (0 < b)%Z →
  (2 * a ≤ 2 * nearestEven a b * b + b)%Z
  ∧ (2 * nearestEven a b * b ≤ 2 * a + b)%Z
  ∧ ((2 * nearestEven a b * b = 2 * a + b ∨ 2 * nearestEven a b * b + b = 2 * a)%Z →
     Z.even (nearestEven a b) = true).
Proof.
  intros Hb. unfold nearestEven.
  pose proof (Z.div_mod a b ltac:(lia)) as Hdiv.
  pose proof (Z.mod_pos_bound a b Hb) as Hmod.
  set (q := (a `div` b)%Z) in *. set (r := (a `mod` b)%Z) in *.
  destruct (Z.compare_spec (2 * r) b) as [Heq|Hlt|Hgt].
  - destruct (Z.even q) eqn:Hq.
    + split_and!; [nia|nia|done].
    + split_and!; [nia|nia|]. intros _. by rewrite Z.even_add, Hq.
  - split_and!; [nia|nia|]. intros [H|H]; nia.
  - split_and!; [nia|nia|]. intros [H|H]; nia.
Qed.

Lemma two_pow_add (e f : Z) : (2 ^ (e + f) == 2 ^ e * 2 ^ f)%Q.
Proof. by apply Qpower_plus. Qed.

Lemma two_pow_opp (e : Z) : (2 ^ e * 2 ^ (- e) == 1)%Q.
Proof. rewrite <-two_pow_add, Z.add_opp_diag_r. done. Qed.

Lemma two_pow_inject (e : Z) : (0 ≤ e)%Z → (inject_Z (2 ^ e) == 2 ^ e)%Q.
Proof. intros He. by rewrite Zpower_Qpower. Qed.

Lemma two_pow_le (e f : Z) : (e ≤ f)%Z → (2 ^ e <= 2 ^ f)%Q.
Proof. intros H. by apply Qpower_le_compat_l. Qed.

Lemma two_pow_double (e f : Z) : (e < f)%Z → (2 * 2 ^ e <= 2 ^ f)%Q.
Proof.
  intros Hef. change (2 * 2 ^ e)%Q with (2 ^ 1 * 2 ^ e)%Q.
  rewrite <-two_pow_add. apply two_pow_le. lia.
Qed.

Lemma two_pow_52 : (2 ^ 52 == 4503599627370496)%Q.
Proof. reflexivity. Qed.

Lemma two_pow_53 : (2 ^ 53 == 9007199254740992)%Q.
Proof. reflexivity. Qed.

(** [scaled n d e] is [n / d / 2 ^ e]. *)
Lemma scaled_value (n d e : Z) :
  (0 < d)%Z →
  (0 < (scaled n d e).2)%Z
  ∧ (inject_Z (scaled n d e).1 * (inject_Z d * 2 ^ e)
     == inject_Z (scaled n d e).2 * inject_Z n)%Q.
Proof.
  intros Hd. unfold scaled. destruct (decide (e ≤ 0)%Z) as [He|He]; cbn [fst snd].
  - split; [done|]. rewrite inject_Z_mult, two_pow_inject by lia.
    pose proof (two_pow_opp e) as Hp. 
    transitivity (inject_Z n * inject_Z d * (2 ^ e * 2 ^ (- e)))%Q; [ring|].
    rewrite Hp. ring.
  - assert (0 < 2 ^ e)%Z by (apply Z.pow_pos_nonneg; lia).
    split; [lia|]. rewrite inject_Z_mult, two_pow_inject by lia. ring.
Qed.

Lemma binade_spec (n d : Z) :
  (0 < n)%Z → (0 < d)%Z →
  (2 ^ binade n d * inject_Z d <= inject_Z n)%Q
  ∧ (inject_Z n < 2 ^ (binade n d + 1) * inject_Z d)%Q.
Proof.
  intros Hn Hd.
  destruct (Z.log2_spec n Hn) as [Hn1 Hn2], (Z.log2_spec d Hd) as [Hd1 Hd2].
  pose proof (Z.log2_nonneg n) as HL. pose proof (Z.log2_nonneg d) as HM.
  rewrite Zle_Qle, two_pow_inject in Hn1, Hd1 by done.
  rewrite Zlt_Qlt, two_pow_inject in Hn2, Hd2 by lia.
  assert (0 < inject_Z d)%Q as HD by (by rewrite <-(Zlt_Qlt 0)).
  unfold binade. set (k := (Z.log2 n - Z.log2 d)%Z).
  destruct (scaled_value n d k Hd) as [Hb Hab].
  destruct (scaled n d k) as [a b]. cbn [fst snd] in Hb, Hab.
  rewrite (Zlt_Qlt 0) in Hb.
  pose proof (Qpower_two_pos k) as Hk.
  destruct (decide (a < b)%Z) as [Hlt|Hge].
  - rewrite Zlt_Qlt in Hlt. split.
    + assert (2 ^ (k - 1) * 2 ^ Z.succ (Z.log2 d) == 2 ^ Z.log2 n)%Q as Hpow
        by (rewrite <-two_pow_add; f_equiv; lia).
      pose proof (Qpower_two_pos (k - 1)) as Hk1.
      apply Qle_trans with (2 ^ (k - 1) * 2 ^ Z.succ (Z.log2 d))%Q; [|by rewrite Hpow].
      apply Qmult_le_l; [done|]. by apply Qlt_le_weak.
    + replace (k - 1 + 1)%Z with k by lia.
      apply Qnot_le_lt. intros Hle.
      assert (inject_Z a * (inject_Z d * 2 ^ k) < inject_Z b * inject_Z n)%Q; [|lra].
      apply Qlt_le_trans with (inject_Z b * (inject_Z d * 2 ^ k))%Q.
      * apply Qmult_lt_r; [|done]. nra.
      * apply Qmult_le_l; [done|]. lra.
  - apply Z.nlt_ge in Hge. rewrite Zle_Qle in Hge. split.
    + apply Qnot_lt_le. intros Hlt.
      assert (inject_Z b * inject_Z n < inject_Z a * (inject_Z d * 2 ^ k))%Q; [|lra].
      apply Qlt_le_trans with (inject_Z b * (inject_Z d * 2 ^ k))%Q.
      * apply Qmult_lt_l; [done|]. lra.
      * apply Qmult_le_r; [nra|done].
    + assert (2 ^ (k + 1) * 2 ^ Z.log2 d == 2 ^ Z.succ (Z.log2 n))%Q as Hpow
        by (rewrite <-two_pow_add; f_equiv; lia).
      pose proof (Qpower_two_pos (k + 1)) as Hk1.
      apply Qlt_le_trans with (2 ^ (k + 1) * 2 ^ Z.log2 d)%Q; [by rewrite Hpow|].
      by apply Qmult_le_l.
Qed.

(** What [binary64] gives for a positive number: a significand [M] and an
    exponent [e], the number lying in the binade of [e] and [M] being
    nearest to the scaled number, even in case of a tie. *)
Lemma binary64_spec (x : Qc) :
  (0 < x)%Qc →
  ∃ (M e : Z),
    (binary64 x == inject_Z M * 2 ^ e)%Q
    ∧ (2 ^ 52 * 2 ^ e <= x)%Q ∧ (x < 2 ^ 53 * 2 ^ e)%Q
    ∧ (2 * x - 2 ^ e <= 2 * (inject_Z M * 2 ^ e))%Q
    ∧ (2 * (inject_Z M * 2 ^ e) <= 2 * x + 2 ^ e)%Q
    ∧ ((2 * (inject_Z M * 2 ^ e) == 2 * x + 2 ^ e
        ∨ 2 * (inject_Z M * 2 ^ e) == 2 * x - 2 ^ e)%Q → Z.even M = true).
Proof.
  intros Hx. unfold binary64.
  assert (0 < Qnum x)%Z as Hn.
  { unfold Qclt, Qlt in Hx. simpl in Hx. lia. }
  rewrite decide_False by lia. rewrite Z.abs_eq, Z.sgn_pos by lia.
  set (n := Qnum x) in *. set (d := Z.pos (Qden x)).
  assert (x * inject_Z d == inject_Z n)%Q as Hxd.
  { destruct x as [[xn xd] Hc]. subst n d. unfold Qeq. simpl. lia. }
  assert (0 < inject_Z d)%Q as HD by (by rewrite <-(Zlt_Qlt 0)).
  destruct (binade_spec n d Hn eq_refl) as [Hlo Hhi].
  set (k := binade n d) in *. set (e := (k - 52)%Z).
  destruct (scaled_value n d e eq_refl) as [Hb Hab].
  pose proof (nearestEven_spec (scaled n d e).1 (scaled n d e).2 Hb) as (HM1 & HM2 & Heven).
  destruct (scaled n d e) as [a b]. cbn [fst snd] in *.
  set (M := nearestEven a b) in *.
  exists M, e.
  pose proof (Qpower_two_pos e) as Hp.
  assert (2 ^ k == 2 ^ 52 * 2 ^ e)%Q as Hk52
    by (rewrite <-two_pow_add; f_equiv; lia).
  assert (2 ^ (k + 1) == 2 ^ 53 * 2 ^ e)%Q as Hk53
    by (rewrite <-two_pow_add; f_equiv; lia).
  rewrite Hk52 in Hlo. rewrite Hk53 in Hhi. rewrite <-Hxd in Hlo, Hhi.
  rewrite (Zlt_Qlt 0) in Hb.
  rewrite Zle_Qle in HM1, HM2.
  rewrite !inject_Z_plus, !inject_Z_mult in HM1, HM2.
  change (inject_Z 2) with 2%Q in HM1, HM2.
  assert (inject_Z a * 2 ^ e == inject_Z b * x)%Q as Hax.
  { apply (Qmult_inj_r _ _ (inject_Z d)); [lra|]. rewrite <-Hxd in Hab. lra. }
  clear Hk52 Hk53. set (p := (2 ^ e)%Q) in *. clearbody p.
  split_and!.
  - cbn [this Q2Qc]. rewrite Qred_correct. rewrite Z.mul_1_l. done.
  - apply (Qmult_le_r _ _ (inject_Z d)); [done|]. lra.
  - apply (Qmult_lt_r _ _ (inject_Z d)); [done|]. lra.
  - apply (Qmult_le_l _ _ (inject_Z b)); [done|]. 
    assert (2 * inject_Z a * p <= (2 * inject_Z M * inject_Z b + inject_Z b) * p)%Q
      by (apply Qmult_le_r; [done|]; lra).
    lra.
  - apply (Qmult_le_l _ _ (inject_Z b)); [done|].
    assert (2 * inject_Z M * inject_Z b * p <= (2 * inject_Z a + inject_Z b) * p)%Q
      by (apply Qmult_le_r; [done|]; lra).
    lra.
  - intros Htie. apply Heven.
    destruct Htie as [Htie|Htie]; [left|right];
      rewrite <-inject_Z_injective, ?inject_Z_plus, !inject_Z_mult;
      change (inject_Z 2) with 2%Q;
      apply (Qmult_inj_r _ _ p); [lra| |lra|].
    + transitivity (inject_Z b * (2 * (inject_Z M * p)))%Q; [ring|]. rewrite Htie.
      transitivity (2 * (inject_Z b * x) + inject_Z b * p)%Q; [ring|]. rewrite <-Hax. ring.
    + transitivity (inject_Z b * (2 * (inject_Z M * p)) + inject_Z b * p)%Q; [ring|].
      rewrite Htie.
      transitivity (2 * (inject_Z b * x))%Q; [ring|]. rewrite <-Hax. ring.
Qed.

Lemma binary64_nonneg (x : Qc) : (0 <= x)%Q → (0 <= binary64 x)%Q.
Proof.
  intros Hx. apply Qle_lt_or_eq in Hx as [Hx|Hx].
  - apply Qlt_le_weak. by apply (binary64_pos x).
  - assert (x = 0%Qc) as -> by (by apply Qc_is_canon). done.
Qed.

(** Rounding loses at most one part in 2^53. *)
Lemma binary64_lower (x : Qc) :
  (0 <= x)%Q → (x - x * (1 # 9007199254740992) <= binary64 x)%Q.
Proof.
  intros Hx. apply Qle_lt_or_eq in Hx as [Hx|Hx].
  - destruct (binary64_spec x Hx) as (M & e & -> & Hlo & _ & Hnear & _).
    rewrite two_pow_52 in Hlo. pose proof (Qpower_two_pos e).
    set (p := (2 ^ e)%Q) in *. clearbody p. set (F := (inject_Z M * p)%Q) in *.
    clearbody F. lra.
  - assert (x = 0%Qc) as -> by (by apply Qc_is_canon). done.
Qed.

(** Rounding adds at most one part in 2^53. *)
Lemma binary64_upper (x : Qc) :
  (0 <= x)%Q → (binary64 x <= x + x * (1 # 9007199254740992))%Q.
Proof.
  intros Hx. apply Qle_lt_or_eq in Hx as [Hx|Hx].
  - destruct (binary64_spec x Hx) as (M & e & -> & Hlo & _ & _ & Hnear & _).
    rewrite two_pow_52 in Hlo. pose proof (Qpower_two_pos e).
    set (p := (2 ^ e)%Q) in *. clearbody p. set (F := (inject_Z M * p)%Q) in *.
    clearbody F. lra.
  - assert (x = 0%Qc) as -> by (by apply Qc_is_canon). done.
Qed.

(** Rounding keeps the order. *)
Lemma binary64_mono (x y : Qc) :
  (0 <= x)%Q → (x <= y)%Q → (binary64 x <= binary64 y)%Q.
Proof.
  intros Hx Hxy. apply Qle_lt_or_eq in Hx as [Hx|Hx].
  2:{ assert (x = 0%Qc) as -> by (by apply Qc_is_canon).
      apply binary64_nonneg. by rewrite Hx. }
  assert (0 < y)%Q as Hy by lra.
  destruct (binary64_spec x Hx) as (M & e & -> & Hlo & Hhi & Hn1 & Hn2 & Heven).
  destruct (binary64_spec y Hy) as (M' & e' & -> & Hlo' & Hhi' & Hn1' & Hn2' & Heven').
  rewrite two_pow_52 in Hlo, Hlo'. rewrite two_pow_53 in Hhi, Hhi'.
  pose proof (Qpower_two_pos e) as Hp. pose proof (Qpower_two_pos e') as Hp'.
  destruct (Z.lt_trichotomy e e') as [Hlt|[<-|Hgt]].
  - pose proof (two_pow_double e e' Hlt) as Hpp.
    set (p := (2 ^ e)%Q) in *. set (p' := (2 ^ e')%Q) in *. clearbody p p'.
    assert (M ≤ 9007199254740992)%Z as HM.
    { assert (inject_Z (2 * M) < inject_Z (2 * 9007199254740992 + 1))%Q as H; [|rewrite <-Zlt_Qlt in H; lia].
      rewrite inject_Z_mult. change (inject_Z 2) with 2%Q.
      change (inject_Z (2 * 9007199254740992 + 1)) with 18014398509481985%Q.
      apply (Qmult_lt_r _ _ p); [done|]. lra. }
    assert (4503599627370496 ≤ M')%Z as HM'.
    { assert (inject_Z (2 * 4503599627370496 - 1) <= inject_Z (2 * M'))%Q as H; [|rewrite <-Zle_Qle in H; lia].
      rewrite inject_Z_mult. change (inject_Z 2) with 2%Q.
      change (inject_Z (2 * 4503599627370496 - 1)) with 9007199254740991%Q.
      apply (Qmult_le_r _ _ p'); [done|]. lra. }
    rewrite Zle_Qle in HM, HM'.
    change (inject_Z 9007199254740992) with 9007199254740992%Q in HM.
    change (inject_Z 4503599627370496) with 4503599627370496%Q in HM'.
    apply Qle_trans with (9007199254740992 * p)%Q; [apply Qmult_le_r; done|].
    apply Qle_trans with (4503599627370496 * p')%Q; [lra|]. by apply Qmult_le_r.
  - set (p := (2 ^ e)%Q) in *. clearbody p.
    apply Qmult_le_r; [done|]. rewrite <-Zle_Qle.
    assert (M ≤ M' + 1)%Z as HMM.
    { assert (inject_Z (2 * M) <= inject_Z (2 * M' + 2))%Q as H; [|rewrite <-Zle_Qle in H; lia].
      rewrite inject_Z_plus, !inject_Z_mult. change (inject_Z 2) with 2%Q.
      apply (Qmult_le_r _ _ p); [done|]. lra. }
    destruct (decide (M = M' + 1)%Z) as [->|?]; [exfalso|lia].
    rewrite inject_Z_plus in *. change (inject_Z 1) with 1%Q in *.
    assert (Z.even (M' + 1) = true) as H1 by (apply Heven; left; lra).
    assert (Z.even M' = true) as H2 by (apply Heven'; right; lra).
    rewrite Z.even_add, H2 in H1. done.
  - pose proof (two_pow_double e' e Hgt) as Hpp.
    set (p := (2 ^ e)%Q) in *. set (p' := (2 ^ e')%Q) in *. clearbody p p'. lra.
Qed.

(** A number with a significand below 2^53 is a binary64 number. *)
Lemma binary64_dyadic (x : Qc) (z j : Z) :
  (0 ≤ z < 2 ^ 53)%Z → (x == inject_Z z * 2 ^ j)%Q → binary64 x = x.
Proof.
  intros [Hz0 Hz] Hx. apply Qc_is_canon.
  pose proof (Qpower_two_pos j) as Hj.
  destruct (decide (z = 0)%Z) as [->|Hne].
  { assert (x = 0%Qc) as -> by (apply Qc_is_canon; rewrite Hx; apply Qmult_0_l). done. }
  assert (0 < x)%Qc as Hpos.
  { unfold Qclt. rewrite Hx. change (this 0%Qc) with 0%Q.
    apply Qmult_lt_0_compat; [|done]. rewrite <-(Zlt_Qlt 0). lia. }
  destruct (binary64_spec _ Hpos) as (M & e & -> & Hlo & Hhi & Hn1 & Hn2 & _).
  rewrite Hx in *. clear Hpos.
  rewrite two_pow_52 in Hlo.
  rewrite Zlt_Qlt in Hz. change (inject_Z (2 ^ 53)) with 9007199254740992%Q in Hz.
  assert (0 < inject_Z z)%Q as Hz1 by (rewrite <-(Zlt_Qlt 0); lia).
  assert (e ≤ j)%Z as He.
  { destruct (decide (e ≤ j)%Z); [done|exfalso].
    pose proof (two_pow_double j e ltac:(lia)) as Hp.
    set (p := (2 ^ e)%Q) in *. set (pj := (2 ^ j)%Q) in *. clearbody p pj. nra. }
  assert (2 ^ j == inject_Z (2 ^ (j - e)) * 2 ^ e)%Q as Hje.
  { rewrite two_pow_inject by lia. rewrite <-two_pow_add. f_equiv. lia. }
  pose proof (Qpower_two_pos e) as Hp.
  rewrite Hje in *. clear Hje Hj.
  set (p := (2 ^ e)%Q) in *. clearbody p. set (N := (z * 2 ^ (j - e))%Z).
  assert (inject_Z z * (inject_Z (2 ^ (j - e)) * p) == inject_Z N * p)%Q as HN
    by (subst N; rewrite inject_Z_mult; ring).
  rewrite HN in *.
  assert (M = N) as ->; [|done].
  assert (inject_Z (2 * M) <= inject_Z (2 * N + 1))%Q as H1.
  { rewrite inject_Z_plus, !inject_Z_mult. change (inject_Z 2) with 2%Q.
    change (inject_Z 1) with 1%Q. apply (Qmult_le_r _ _ p); [done|]. lra. }
  assert (inject_Z (2 * N) <= inject_Z (2 * M + 1))%Q as H2.
  { rewrite inject_Z_plus, !inject_Z_mult. change (inject_Z 2) with 2%Q.
    change (inject_Z 1) with 1%Q. apply (Qmult_le_r _ _ p); [done|]. lra. }
  rewrite <-Zle_Qle in H1, H2. lia.
Qed.

(** The integers below 2^53 are binary64 numbers. *)
Lemma binary64_int (z : Z) :
  (0 ≤ z < 2 ^ 53)%Z → binary64 (Qc_of_Z z) = Qc_of_Z z.
Proof.
  intros Hz. apply (binary64_dyadic _ z 0 Hz).
  change (inject_Z z == inject_Z z * 1)%Q. ring.
Qed.

(** ** The value of an expression on numbers *)

Lemma Qcplus_val (a b : Qc) : ((a + b)%Qc == a + b)%Q.
Proof. apply Qred_correct. Qed.

Lemma Qcmult_val (a b : Qc) : ((a * b)%Qc == a * b)%Q.
Proof. apply Qred_correct. Qed.

Lemma Qcminus_val (a b : Qc) : ((a - b)%Qc == a - b)%Q.
Proof. unfold Qcminus. rewrite Qcplus_val. unfold Qcopp, Q2Qc, this. by rewrite Qred_correct. Qed.

Lemma Qcdiv_val (a b : Qc) : ((a / b)%Qc == a / b)%Q.
Proof. unfold Qcdiv. rewrite Qcmult_val. unfold Qcinv, Q2Qc, this. by rewrite Qred_correct. Qed.

Lemma num_val (n : nat) : (num n == inject_Z (Z.of_nat n))%Q.
Proof. reflexivity. Qed.

Lemma inject_nat_add (a b : nat) :
  (inject_Z (Z.of_nat (a + b)) == inject_Z (Z.of_nat a) + inject_Z (Z.of_nat b))%Q.
Proof. by rewrite Nat2Z.inj_add, inject_Z_plus. Qed.

Lemma inject_nat_mul (a b : nat) :
  (inject_Z (Z.of_nat (a * b)) == inject_Z (Z.of_nat a) * inject_Z (Z.of_nat b))%Q.
Proof. by rewrite Nat2Z.inj_mul, inject_Z_mult. Qed.

Lemma inject_nat_nonneg (a : nat) : (0 <= inject_Z (Z.of_nat a))%Q.
Proof. rewrite <-(Zle_Qle 0). lia. Qed.

Lemma binary64_num (n : nat) : (Z.of_nat n < 2 ^ 53)%Z → binary64 (num n) = num n.
Proof. intros Hn. apply binary64_int. lia. Qed.

Lemma binary64_le_num (x : Qc) (n : nat) :
  (Z.of_nat n < 2 ^ 53)%Z → (0 <= x)%Q → (x <= inject_Z (Z.of_nat n))%Q →
  (binary64 x <= inject_Z (Z.of_nat n))%Q.
Proof.
  intros Hn Hx Hxn. rewrite <-num_val, <-(binary64_num n Hn). by apply binary64_mono.
Qed.

Lemma binary64_ge_num (x : Qc) (n : nat) :
  (Z.of_nat n < 2 ^ 53)%Z → (inject_Z (Z.of_nat n) <= x)%Q →
  (inject_Z (Z.of_nat n) <= binary64 x)%Q.
Proof.
  intros Hn Hxn. rewrite <-num_val, <-(binary64_num n Hn).
  apply binary64_mono; [|done]. rewrite num_val, <-(Zle_Qle 0). lia.
Qed.

Lemma binary64_le_half (x : Qc) (z : Z) :
  (0 ≤ z < 2 ^ 53)%Z → (0 <= x)%Q → (x <= inject_Z z / 2)%Q →
  (binary64 x <= inject_Z z / 2)%Q.
Proof.
  intros Hz Hx Hxz. set (y := Q2Qc (inject_Z z * 2 ^ (-1))).
  assert (y == inject_Z z / 2)%Q as Hy by (subst y; apply Qred_correct).
  rewrite <-Hy, <-(binary64_dyadic y z (-1) Hz) by (by rewrite Hy).
  apply binary64_mono; [done|]. by rewrite Hy.
Qed.

Lemma binary64_ge_half (x : Qc) (z : Z) :
  (0 ≤ z < 2 ^ 53)%Z → (inject_Z z / 2 <= x)%Q → (inject_Z z / 2 <= binary64 x)%Q.
Proof.
  intros Hz Hxz. set (y := Q2Qc (inject_Z z * 2 ^ (-1))).
  assert (y == inject_Z z / 2)%Q as Hy by (subst y; apply Qred_correct).
  rewrite <-Hy, <-(binary64_dyadic y z (-1) Hz) by (by rewrite Hy).
  apply binary64_mono; [|by rewrite Hy].
  rewrite Hy. apply Qle_shift_div_l; [done|]. rewrite Qmult_0_l, <-(Zle_Qle 0). lia.
Qed.

Lemma jsDiv_self (n : nat) : 0 < n → num n ⊘ num n = 1%Qc.
Proof.
  intros Hn. unfold jsDiv, Qcdiv. rewrite Qcmult_inv_r.
  - apply (binary64_dyadic 1%Qc 1 0); [done|reflexivity].
  - intros Heq. apply (f_equal this) in Heq. cbn in Heq. injection Heq. lia.
Qed.

(** The roundings are those of the program: 0.1 is the binary64
    number next to one tenth; six groups of one candidate out of six sum
    to 0.9999999999999999; a green and four greys weigh
    3.0999999999999996; and DANCE is ranked before DAILY because its
    score is 13.606666666666667 while DAILY has 13.606666666666666, the
    exact value of both formulas being 2041/150. *)
Example literal_tenth : literal (1 # 10) = Q2Qc (3602879701896397 # 36028797018963968).
Proof. apply Qc_is_canon. vm_compute. reflexivity. Qed.

Example six_singletons :
  sumExpectedRemaining 6
    (groupByPattern (str "ACTOR")
       [str "ABOUT"; str "ACTOR"; str "ADMIT"; str "AFTER"; str "AGAIN"; str "ALARM"])
  = Q2Qc (9007199254740991 # 9007199254740992).
Proof. apply Qc_is_canon. vm_compute. reflexivity. Qed.

Example green_and_four_greys :
  calculateExpectedInformation [green; grey; grey; grey; grey]
  = Q2Qc (1745144855606067 # 562949953421312).
Proof. apply Qc_is_canon. vm_compute. reflexivity. Qed.

Example dance_before_daily :
  let words := [str "CYCLE"; str "DAILY"; str "DANCE"] in
  calculateExpectedValue (str "DAILY") (loaded words words)
  = Q2Qc (3829936183109659 # 281474976710656)
  ∧ calculateExpectedValue (str "DANCE") (loaded words words)
    = Q2Qc (7659872366219319 # 562949953421312)
  ∧ word <$> findTopGuesses 8 (loaded words words)
    = [str "DANCE"; str "DAILY"; str "CYCLE"].
Proof.
  intros words. split_and!; [apply Qc_is_canon..|]; vm_compute; reflexivity.
Qed.

Lemma jsMul_comm (x y : Qc) : x ⊗ y = y ⊗ x.
Proof. unfold jsMul. by rewrite Qcmult_comm. Qed.

Lemma literal_3 : literal 3 = num 3.
Proof. apply Qc_is_canon. vm_compute. reflexivity. Qed.

Lemma foldl_ext_all {A B} (f g : A → B → A) (l : list B) (a : A) :
  (∀ a x, f a x = g a x) → foldl f a l = foldl g a l.
Proof.
  intros Hfg. revert a. induction l as [|x l IH]; intros a; [done|].
  cbn [foldl]. by rewrite Hfg, IH.
Qed.

(** ** The groups in the order of the [Map] *)

Lemma elem_of_distinct {A} `{EqDecision A} (l : list A) (x : A) :
  x ∈ distinct l ↔ x ∈ l.
Proof.
  induction l as [|y l IH]; [done|]. cbn [distinct].
  rewrite !elem_of_cons, list_elem_of_filter, IH.
  destruct (decide (x = y)); tauto.
Qed.

Lemma NoDup_distinct {A} `{EqDecision A} (l : list A) : NoDup (distinct l).
Proof.
  induction l as [|y l IH]; [constructor|]. cbn [distinct].
  apply NoDup_cons. split; [|by apply NoDup_filter].
  by intros [? _]%list_elem_of_filter.
Qed.

Lemma distinct_snoc {A} `{EqDecision A} (l : list A) (x : A) :
  distinct (l ++ [x]) = if decide (x ∈ l) then distinct l else distinct l ++ [x].
Proof.
  induction l as [|y l IH].
  - cbn. rewrite decide_False; [done|]. apply not_elem_of_nil.
  - cbn [app distinct]. rewrite IH.
    destruct (decide (x ∈ l)) as [Hx|Hx].
    + rewrite decide_True; [done|]. by right.
    + rewrite filter_app, filter_cons, filter_nil.
      destruct (decide (x ≠ y)) as [Hne|Heq].
      * rewrite decide_False; [done|]. by intros [?|?]%elem_of_cons.
      * apply dec_stable in Heq as ->. rewrite decide_True; [|left].
        by rewrite app_nil_r.
Qed.

Lemma mapGet_is_Some {K V} `{EqDecision K} (m : list (K * V)) key :
  is_Some (mapGet m key) ↔ key ∈ m.*1.
Proof.
  induction m as [|[k0 v0] m IH]; simpl.
  - rewrite elem_of_nil. split; [by intros [? ?]|done].
  - rewrite elem_of_cons. destruct (decide (k0 = key)) as [->|Hne].
    + split; [by left|eauto].
    + rewrite IH. split; [by right|]. intros [?|?]; [congruence|done].
Qed.

Lemma mapSet_fst {K V} `{EqDecision K} (m : list (K * V)) key v :
  (mapSet m key v).*1 = if decide (key ∈ m.*1) then m.*1 else m.*1 ++ [key].
Proof.
  induction m as [|[k0 v0] m IH]; cbn [mapSet fmap list_fmap fst].
  - rewrite decide_False; [done|]. apply not_elem_of_nil.
  - destruct (decide (k0 = key)) as [->|Hne]; cbn [fmap list_fmap fst].
    + rewrite decide_True; [done|]. left.
    + fold (fst <$> mapSet m key v). fold (fst <$> m). rewrite IH.
      destruct (decide (key ∈ m.*1)) as [Hin|Hin].
      * rewrite decide_True; [done|]. by right.
      * rewrite decide_False; [done|]. intros [?|?]%elem_of_cons; congruence.
Qed.

(** The loop gives a new key the last place and leaves the places of
    the others. *)
Lemma pushToGroup_fst resultGroups key answer :
  (pushToGroup resultGroups key answer).*1
  = if decide (key ∈ resultGroups.*1) then resultGroups.*1 else resultGroups.*1 ++ [key].
Proof.
  unfold pushToGroup, mapHas.
  destruct (decide (key ∈ resultGroups.*1)) as [Hin|Hin].
  - rewrite bool_decide_eq_true_2 by (by apply mapGet_is_Some).
    apply mapGet_is_Some in Hin as Hget. destruct Hget as [group ->].
    rewrite mapSet_fst. by rewrite decide_True.
  - rewrite bool_decide_eq_false_2 by (by rewrite mapGet_is_Some).
    rewrite mapGet_mapSet, decide_True by done.
    assert ((mapSet resultGroups key []).*1 = resultGroups.*1 ++ [key]) as Hkeys
      by (by rewrite mapSet_fst, decide_False).
    rewrite mapSet_fst, Hkeys.
    rewrite decide_True; [done|]. apply elem_of_app. right. left.
Qed.

Lemma groupByPattern_fst guess candidates :
  (groupByPattern guess candidates).*1
  = join <$> distinct (getResultPattern guess <$> candidates).
Proof.
  unfold groupByPattern.
  induction candidates as [|answer candidates IH] using rev_ind; [done|].
  rewrite foldl_snoc, pushToGroup_fst, IH, fmap_app. cbn [fmap list_fmap].
  rewrite distinct_snoc.
  destruct (decide (getResultPattern guess answer ∈ getResultPattern guess <$> candidates))
    as [Hin|Hin].
  - rewrite decide_True; [done|]. apply list_elem_of_fmap_2. by apply elem_of_distinct.
  - rewrite decide_False; [by rewrite fmap_app|].
    intros (q & Hq%join_inj & Hin')%list_elem_of_fmap. subst q.
    by rewrite elem_of_distinct in Hin'.
Qed.

(** Two lists of entries with the same keys in the same order, no key
    twice, are equal when the entries of one are entries of the other. *)
Lemma entries_eq {K V} (m1 m2 : list (K * V)) :
  NoDup m1.*1 → m1.*1 = m2.*1 → (∀ e, e ∈ m2 → e ∈ m1) → m1 = m2.
Proof.
  revert m2. induction m1 as [|[k v] m1 IH]; intros [|[k' v'] m2] Hnd Hkeys Hsub;
    try done.
  rewrite fmap_cons in Hnd. rewrite !fmap_cons in Hkeys. cbn [fst] in Hnd, Hkeys.
  injection Hkeys as <- Hkeys. apply NoDup_cons in Hnd as [Hk Hnd].
  assert (∀ e, e ∈ m1 → e.1 ≠ k) as Hne.
  { intros e He <-. apply Hk. apply list_elem_of_fmap. by exists e. }
  assert (v' = v) as ->.
  { assert ((k, v') ∈ (k, v) :: m1) as [[= ->]|Hin]%elem_of_cons
      by (apply Hsub; left); [done|].
    by destruct (Hne _ Hin). }
  f_equal. apply IH; [done|done|]. intros e He.
  assert (e ∈ (k, v) :: m1) as [->|Hin]%elem_of_cons by (apply Hsub; by right); [|done].
  exfalso. apply Hk. rewrite Hkeys.
  change k with (k, v).1. by apply list_elem_of_fmap_2.
Qed.

Lemma groupByPattern_Permutation guess candidates :
  groupByPattern guess candidates
  ≡ₚ (λ p, (join p, filter (λ answer, getResultPattern guess answer = p) candidates))
       <$> remove_dups (getResultPattern guess <$> candidates).
Proof.
  destruct (groupByPattern_groupsOf guess candidates) as [Hnd Hget].
  apply NoDup_Permutation.
  - by apply (NoDup_fmap_1 fst).
  - apply NoDup_fmap_2_strong; [|apply NoDup_remove_dups].
    intros p q _ _ [= Hpq%join_inj _]. done.
  - intros [k group]. rewrite (mapGet_elem_of _ _ _ Hnd), Hget, list_elem_of_fmap.
    split.
    + destruct (filter _ candidates) as [|a l] eqn:Hf; [done|]. intros [= <-].
      assert (a ∈ filter (λ a, join (getResultPattern guess a) = k) candidates) as Ha
        by (rewrite Hf; left).
      apply list_elem_of_filter in Ha as [<- Ha].
      exists (getResultPattern guess a). split.
      * f_equal. rewrite <-Hf. apply list_filter_iff. intros a'. split; [|by intros ->].
        apply join_inj.
      * apply elem_of_remove_dups, list_elem_of_fmap. eauto.
    + intros (p & [= -> ->] & Hp). apply elem_of_remove_dups, list_elem_of_fmap in Hp
        as (a & -> & Ha).
      assert (filter (λ a', join (getResultPattern guess a') = join (getResultPattern guess a))
                     candidates
              = filter (λ a', getResultPattern guess a' = getResultPattern guess a) candidates)
        as Heq.
      { apply list_filter_iff. intros a'. split; [apply join_inj|by intros ->]. }
      rewrite Heq. clear Heq.
      destruct (filter _ candidates) as [|b l] eqn:Hf; [|done].
      assert (a ∈ filter (λ a', getResultPattern guess a' = getResultPattern guess a) candidates)
        as Hin by (by apply list_elem_of_filter).
      rewrite Hf in Hin. by apply elem_of_nil in Hin.
Qed.

(** The [Map] of the grouping loop, entry by entry: the groups stand in
    the order in which their feedbacks first occur. *)
Lemma groupByPattern_groups guess candidates :
  groupByPattern guess candidates
  = (λ p, (join p, filter (λ answer, getResultPattern guess answer = p) candidates))
      <$> distinct (getResultPattern guess <$> candidates).
Proof.
  apply entries_eq.
  - apply (groupByPattern_groupsOf guess candidates).
  - rewrite groupByPattern_fst, <-list_fmap_compose. done.
  - intros e (p & -> & Hp)%list_elem_of_fmap.
    rewrite (groupByPattern_Permutation guess candidates).
    apply list_elem_of_fmap. exists p. split; [done|].
    apply elem_of_remove_dups. by rewrite elem_of_distinct in Hp.
Qed.

(** The sum of the grouping loop is the sum over the groups. *)
Lemma sumExpectedRemaining_groups guess candidates :
  sumExpectedRemaining (length candidates) (groupByPattern guess candidates)
  = expectedRemainingSum guess candidates.
Proof.
  unfold sumExpectedRemaining, expectedRemainingSum, patternGroups, sumNumbers.
  rewrite groupByPattern_groups, !foldl_fmap. done.
Qed.

(** ** Claims about the scorer *)

(** C3, as the code has it. With at most one candidate the candidate
    count is returned; otherwise the result is the sum over the pattern
    groups of [(|group| / |candidates|) * |group|], computed in binary64
    and rounded to one decimal place by [Math.round(x * 10) / 10]. *)
Theorem expectedRemaining_rounded (guess : list ascii) (s : WordleSolver) :
  calculateExpectedRemainingWords guess s
  = if decide (length (possibleWords s) ≤ 1) then num (length (possibleWords s))
    else roundToTenth (expectedRemainingSum guess (possibleWords s)).
Proof.
  unfold calculateExpectedRemainingWords, roundToTenth.
  destruct (decide _); [done|]. by rewrite sumExpectedRemaining_groups.
Qed.

(** C3, as stated, fails: the sum itself is not what is returned. With
    the candidates ABOUT, CRANE, CRAZE and the guess ABOUT the groups
    have sizes 1 and 2, the sum is 1.6666666666666665 (5/3 up to the
    rounding of binary64) and the function returns 1.7. *)
Lemma expectedRemaining_not_exact :
  let s := loaded [str "ABOUT"; str "CRANE"; str "CRAZE"]
                  [str "ABOUT"; str "CRANE"; str "CRAZE"] in
  ¬ (length (possibleWords s) ≤ 1)
  ∧ (Q2Qc (1666 # 1000) < expectedRemainingSum (str "ABOUT") (possibleWords s))%Qc
  ∧ (expectedRemainingSum (str "ABOUT") (possibleWords s) < Q2Qc (1667 # 1000))%Qc
  ∧ calculateExpectedRemainingWords (str "ABOUT") s = literal (17 # 10)
  ∧ calculateExpectedRemainingWords (str "ABOUT") s
    ≠ expectedRemainingSum (str "ABOUT") (possibleWords s).
Proof.
  intros s.
  assert (expectedRemainingSum (str "ABOUT") (possibleWords s)
          = Q2Qc (3752999689475413 # 2251799813685248)) as Hsum
    by (apply Qc_is_canon; vm_compute; reflexivity).
  assert (calculateExpectedRemainingWords (str "ABOUT") s = literal (17 # 10)) as Hcode
    by (apply Qc_is_canon; vm_compute; reflexivity).
  split; [vm_compute; lia|]. rewrite Hsum, Hcode.
  split; [by vm_compute|]. split; [by vm_compute|]. split; [done|].
  intros Heq. apply (f_equal this) in Heq. vm_compute in Heq. discriminate.
Qed.

(** ** The score *)

Lemma calculateExpectedInformation_sum (p : list color) :
  calculateExpectedInformation p = expectedInformationValue p.
Proof.
  unfold calculateExpectedInformation, expectedInformationValue, sumNumbers.
  rewrite foldl_fmap. apply foldl_ext_all. by intros a [].
Qed.

Lemma totalInformation_sum guess (candidates : list (list ascii)) :
  foldl (λ total answer,
           total ⊕ calculateExpectedInformation (getResultPattern guess answer))
        0%Qc candidates
  = sumNumbers (expectedInformationValue <$> (getResultPattern guess <$> candidates)).
Proof.
  unfold sumNumbers. rewrite !foldl_fmap. apply foldl_ext_all.
  intros a answer. by rewrite calculateExpectedInformation_sum.
Qed.

Lemma newSet_filter_length {A} `{EqDecision A} (P : A → Prop) `{!∀ x, Decision (P x)}
    (xs : list A) :
  length (filter P (newSet xs)) = length (filter P (remove_dups xs)).
Proof. by rewrite (newSet_remove_dups xs). Qed.

Lemma newSet_length {A} `{EqDecision A} (xs : list A) :
  length (newSet xs) = length (remove_dups xs).
Proof. by rewrite (newSet_remove_dups xs). Qed.

(** C4. Score correctness: with at most one candidate the score is 0;
    otherwise it is the candidate count minus the expected remaining
    sum, plus 1.5 for each distinct letter of the guess not yet tested,
    minus 1.0 for each letter short of five distinct ones when more than
    ten candidates remain, minus 3.0 for each distinct letter of the
    guess that is excluded, plus 0.8 times the average information; the
    formula is evaluated in binary64 from left to right. *)
Theorem score_correct (guess : list ascii) (s : WordleSolver) :
  calculateExpectedValue guess s
  = scoreSpec guess (possibleWords s) (testedLetters s) (excludedLetters s).
Proof.
  unfold calculateExpectedValue, scoreSpec, avgInformation.
  destruct (decide (length (possibleWords s) ≤ 1)); [done|].
  cbv zeta.
  rewrite sumExpectedRemaining_groups, totalInformation_sum.
  rewrite !newSet_filter_length, !newSet_length, literal_3.
  rewrite (jsMul_comm (literal (3 # 2))), (jsMul_comm (literal 1)),
    (jsMul_comm (num 3)), (jsMul_comm (literal (4 # 5))).
  done.
Qed.

(** * Further properties of the engine *)

(** ** The pattern evaluator *)

(** X1. The evaluator answers with five symbols whatever the lengths of
    the two words are. *)
Theorem pattern_has_five_symbols (guess answer : list ascii) :
  length (getResultPattern guess answer) = 5.
Proof.
  destruct (getResultPattern_inv guess answer) as (st & Hp & Hinv).
  rewrite Hp. apply (sp_length _ _ _ _ Hinv).
Qed.

(** X2. Yellow is sound: a yellow position of a 5-letter guess holds a
    letter that the answer does not have at that position and has at
    another one. *)
Theorem yellow_sound (guess answer : list ascii) (i : nat) :
  length guess = 5 →
  getResultPattern guess answer !! i = Some yellow →
  ∃ c j, guess !! i = Some c ∧ answer !! i ≠ Some c ∧ j ≠ i ∧ answer !! j = Some c.
Proof.
  intros Hg Hy.
  assert (i < 5) as Hi.
  { apply lookup_lt_Some in Hy. by rewrite getResultPattern_length in Hy. }
  destruct (lookup_lt_is_Some_2 guess i) as [c Hc]; [lia|].
  assert (answer !! i ≠ Some c) as Hne.
  { intros Heq.
    assert (getResultPattern guess answer !! i = Some green) as Hgr
      by (apply getResultPattern_green; [done|congruence]).
    congruence. }
  destruct (getResultPattern_marked guess answer i) as (j & _ & Hj); [by right|].
  exists c, j. split; [done|]. split; [done|]. split; [|congruence].
  intros ->. congruence.
Qed.

Lemma yellow_sound_witness :
  ∃ c j, str "CRANE" !! 0 = Some c ∧ str "TRACE" !! 0 ≠ Some c ∧ j ≠ 0
         ∧ str "TRACE" !! j = Some c.
Proof. apply (yellow_sound (str "CRANE") (str "TRACE") 0); reflexivity. Defined.

(** X3. Grey is sound: when every occurrence of a letter in a 5-letter
    guess is grey, a 5-letter answer does not contain the letter. *)
Theorem grey_sound (guess answer : list ascii) (c : ascii) :
  length guess = 5 → length answer = 5 →
  c ∈ guess →
  (∀ i, guess !! i = Some c → getResultPattern guess answer !! i = Some grey) →
  c ∉ answer.
Proof.
  intros Hg Ha [i Hi]%list_elem_of_lookup Hgrey [j Hj]%list_elem_of_lookup.
  destruct (getResultPattern_grey guess answer i j) as (i' & _ & Hmk & Hi').
  - apply lookup_lt_Some in Hi. lia.
  - apply lookup_lt_Some in Hj. lia.
  - by apply Hgrey.
  - congruence.
  - rewrite Hi in Hi'. apply Hgrey in Hi'. destruct Hmk; congruence.
Qed.

Lemma grey_sound_witness : "N"%char ∉ str "TRACE".
Proof.
  apply (grey_sound (str "CRANE") (str "TRACE")); [reflexivity|reflexivity| |].
  - apply (list_elem_of_lookup_2 _ 3). reflexivity.
  - intros [|[|[|[|[|i]]]]] Hi; try discriminate Hi; reflexivity.
Defined.

(** X4. For 5-letter words the feedback is grey at every position
    exactly when guess and answer have no letter in common. *)
Theorem all_grey_iff_no_common_letter (guess answer : list ascii) :
  length guess = 5 → length answer = 5 →
  getResultPattern guess answer = [grey; grey; grey; grey; grey]
  ↔ ∀ c, c ∈ guess → c ∉ answer.
Proof.
  intros Hg Ha. split.
  - intros Hp c [i Hi]%list_elem_of_lookup [j Hj]%list_elem_of_lookup.
    assert (i < 5) as Hi5 by (apply lookup_lt_Some in Hi; lia).
    destruct (getResultPattern_grey guess answer i j) as (i' & Hi' & Hmk & _).
    + done.
    + apply lookup_lt_Some in Hj. lia.
    + rewrite Hp. by apply (lookup_replicate_2 5 grey).
    + congruence.
    + rewrite Hp in Hmk. unfold marked in Hmk.
      change [grey; grey; grey; grey; grey] with (replicate 5 grey) in Hmk.
      rewrite (lookup_replicate_2 5 grey i') in Hmk by done.
      destruct Hmk; congruence.
  - intros Hdisj. apply list_eq. intros i.
    destruct (decide (i < 5)) as [Hi|Hi].
    + change [grey; grey; grey; grey; grey] with (replicate 5 grey).
      rewrite (lookup_replicate_2 5 grey i) by done.
      destruct (lookup_lt_is_Some_2 (getResultPattern guess answer) i) as [x Hx].
      { rewrite getResultPattern_length. lia. }
      destruct (lookup_lt_is_Some_2 guess i) as [c Hc]; [lia|].
      assert (¬ marked (getResultPattern guess answer) i) as Hnm.
      { intros (j & _ & Hj)%getResultPattern_marked.
        apply (Hdisj c); [by eapply list_elem_of_lookup_2|].
        apply (list_elem_of_lookup_2 _ j). congruence. }
      rewrite Hx. unfold marked in Hnm. rewrite Hx in Hnm.
      destruct x; [exfalso; auto|exfalso; auto|done].
    + rewrite !lookup_ge_None_2; [done|simpl; lia|].
      rewrite getResultPattern_length. lia.
Qed.

Lemma all_grey_iff_no_common_letter_witness :
  getResultPattern (str "CRANE") (str "MOULD") = [grey; grey; grey; grey; grey]
  ↔ ∀ c, c ∈ str "CRANE" → c ∉ str "MOULD".
Proof. apply all_grey_iff_no_common_letter; reflexivity. Defined.

(** *** The marks of a letter are counted exactly *)

Lemma functional_extend guess answer st M i j :
  matches guess answer st M → functional M →
  result st !! i = Some grey →
  functional (λ i' j', M i' j' ∨ (i' = i ∧ j' = j)).
Proof.
  intros HM Hf Hgrey i' j1 j2 [H1|[-> ->]] [H2|[E ->]].
  - by eapply Hf.
  - subst i'. destruct (m_sound _ _ _ _ HM _ _ H1) as (_ & _ & _ & Hmk & _).
    destruct Hmk; congruence.
  - destruct (m_sound _ _ _ _ HM _ _ H2) as (_ & _ & _ & Hmk & _).
    destruct Hmk; congruence.
  - done.
Qed.

Lemma markGreen_paired guess answer k st :
  k < 5 → firstPassInv guess answer k st → paired guess answer st →
  paired guess answer (markGreen guess answer st k).
Proof.
  intros Hk [Hlen Hrest Hused _ _ _] (M & HM & Hf). unfold markGreen.
  assert (result st !! k = Some grey) as Hgrey by (apply Hrest; lia).
  destruct (decide (guess !! k = answer !! k)) as [Heq|Hne]; [|by exists M].
  eexists. split.
  - apply (matches_extend guess answer st M k k green); try done.
    intros ?%Hused. lia.
  - by eapply functional_extend.
Qed.

Lemma firstPass_paired_loop guess answer k :
  k ≤ 5 →
  paired guess answer
    (foldl (markGreen guess answer) (mkEval (replicate 5 grey) ∅) (seq 0 k)).
Proof.
  induction k as [|k IH]; intros Hk.
  - destruct (firstPassInv_init guess answer) as [_ _ _ _ _ [M HM]].
    exists (λ _ _, False). split; [|by intros ? ? ? []].
    split; cbn [result usedAnswerIndices]; [done|done| |].
    + intros i [[? _]%lookup_replicate|[? _]%lookup_replicate]; done.
    + intros j Hj. by apply not_elem_of_empty in Hj.
  - rewrite seq_S, foldl_snoc. apply (markGreen_paired guess answer k); [lia| |].
    + apply firstPassInv_loop. lia.
    + apply IH. lia.
Qed.

Lemma markYellow_paired guess answer k st :
  k < 5 → secondPassInv guess answer k st → paired guess answer st →
  paired guess answer (markYellow guess answer st k).
Proof.
  intros Hk [Hlen _ _ _] (M & HM & Hf). unfold markYellow, findUnused.
  destruct (decide (result st !! k = Some grey)) as [Hk_grey|_]; [|by exists M].
  destruct (list_find _ _) as [[n j]|] eqn:Hfind; simpl; [|by exists M].
  apply list_find_Some in Hfind as (Hn & [Hfresh Hj] & _).
  apply lookup_seq in Hn as [-> Hn]; simpl in *.
  eexists. split.
  - by apply (matches_extend guess answer st M k n yellow).
  - by eapply functional_extend.
Qed.

Lemma secondPass_paired_loop guess answer k :
  k ≤ 5 →
  paired guess answer
    (foldl (markYellow guess answer) (firstPass guess answer) (seq 0 k)).
Proof.
  induction k as [|k IH]; intros Hk.
  - by apply (firstPass_paired_loop guess answer 5).
  - rewrite seq_S, foldl_snoc. apply (markYellow_paired guess answer k); [lia| |].
    + apply secondPassInv_loop. lia.
    + apply IH. lia.
Qed.

#[local] Transparent getResultPattern.

Lemma getResultPattern_paired guess answer :
  ∃ st, getResultPattern guess answer = result st
        ∧ secondPassInv guess answer 5 st ∧ paired guess answer st.
Proof.
  eexists. split_and!.
  - reflexivity.
  - apply secondPassInv_final.
  - by apply (secondPass_paired_loop guess answer 5).
Qed.

#[global] Opaque getResultPattern.

Lemma guessCount_le_own guess (res : list color) (letter : ascii) :
  guessCount guess res (Some letter) ≤ wordCount guess (Some letter).
Proof.
  unfold guessCount, wordCount.
  rewrite <-(filter_zip_snd_length (λ l, Some l = Some letter)
               (seq 0 (length guess)) guess) by apply length_seq.
  fold (indexed guess).
  apply submseteq_length, NoDup_submseteq.
  - apply (NoDup_fmap_1 fst), indexed_filter_NoDup.
  - intros p [[? _] ?]%list_elem_of_filter. by apply list_elem_of_filter.
Qed.

Lemma filter_ext_Forall {A} (P1 P2 : A → Prop)
    `{!∀ x, Decision (P1 x), !∀ x, Decision (P2 x)} (l : list A) :
  Forall (λ x, P1 x ↔ P2 x) l → filter P1 l = filter P2 l.
Proof.
  induction 1 as [|x l Hx _ IH]; [done|].
  rewrite !filter_cons, IH. destruct (decide (P1 x)), (decide (P2 x)); tauto.
Qed.

(** X5. The duplicate-letter rule, exactly: for 5-letter words the
    number of positions of the guess that hold a letter and are marked
    green or yellow is the smaller of the letter's number of occurrences
    in the guess and in the answer. *)
Theorem marks_of_letter_exact (guess answer : list ascii) (letter : ascii) :
  length guess = 5 → length answer = 5 →
  guessCount guess (getResultPattern guess answer) (Some letter)
  = wordCount guess (Some letter) `min` wordCount answer (Some letter).
Proof.
  intros Hg Ha.
  pose proof (guessCount_le_wordCount guess answer letter) as Hle1.
  pose proof (guessCount_le_own guess (getResultPattern guess answer) letter) as Hle2.
  destruct (getResultPattern_paired guess answer)
    as (st & Hp & [Hlen _ _ Hgrey] & M & HM & Hf).
  rewrite Hp in *. clear Hp.
  destruct (decide (Forall (λ p, Some p.2 = Some letter → marked (result st) p.1)
                           (indexed guess))) as [Hall|Hsome].
  - (* every occurrence in the guess is marked *)
    assert (guessCount guess (result st) (Some letter) = wordCount guess (Some letter));
      [|lia].
    unfold guessCount, wordCount.
    rewrite <-(filter_zip_snd_length (λ l, Some l = Some letter)
                 (seq 0 (length guess)) guess) by apply length_seq.
    fold (indexed guess). f_equal. apply filter_ext_Forall.
    rewrite Forall_forall in Hall. apply Forall_forall. intros p Hp. split.
    + by intros [? _].
    + intros Hl. split; [done|]. apply isGreenOrYellow_marked. by apply Hall.
  - (* one occurrence is grey: every occurrence in the answer was consumed *)
    apply not_Forall_Exists in Hsome; [|apply _].
    apply Exists_exists in Hsome as ([i c] & Hi%indexed_lookup & Hnot). simpl in Hnot.
    assert (Some c = Some letter ∧ ¬ marked (result st) i) as [[= ->] Hunmarked].
    { destruct (decide (Some c = Some letter)); [|exfalso; apply Hnot; by intros ?].
      split; [done|]. intros ?. by apply Hnot. }
    assert (i < 5) as Hi5 by (apply lookup_lt_Some in Hi; lia).
    assert (result st !! i = Some grey) as Hi_grey.
    { destruct (lookup_lt_is_Some_2 (result st) i) as [x Hx].
      { rewrite Hlen. lia. }
      unfold marked in Hunmarked. rewrite Hx in *.
      destruct x; [exfalso; auto|exfalso; auto|done]. }
    assert (wordCount answer (Some letter) ≤ guessCount guess (result st) (Some letter));
      [|lia].
    unfold guessCount, wordCount.
    rewrite <-(filter_zip_snd_length (λ l, Some l = Some letter)
                 (seq 0 (length answer)) answer) by apply length_seq.
    fold (indexed answer).
    set (W := filter _ (indexed answer)). set (F := filter _ (indexed guess)).
    rewrite <-(length_fmap fst F), <-(length_fmap fst W).
    apply (length_le_injection (λ j i, M i j)).
    + apply indexed_filter_NoDup.
    + intros j j' i' H1 H2. by eapply Hf.
    + intros j ([j0 c] & -> & Hjc)%list_elem_of_fmap. simpl.
      apply list_elem_of_filter in Hjc as [[= ->] Hin]; simpl in *.
      apply indexed_lookup in Hin.
      destruct (m_used _ _ _ _ HM j0) as [i' Hi'].
      { apply (Hgrey i); [lia|done|apply lookup_lt_Some in Hin; lia|congruence]. }
      exists i'. split; [done|].
      destruct (m_sound _ _ _ _ HM _ _ Hi') as (Hi'5 & _ & Heq & Hmk & _).
      apply list_elem_of_fmap. exists (i', letter). split; [done|].
      apply list_elem_of_filter. split.
      * split; [done|]. by apply isGreenOrYellow_marked.
      * apply indexed_lookup. congruence.
Qed.

Lemma marks_of_letter_exact_witness :
  guessCount (str "EERIE") (getResultPattern (str "EERIE") (str "SPEED")) (Some "E"%char)
  = wordCount (str "EERIE") (Some "E"%char) `min` wordCount (str "SPEED") (Some "E"%char).
Proof. apply marks_of_letter_exact; reflexivity. Defined.

(** ** The compatibility check *)

Lemma isWordCompatible_positions word guess (res : list color) :
  isWordCompatible word guess res = true
  ↔ ∀ i, i < 5 →
      positionCompatible word guess res i = true
      ∧ yellowCountCompatible word guess res i = true.
Proof.
  unfold isWordCompatible. rewrite andb_true_iff, !forallb_forall. split.
  - intros [H1 H2] i Hi.
    split; [apply H1|apply H2]; apply list_elem_of_In, elem_of_seq; lia.
  - intros H. split; intros i [_ Hi]%list_elem_of_In%elem_of_seq; by apply H.
Qed.

Lemma isWordCompatible_own guess answer :
  length guess = 5 → length answer = 5 →
  isWordCompatible answer guess (getResultPattern guess answer) = true.
Proof.
  intros Hg Ha. apply isWordCompatible_positions. intros i Hi. split.
  - by apply positionCompatible_own.
  - by apply yellowCountCompatible_own.
Qed.

(** X6. Feedback that is green at all five positions leaves exactly the
    guess: a 5-letter word is compatible with it exactly when it is the
    guess. *)
Theorem all_green_keeps_only_guess (word guess : list ascii) :
  length word = 5 → length guess = 5 →
  isWordCompatible word guess [green; green; green; green; green] = true
  ↔ word = guess.
Proof.
  intros Hw Hg. rewrite isWordCompatible_positions. split.
  - intros H. apply list_eq. intros i. destruct (decide (i < 5)) as [Hi|Hi].
    + destruct (H i Hi) as [Hpos _]. unfold positionCompatible in Hpos.
      change [green; green; green; green; green] with (replicate 5 green) in Hpos.
      rewrite (lookup_replicate_2 5 green i) in Hpos by done.
      by apply bool_decide_eq_true in Hpos.
    + rewrite !lookup_ge_None_2 by lia. done.
  - intros -> i Hi. unfold positionCompatible, yellowCountCompatible.
    change [green; green; green; green; green] with (replicate 5 green).
    rewrite (lookup_replicate_2 5 green i) by done. split.
    + by apply bool_decide_eq_true.
    + by rewrite decide_False.
Qed.

Lemma all_green_keeps_only_guess_witness :
  isWordCompatible (str "TRACE") (str "TRACE") [green; green; green; green; green] = true
  ↔ str "TRACE" = str "TRACE".
Proof. apply all_green_keeps_only_guess; reflexivity. Defined.

(** X7. Feedback that is grey at all five positions removes every word
    that shares a letter with the 5-letter guess, and only those. *)
Theorem all_grey_keeps_disjoint_words (word guess : list ascii) :
  length guess = 5 →
  isWordCompatible word guess [grey; grey; grey; grey; grey] = true
  ↔ ∀ c, c ∈ guess → c ∉ word.
Proof.
  intros Hg. rewrite isWordCompatible_positions.
  assert (∀ i, i < 5 → ∀ c, guess !! i = Some c →
    positionCompatible word guess [grey; grey; grey; grey; grey] i
    = negb (bool_decide (c ∈ word))) as Hpos.
  { intros i Hi c Hc. unfold positionCompatible. rewrite Hc.
    change [grey; grey; grey; grey; grey] with (replicate 5 grey).
    rewrite (lookup_replicate_2 5 grey i) by done. reflexivity. }
  split.
  - intros H c [i Hi]%list_elem_of_lookup Hin.
    assert (i < 5) as Hi5 by (apply lookup_lt_Some in Hi; lia).
    destruct (H i Hi5) as [Hp _]. rewrite (Hpos i Hi5 c Hi) in Hp.
    apply negb_true_iff, bool_decide_eq_false in Hp. done.
  - intros H i Hi. destruct (lookup_lt_is_Some_2 guess i) as [c Hc]; [lia|]. split.
    + rewrite (Hpos i Hi c Hc). apply negb_true_iff, bool_decide_eq_false.
      apply H. by eapply list_elem_of_lookup_2.
    + unfold yellowCountCompatible.
      change [grey; grey; grey; grey; grey] with (replicate 5 grey).
      rewrite (lookup_replicate_2 5 grey i) by done. by rewrite decide_False.
Qed.

Lemma all_grey_keeps_disjoint_words_witness :
  isWordCompatible (str "MOULD") (str "CRANE") [grey; grey; grey; grey; grey] = true
  ↔ ∀ c, c ∈ str "CRANE" → c ∉ str "MOULD".
Proof. apply all_grey_keeps_disjoint_words; reflexivity. Defined.

(** X8. A guess whose feedback has a yellow is discarded itself: a
    guess is not compatible with a feedback that marks one of the five
    positions yellow. *)
Theorem yellow_discards_the_guess (guess : list ascii) (res : list color) (i : nat) :
  i < 5 → res !! i = Some yellow →
  isWordCompatible guess guess res = false.
Proof.
  intros Hi Hy. apply not_true_iff_false. rewrite isWordCompatible_positions.
  intros H. destruct (H i Hi) as [Hpos _]. unfold positionCompatible in Hpos.
  rewrite Hy in Hpos. apply andb_true_iff in Hpos as [Hne _].
  apply negb_true_iff, bool_decide_eq_false in Hne. done.
Qed.

Lemma yellow_discards_the_guess_witness :
  isWordCompatible (str "CRANE") (str "CRANE") [yellow; green; green; grey; green] = false.
Proof. apply (yellow_discards_the_guess _ _ 0); [lia|reflexivity]. Defined.

(** ** The session *)

Lemma setPage_eta s : setPage (λ _, page s) s = s.
Proof. by destruct s. Qed.

(** [updateRecommendations] writes to the page only. *)
Lemma updateRecommendations_page_only s :
  ∃ p, updateRecommendations s = setPage (λ _, p) s.
Proof.
  unfold updateRecommendations, showFinalAnswers, showTopRecommendations, setRecommendation.
  destruct (decide (length (possibleWords s) = 0)).
  { eexists. unfold setPage. reflexivity. }
  destruct (decide (length (possibleWords s) = 1)).
  - destruct (possibleWords s) as [|w [|? ?]].
    + exists (page s). by rewrite setPage_eta.
    + eexists. unfold setPage. reflexivity.
    + exists (page s). by rewrite setPage_eta.
  - destruct (findTopGuesses 8 s).
    + exists (page s). by rewrite setPage_eta.
    + eexists. unfold setPage. reflexivity.
Qed.

(** The state after [submitGuess], apart from the page. *)
Lemma submitGuess_accepted s :
  length (currentGuess s) = 5 → currentGuess s ∈ allWords s →
  ∃ p tested known excluded,
    submitGuess s
    = mkSolver (answerWords s) (allWords s)
        (filter (λ word, isWordCompatible word (currentGuess s) (currentResult s) = true)
                (possibleWords s))
        (guessHistory s ++ [(currentGuess s, currentResult s)])
        [] (replicate 5 grey) tested known excluded p
    ∧ (tested, known, excluded)
      = foldl (trackLetter (currentGuess s) (currentResult s))
              (testedLetters s, knownLetters s, excludedLetters s) (seq 0 5).
Proof.
  intros Hlen Hin. unfold submitGuess.
  cbn [clearErrorMessage setPage currentGuess currentResult allWords guessHistory].
  rewrite decide_False by (intros ?; done).
  rewrite decide_False by (intros ?; done).
  match goal with
  | |- context [updateRecommendations ?x] =>
      destruct (updateRecommendations_page_only x) as [p ->]
  end.
  unfold resetInput, filterWords, updateLetterTracking.
  change (testedLetters (setGuessHistory ?h (clearErrorMessage s)))
    with (testedLetters s).
  cbn [setGuessHistory clearErrorMessage setPage testedLetters knownLetters excludedLetters].
  destruct (foldl _ _ _) as [[tested known] excluded].
  eexists _, tested, known, excluded. split; [reflexivity|done].
Qed.

Lemma submitGuess_rejected s :
  ¬ (length (currentGuess s) = 5 ∧ currentGuess s ∈ allWords s) →
  ∃ p, submitGuess s = setPage (λ _, p) s.
Proof.
  intros Hrej. unfold submitGuess.
  cbn [clearErrorMessage setPage currentGuess allWords].
  destruct (decide (length (currentGuess s) ≠ 5)); [by eexists|].
  destruct (decide (currentGuess s ∉ allWords s)); [by eexists|].
  exfalso. apply Hrej. split; [lia|by apply dec_stable].
Qed.

Lemma play_cases s record :
  (accepted (allWords s) record
   ∧ ∃ p tested known excluded,
       play s record
       = mkSolver (answerWords s) (allWords s)
           (filter (λ word, compatibleWith word record) (possibleWords s))
           (guessHistory s ++ [record]) [] (replicate 5 grey) tested known excluded p
       ∧ (tested, known, excluded)
         = foldl (trackLetter record.1 record.2)
                 (testedLetters s, knownLetters s, excludedLetters s) (seq 0 5))
  ∨ (¬ accepted (allWords s) record
     ∧ ∃ p, play s record
            = mkSolver (answerWords s) (allWords s) (possibleWords s) (guessHistory s)
                record.1 record.2 (testedLetters s) (knownLetters s) (excludedLetters s) p).
Proof.
  destruct record as [guess res]. unfold play, accepted, compatibleWith. cbn [fst snd].
  destruct (decide (length guess = 5 ∧ guess ∈ allWords s)) as [[Hlen Hin]|Hrej].
  - left. split; [done|].
    destruct (submitGuess_accepted (setInput guess res s)) as (p & t & k & e & -> & Hfold);
      [done|done|].
    by exists p, t, k, e.
  - right. split; [done|].
    destruct (submitGuess_rejected (setInput guess res s)) as [p ->]; [done|].
    by exists p.
Qed.

Lemma filter_Forall_id {A} (P : A → Prop) `{!∀ x, Decision (P x)} (l : list A) :
  Forall P l → filter P l = l.
Proof.
  induction 1 as [|x l Hx _ IH]; [done|]. by rewrite filter_cons_True, IH.
Qed.

Lemma play_allWords s record : allWords (play s record) = allWords s.
Proof.
  destruct (play_cases s record) as [(_ & p & t & k & e & -> & _)|(_ & p & ->)]; done.
Qed.

Lemma play_possibleWords s record :
  possibleWords (play s record)
  = filter (λ w, accepted (allWords s) record → compatibleWith w record) (possibleWords s).
Proof.
  destruct (play_cases s record) as [(Hacc & p & t & k & e & -> & _)|(Hrej & p & ->)];
    cbn [possibleWords].
  - apply list_filter_iff. intros w. split; [done|auto].
  - symmetry. apply filter_Forall_id, Forall_forall. by intros w _ ?.
Qed.

(** The candidates after a session are the candidates before it that
    are compatible with every accepted record. *)
Lemma playAll_possibleWords records : ∀ s,
  possibleWords (playAll s records)
  = filter (λ w, Forall (λ r, accepted (allWords s) r → compatibleWith w r) records)
           (possibleWords s).
Proof.
  induction records as [|r records IH]; intros s.
  - cbn [playAll foldl]. symmetry. apply filter_Forall_id, Forall_forall. by intros w _.
  - unfold playAll in *. cbn [foldl]. rewrite IH, play_allWords, play_possibleWords.
    rewrite list_filter_filter. apply list_filter_iff. intros w.
    rewrite Forall_cons. tauto.
Qed.

Lemma playAll_allWords records : ∀ s, allWords (playAll s records) = allWords s.
Proof.
  induction records as [|r records IH]; intros s; [done|].
  unfold playAll in *. cbn [foldl]. by rewrite IH, play_allWords.
Qed.

Lemma playAll_answerWords records : ∀ s, answerWords (playAll s records) = answerWords s.
Proof.
  induction records as [|r records IH]; intros s; [done|].
  unfold playAll in *. cbn [foldl]. rewrite IH.
  destruct (play_cases s r) as [(_ & p & t & k & e & -> & _)|(_ & p & ->)]; done.
Qed.

Lemma playAll_guessHistory records : ∀ s,
  guessHistory (playAll s records)
  = guessHistory s ++ filter (accepted (allWords s)) records.
Proof.
  induction records as [|r records IH]; intros s.
  - cbn. by rewrite app_nil_r.
  - unfold playAll in *. cbn [foldl]. rewrite IH, play_allWords, filter_cons.
    destruct (play_cases s r) as [(Hacc & p & t & k & e & -> & _)|(Hrej & p & ->)];
      cbn [guessHistory].
    + rewrite decide_True by done. by rewrite <-(assoc_L (++)).
    + by rewrite decide_False.
Qed.

Lemma loaded_fresh answerWords allWords : fresh (loaded answerWords allWords).
Proof.
  unfold loaded, updateRecommendations, showFinalAnswers, fresh.
  cbn [updateWordsCount setPage possibleWords guessHistory].
  destruct (decide (length answerWords = 0)); [done|].
  destruct (decide (length answerWords = 1)).
  - by destruct answerWords as [|? [|? ?]].
  - by destruct (findTopGuesses 8 _).
Qed.

(** X9. The true answer is never lost: when every record of a session
    carries the evaluator's feedback for one 5-letter answer, an answer
    that is a candidate before the session is still one after it. *)
Theorem answer_survives_session (s : WordleSolver) (answer : list ascii)
    (records : list (list ascii * list color)) :
  length answer = 5 → truthful answer records →
  answer ∈ possibleWords s →
  answer ∈ possibleWords (playAll s records).
Proof.
  intros Ha Htrue Hin. rewrite playAll_possibleWords.
  apply list_elem_of_filter. split; [|done].
  unfold truthful in Htrue. rewrite Forall_forall in *.
  intros [guess res] Hr [Hlen _]. specialize (Htrue _ Hr). simpl in *. subst res.
  by apply isWordCompatible_own.
Qed.

Lemma answer_survives_session_witness :
  let words := [str "CRANE"; str "TRACE"; str "ABOUT"] in
  let records := [(str "ABOUT", getResultPattern (str "ABOUT") (str "TRACE"));
                  (str "CRANE", getResultPattern (str "CRANE") (str "TRACE"))] in
  str "TRACE" ∈ possibleWords (playAll (loaded words words) records).
Proof.
  intros words records.
  apply (answer_survives_session (loaded words words) (str "TRACE") records).
  - reflexivity.
  - repeat constructor.
  - assert (possibleWords (loaded words words) = words) as ->
      by (vm_compute; reflexivity).
    right. left.
Defined.

(** X10. The candidates are the answer words consistent with the
    history: after any sequence of submissions from a fresh state, a
    word is a candidate exactly when it is an answer word compatible
    with every record of the guess history. *)
Theorem candidates_consistent_with_history (s : WordleSolver)
    (records : list (list ascii * list color)) :
  fresh s →
  possibleWords (playAll s records)
  = filter (λ w, Forall (compatibleWith w) (guessHistory (playAll s records)))
           (answerWords (playAll s records)).
Proof.
  intros (Hposs & Hhist & _).
  rewrite playAll_possibleWords, playAll_guessHistory, playAll_answerWords, Hposs, Hhist.
  apply list_filter_iff. intros w. cbn [app].
  rewrite !Forall_forall. split.
  - intros H r [Hacc Hr]%list_elem_of_filter. by apply H.
  - intros H r Hr Hacc. apply H. by apply list_elem_of_filter.
Qed.

Lemma candidates_consistent_with_history_witness :
  let words := [str "CRANE"; str "TRACE"; str "ABOUT"] in
  let s := playAll (loaded words words) [(str "ABOUT", replicate 5 grey)] in
  possibleWords s = filter (λ w, Forall (compatibleWith w) (guessHistory s)) (answerWords s).
Proof.
  intros words s.
  apply (candidates_consistent_with_history (loaded words words)). apply loaded_fresh.
Defined.

(** X11. The order of the submissions does not matter for the
    candidates: two sessions that submit the same records in different
    orders end with the same candidate list. *)
Theorem candidates_independent_of_order (s : WordleSolver)
    (records records' : list (list ascii * list color)) :
  records ≡ₚ records' →
  possibleWords (playAll s records) = possibleWords (playAll s records').
Proof.
  intros Hperm. rewrite !playAll_possibleWords.
  apply list_filter_iff. intros w. by rewrite Hperm.
Qed.

Lemma candidates_independent_of_order_witness :
  let words := [str "CRANE"; str "TRACE"; str "ABOUT"] in
  let r1 := (str "ABOUT", getResultPattern (str "ABOUT") (str "TRACE")) in
  let r2 := (str "CRANE", getResultPattern (str "CRANE") (str "TRACE")) in
  possibleWords (playAll (loaded words words) [r1; r2])
  = possibleWords (playAll (loaded words words) [r2; r1]).
Proof.
  intros words r1 r2. apply candidates_independent_of_order. apply perm_swap.
Defined.

(** X12. The history is the list of the accepted records, in the order
    of submission: a session appends to the history exactly the records
    whose guess has five letters and is an allowed word. *)
Theorem history_is_accepted_records (s : WordleSolver)
    (records : list (list ascii * list color)) :
  guessHistory (playAll s records)
  = guessHistory s ++ filter (accepted (allWords s)) records.
Proof. apply playAll_guessHistory. Qed.

(** *** The letter sets *)

Lemma trackLetter_grows letters (res : list color) t k e i :
  let r := trackLetter letters res (t, k, e) i in
  r.1.1 = {[letters !! i]} ∪ t
  ∧ k ⊆ r.1.2 ∧ r.1.2 ⊆ {[letters !! i]} ∪ k
  ∧ e ⊆ r.2 ∧ r.2 ⊆ {[letters !! i]} ∪ e.
Proof.
  unfold trackLetter. destruct (isGreenOrYellow _); [set_solver|].
  destruct (decide _); [|set_solver].
  destruct (appearsElsewhere _ _ _ _); set_solver.
Qed.

Lemma trackLetters_grow letters (res : list color) positions : ∀ t k e,
  let r := foldl (trackLetter letters res) (t, k, e) positions in
  r.1.1 = t ∪ list_to_set ((letters !!.) <$> positions)
  ∧ k ⊆ r.1.2 ∧ r.1.2 ⊆ k ∪ list_to_set ((letters !!.) <$> positions)
  ∧ e ⊆ r.2 ∧ r.2 ⊆ e ∪ list_to_set ((letters !!.) <$> positions).
Proof.
  induction positions as [|i positions IH]; intros t k e.
  - cbn. set_solver.
  - cbn [foldl]. pose proof (trackLetter_grows letters res t k e i) as Hstep.
    destruct (trackLetter letters res (t, k, e) i) as [[t' k'] e'].
    specialize (IH t' k' e'). cbn zeta in *. cbn [fst snd] in Hstep.
    destruct Hstep as (-> & ? & ? & ? & ?).
    destruct IH as (-> & ? & ? & ? & ?). cbn [fmap list_fmap list_to_set].
    set_solver.
Qed.

Lemma reads_of_word (letters : list ascii) :
  length letters = 5 → (letters !!.) <$> seq 0 5 = Some <$> letters.
Proof. by destruct letters as [|? [|? [|? [|? [|? [|? ?]]]]]]. Qed.

Lemma play_letters s record :
  let t := list_to_set (Some <$> record.1) : gset (option ascii) in
  let s' := play s record in
  (testedLetters s'
   = if decide (accepted (allWords s) record) then testedLetters s ∪ t else testedLetters s)
  ∧ knownLetters s ⊆ knownLetters s'
  ∧ excludedLetters s ⊆ excludedLetters s'
  ∧ (knownLetters s ⊆ testedLetters s → knownLetters s' ⊆ testedLetters s')
  ∧ (excludedLetters s ⊆ testedLetters s → excludedLetters s' ⊆ testedLetters s').
Proof.
  intros t s'. subst t s'.
  destruct (play_cases s record)
    as [(Hacc & p & t & k & e & -> & Hfold)|(Hrej & p & ->)];
    cbn [testedLetters knownLetters excludedLetters].
  - rewrite decide_True by done.
    pose proof (trackLetters_grow record.1 record.2 (seq 0 5)
                  (testedLetters s) (knownLetters s) (excludedLetters s)) as Hg.
    cbn zeta in Hg. rewrite <-Hfold in Hg. cbn [fst snd] in Hg.
    rewrite reads_of_word in Hg by apply Hacc.
    destruct Hg as (-> & ? & ? & ? & ?). set_solver.
  - rewrite decide_False by done. set_solver.
Qed.

(** X13. The letter sets only grow during a session, and Known and
    Excluded stay inside Tested: no submission removes a letter from a
    set, and from a state in which Known and Excluded are subsets of
    Tested every later state has them so. *)
Theorem letter_sets_grow_within_tested (s : WordleSolver)
    (records : list (list ascii * list color)) :
  knownLetters s ⊆ testedLetters s → excludedLetters s ⊆ testedLetters s →
  let s' := playAll s records in
  testedLetters s ⊆ testedLetters s'
  ∧ knownLetters s ⊆ knownLetters s' ∧ excludedLetters s ⊆ excludedLetters s'
  ∧ knownLetters s' ⊆ testedLetters s' ∧ excludedLetters s' ⊆ testedLetters s'.
Proof.
  revert s. induction records as [|r records IH]; intros s Hk He; [done|].
  unfold playAll in *. cbn [foldl].
  destruct (play_letters s r) as (Ht & Hk' & He' & Hkt & Het).
  assert (testedLetters s ⊆ testedLetters (play s r)) as Hts.
  { rewrite Ht. destruct (decide _); [apply union_subseteq_l|done]. }
  destruct (IH (play s r)) as (? & ? & ? & ? & ?); [by apply Hkt|by apply Het|].
  cbn zeta. split_and!; [by etrans|by etrans|by etrans|done|done].
Qed.

Lemma letter_sets_grow_within_tested_witness :
  let words := [str "CRANE"; str "TRACE"; str "ABOUT"] in
  let s := loaded words words in
  let s' := playAll s [(str "ABOUT", replicate 5 grey); (str "ABOUT", replicate 5 green)] in
  testedLetters s ⊆ testedLetters s'
  ∧ knownLetters s ⊆ knownLetters s' ∧ excludedLetters s ⊆ excludedLetters s'
  ∧ knownLetters s' ⊆ testedLetters s' ∧ excludedLetters s' ⊆ testedLetters s'.
Proof.
  intros words s s'. subst s'.
  apply (letter_sets_grow_within_tested s).
  - subst s. rewrite (proj1 (loaded_letters words words)). apply empty_subseteq.
  - subst s. rewrite (proj2 (loaded_letters words words)). apply empty_subseteq.
Defined.

(** X14. An accepted submission adds exactly the letters of the guess to
    Tested; a rejected one leaves Tested as it was. *)
Theorem tested_after_submission (s : WordleSolver) (record : list ascii * list color) :
  testedLetters (play s record)
  = if decide (accepted (allWords s) record)
    then testedLetters s ∪ list_to_set (Some <$> record.1)
    else testedLetters s.
Proof. apply (play_letters s record). Qed.

Lemma trackLetter_marks guess (res : list color) t k e i :
  (∀ x, x ∈ k → ∃ i, guess !! i = x ∧ marked res i) →
  (∀ x, x ∈ e → ∀ i, guess !! i = x → ¬ marked res i) →
  let r := trackLetter guess res (t, k, e) i in
  (∀ x, x ∈ r.1.2 → ∃ i, guess !! i = x ∧ marked res i)
  ∧ (∀ x, x ∈ r.2 → ∀ i, guess !! i = x → ¬ marked res i).
Proof.
  intros Hkn Hex. unfold trackLetter.
  destruct (isGreenOrYellow (res !! i)) eqn:Hgy; cbn zeta; cbn [fst snd].
  - split; [|done].
    intros x [->%elem_of_singleton|?]%elem_of_union; [|by apply Hkn].
    exists i. split; [done|]. by apply isGreenOrYellow_marked.
  - destruct (decide (res !! i = Some grey)) as [Hgrey|_]; [|done].
    destruct (appearsElsewhere guess res i (guess !! i)) eqn:Hel; [done|].
    split; [done|]. cbn [fst snd].
    intros x [->%elem_of_singleton|?]%elem_of_union; [|by apply Hex].
    intros i' Hi' Hmk. destruct (decide (i' = i)) as [->|Hne].
    + destruct Hmk; congruence.
    + by rewrite (appearsElsewhere_true guess res i i') in Hel.
Qed.

(** X15. One record never puts a letter in both sets, whatever the
    feedback is: starting from empty Known and Excluded sets,
    [updateLetterTracking] leaves them disjoint. *)
Theorem one_record_keeps_disjoint (s : WordleSolver) (guess : list ascii)
    (res : list color) :
  knownLetters s = ∅ → excludedLetters s = ∅ →
  knownLetters (updateLetterTracking guess res s)
  ## excludedLetters (updateLetterTracking guess res s).
Proof.
  intros Hk He. unfold updateLetterTracking. rewrite Hk, He.
  assert (∀ positions sets,
    (∀ x, x ∈ sets.1.2 → ∃ i, guess !! i = x ∧ marked res i) →
    (∀ x, x ∈ sets.2 → ∀ i, guess !! i = x → ¬ marked res i) →
    let r := foldl (trackLetter guess res) sets positions in
    (∀ x, x ∈ r.1.2 → ∃ i, guess !! i = x ∧ marked res i)
    ∧ (∀ x, x ∈ r.2 → ∀ i, guess !! i = x → ¬ marked res i)) as Hloop.
  { induction positions as [|i positions IH]; intros [[t k] e] Hkn Hex; [done|].
    cbn [foldl].
    destruct (trackLetter_marks guess res t k e i Hkn Hex) as [Hkn' Hex'].
    by apply IH. }
  specialize (Hloop (seq 0 5) (testedLetters s, ∅, ∅)).
  destruct (foldl _ _ _) as [[t k] e]. cbn [knownLetters excludedLetters setLetters].
  destruct Hloop as [Hkn Hex].
  - intros x Hx. by apply not_elem_of_empty in Hx.
  - intros x Hx. by apply not_elem_of_empty in Hx.
  - intros x Hx1 Hx2. destruct (Hkn x Hx1) as (i & Hi & Hmk). by apply (Hex x Hx2 i).
Qed.

Lemma one_record_keeps_disjoint_witness :
  let s := loaded [str "SPEED"; str "ERASE"] [str "SPEED"; str "ERASE"] in
  knownLetters (updateLetterTracking (str "SPEED") [grey; grey; yellow; grey; grey] s)
  ## excludedLetters (updateLetterTracking (str "SPEED") [grey; grey; yellow; grey; grey] s).
Proof.
  intros s. apply one_record_keeps_disjoint.
  - exact (proj1 (loaded_letters _ _)).
  - exact (proj2 (loaded_letters _ _)).
Defined.

(** *** Reset *)

(** The recommendations do not depend on what the page shows. *)
Lemma findTopGuesses_setPage f n s : findTopGuesses n (setPage f s) = findTopGuesses n s.
Proof. reflexivity. Qed.

Lemma resetGame_fields s :
  ∃ p, resetGame s
       = mkSolver (answerWords s) (allWords s) (answerWords s) [] [] (replicate 5 grey)
           ∅ ∅ ∅ p
       ∧ wordsCount p = length (answerWords s).
Proof.
  unfold resetGame.
  match goal with
  | |- context [updateRecommendations ?x] =>
      destruct (updateRecommendations_page_only x) as [p ->]
  end.
  eexists. split; reflexivity.
Qed.

(** What [updateRecommendations] writes on the page of a state without
    history is fixed by the word lists; the fields it does not write
    keep what the page showed. *)
Lemma updateRecommendations_no_history aw al :
  ∃ (ow : option (list ascii)) (orr : option reasonText)
    (otr : option (list recommendation)) (ofa : option (option (list ascii))),
  ∀ q, updateRecommendations
         (mkSolver aw al aw [] [] (replicate 5 grey) ∅ ∅ ∅ q)
       = mkSolver aw al aw [] [] (replicate 5 grey) ∅ ∅ ∅
           (mkPage (wordsCount q) (default (recommendedWord q) ow)
              (default (recommendationReason q) orr)
              (default (topRecommendations q) otr)
              (default (finalAnswers q) ofa) (errorMessage q)).
Proof.
  unfold updateRecommendations, showFinalAnswers, showTopRecommendations, setRecommendation.
  cbn [possibleWords guessHistory].
  destruct (decide (length aw = 0)) as [H0|H0].
  { exists (Some (str "NO WORDS")), (Some NoWordsMatch), None, None. by intros []. }
  destruct (decide (length aw = 1)) as [H1|H1].
  { destruct aw as [|w [|? ?]]; try done.
    exists (Some w), (Some OnlyPossibleAnswer), None, (Some (Some w)). by intros []. }
  set (base := mkSolver aw al aw [] [] (replicate 5 grey) ∅ ∅ ∅
                 (mkPage 0 [] NoReason [] None None)).
  assert (∀ q, findTopGuesses 8
                 (mkSolver aw al aw [] [] (replicate 5 grey) ∅ ∅ ∅ q)
               = findTopGuesses 8 base) as Htop by reflexivity.
  destruct (findTopGuesses 8 base) as [|top tops] eqn:Hbase.
  - exists None, None, None, None. intros q. rewrite Htop. by destruct q.
  - exists (Some (word top)), (Some (BestExpected (expectedRemaining top))),
      (Some (top :: tops)), None.
    intros q. rewrite Htop. by destruct q.
Qed.

(** X16. Reset restores a fresh session whatever happened before: the
    candidates are the full answer list again, the history and the three
    letter sets are empty, the input is cleared, the word lists are kept;
    and resetting twice is the same as resetting once. *)
Theorem reset_restores_fresh_state (s : WordleSolver) :
  fresh (resetGame s)
  ∧ possibleWords (resetGame s) = answerWords s
  ∧ answerWords (resetGame s) = answerWords s
  ∧ allWords (resetGame s) = allWords s
  ∧ currentGuess (resetGame s) = []
  ∧ currentResult (resetGame s) = replicate 5 grey
  ∧ resetGame (resetGame s) = resetGame s.
Proof.
  split_and!; try (destruct (resetGame_fields s) as (p & -> & Hp); by repeat split).
  destruct s as [aw al pw gh cg cr tl kl el pg].
  destruct (updateRecommendations_no_history aw al) as (ow & orr & otr & ofa & Hwrite).
  assert (∀ pw gh cg cr tl kl el pg,
    resetGame (mkSolver aw al pw gh cg cr tl kl el pg)
    = mkSolver aw al aw [] [] (replicate 5 grey) ∅ ∅ ∅
        (mkPage (length aw) (default (recommendedWord pg) ow)
           (default (recommendationReason pg) orr)
           (default (topRecommendations pg) otr) None None)) as Hreset.
  { intros. unfold resetGame, resetInput, setPossibleWords, setGuessHistory, setLetters,
      setInput, clearErrorMessage, setPage.
    cbn [answerWords allWords possibleWords guessHistory currentGuess
         currentResult testedLetters knownLetters excludedLetters page].
    rewrite Hwrite. reflexivity. }
  rewrite !Hreset.
  cbn [recommendedWord recommendationReason topRecommendations].
  by destruct ow, orr, otr.
Qed.

(** *** The displayed count *)

Lemma updateRecommendations_wordsCount s :
  wordsCount (page (updateRecommendations s)) = wordsCount (page s).
Proof.
  unfold updateRecommendations, showFinalAnswers.
  destruct (decide (length (possibleWords s) = 0)); [done|].
  destruct (decide (length (possibleWords s) = 1)).
  - by destruct (possibleWords s) as [|? [|? ?]].
  - by destruct (findTopGuesses 8 s).
Qed.

Lemma submitGuess_wordsCount s :
  wordsCount (page s) = length (possibleWords s) →
  wordsCount (page (submitGuess s)) = length (possibleWords (submitGuess s)).
Proof.
  intros Hcount. unfold submitGuess.
  cbn [clearErrorMessage setPage currentGuess currentResult allWords guessHistory].
  destruct (decide (length (currentGuess s) ≠ 5)); [done|].
  destruct (decide (currentGuess s ∉ allWords s)); [done|].
  unfold resetInput.
  cbn [clearErrorMessage setInput setPage page possibleWords wordsCount].
  rewrite updateRecommendations_wordsCount, updateRecommendations_possibleWords.
  reflexivity.
Qed.

(** X17. The page always shows the number of candidates: if the
    displayed count agrees with the candidate list before a session, it
    agrees after every sequence of submissions, accepted or rejected. *)
Theorem displayed_count_is_candidate_count (s : WordleSolver)
    (records : list (list ascii * list color)) :
  wordsCount (page s) = length (possibleWords s) →
  wordsCount (page (playAll s records)) = length (possibleWords (playAll s records)).
Proof.
  revert s. induction records as [|r records IH]; intros s Hs; [done|].
  unfold playAll in *. cbn [foldl]. apply IH. unfold play.
  by apply submitGuess_wordsCount.
Qed.

Lemma displayed_count_is_candidate_count_witness :
  let words := [str "CRANE"; str "TRACE"; str "ABOUT"] in
  let s := playAll (loaded words words)
             [(str "CRAN", replicate 5 grey); (str "ABOUT", replicate 5 grey)] in
  wordsCount (page s) = length (possibleWords s).
Proof.
  intros words s. apply displayed_count_is_candidate_count. apply loaded_fresh.
Defined.

(** ** The ranking *)

(** The comparator sends [x] behind [y] exactly when the score of [x]
    is below that of [y]. *)
Lemma insertByScore_cons x y l :
  insertByScore x (y :: l)
  = if decide (score x < score y)%Qc then y :: insertByScore x l else x :: y :: l.
Proof.
  cbn [insertByScore]. unfold compareScore.
  destruct (decide (0 < _)%Qc) as [H|H]; rewrite jsSub_pos in H.
  - by rewrite decide_True.
  - by rewrite decide_False.
Qed.

Lemma insertByScore_Permutation x l : insertByScore x l ≡ₚ x :: l.
Proof.
  induction l as [|y l IH]; [done|]. rewrite insertByScore_cons.
  destruct (decide (score x < score y)%Qc); [|done].
  rewrite IH. apply perm_swap.
Qed.

Lemma sortByScore_Permutation l : sortByScore l ≡ₚ l.
Proof.
  induction l as [|x l IH]; [done|].
  unfold sortByScore in *. cbn [foldr]. by rewrite insertByScore_Permutation, IH.
Qed.

Lemma insertByScore_sorted x l :
  StronglySorted (λ a b, score b ≤ score a)%Qc l →
  StronglySorted (λ a b, score b ≤ score a)%Qc (insertByScore x l).
Proof.
  induction 1 as [|y l Hl IH Hy]; [repeat constructor|]. rewrite insertByScore_cons.
  - destruct (decide (score x < score y)%Qc) as [Hlt|Hge].
    + constructor; [done|].
      rewrite Forall_forall in *. intros z Hz.
      rewrite insertByScore_Permutation in Hz. apply elem_of_cons in Hz as [->|Hz].
      * by apply Qclt_le_weak.
      * by apply Hy.
    + apply Qcnot_lt_le in Hge. constructor; [by constructor|].
      constructor; [done|].
      rewrite Forall_forall in *. intros z Hz. etrans; [by apply Hy|done].
Qed.

Lemma sortByScore_sorted l :
  StronglySorted (λ a b, score b ≤ score a)%Qc (sortByScore l).
Proof.
  induction l as [|x l IH]; [constructor|].
  unfold sortByScore in *. cbn [foldr]. by apply insertByScore_sorted.
Qed.

Lemma insertByScore_stable q x l :
  filter (λ r, score r = q) (insertByScore x l)
  = filter (λ r, score r = q) (x :: l).
Proof.
  induction l as [|y l IH]; [done|]. rewrite insertByScore_cons.
  destruct (decide (score x < score y)%Qc) as [Hlt|Hge]; [|done].
  rewrite (filter_cons _ y), IH, !filter_cons.
  destruct (decide (score y = q)) as [Hy|Hy]; [|done].
  destruct (decide (score x = q)) as [Hx|Hx]; [|done].
  exfalso. rewrite Hx, Hy in Hlt. by apply Qclt_not_eq in Hlt.
Qed.

(** X18. The ranking is a stable descending sort by score: the sorted
    list has the same entries, no entry is followed by one of a higher
    score, and entries of equal score keep the order they had. *)
Theorem sortByScore_stable_descending (l : list recommendation) :
  sortByScore l ≡ₚ l
  ∧ StronglySorted (λ a b, score b ≤ score a)%Qc (sortByScore l)
  ∧ ∀ q, filter (λ r, score r = q) (sortByScore l) = filter (λ r, score r = q) l.
Proof.
  split; [apply sortByScore_Permutation|]. split; [apply sortByScore_sorted|].
  intros q. induction l as [|x l IH]; [done|].
  unfold sortByScore in *. cbn [foldr].
  rewrite insertByScore_stable. by rewrite !filter_cons, IH.
Qed.

Lemma sorted_head_max (top : recommendation) tops r :
  StronglySorted (λ a b, score b ≤ score a)%Qc (top :: tops) →
  r ∈ top :: tops → (score r ≤ score top)%Qc.
Proof.
  intros Hs [->|Hr]%elem_of_cons; [done|].
  apply StronglySorted_inv in Hs as [_ Hall].
  rewrite Forall_forall in Hall. by apply Hall.
Qed.

(** The pool that [findTopGuesses] scores when more than two candidates
    remain. *)
Lemma findTopGuesses_many n s :
  2 < length (possibleWords s) →
  findTopGuesses n s
  = take n (sortByScore
      (detailedGuess s <$> (if decide (50 < length (possibleWords s))
                            then take 2000 (allWords s) else allWords s))).
Proof.
  intros Hlen. unfold findTopGuesses.
  destruct (possibleWords s) as [|w1 [|w2 [|w3 ws]]] eqn:Hp; cbn [length] in *; try lia.
  destruct (decide (50 < _)); [done|]. rewrite decide_True by lia. done.
Qed.

(** X19. With more than two candidates the recommendations are the best
    of the pool: the pool is the allowed vocabulary (its first 2000
    words when more than 50 candidates remain); the list has as many
    entries as requested, or as the pool has if that is less; every
    entry carries the score and the metrics of its word; and the first
    entry has the highest score of the whole pool. *)
Theorem recommendations_are_best_of_pool (n : nat) (s : WordleSolver) :
  2 < length (possibleWords s) →
  let pool := if decide (50 < length (possibleWords s))
              then take 2000 (allWords s) else allWords s in
  length (findTopGuesses n s) = n `min` length pool
  ∧ (∀ r, r ∈ findTopGuesses n s → word r ∈ pool ∧ r = detailedGuess s (word r))
  ∧ (∀ top, head (findTopGuesses n s) = Some top →
       ∀ w, w ∈ pool → (calculateExpectedValue w s ≤ score top)%Qc).
Proof.
  intros Hlen pool. rewrite (findTopGuesses_many n s Hlen). fold pool.
  pose proof (sortByScore_Permutation (detailedGuess s <$> pool)) as Hperm.
  pose proof (sortByScore_sorted (detailedGuess s <$> pool)) as Hsorted.
  split_and!.
  - rewrite length_take, Hperm, length_fmap. done.
  - intros r Hr%elem_of_take. destruct Hr as (i & Hr & _).
    apply list_elem_of_lookup_2 in Hr. rewrite Hperm in Hr.
    apply list_elem_of_fmap in Hr as (w & -> & Hw). done.
  - intros top Htop w Hw.
    destruct (sortByScore (detailedGuess s <$> pool)) as [|t ts] eqn:Hsort.
    { by rewrite take_nil in Htop. }
    destruct n as [|n]; [done|]. cbn in Htop. simplify_eq.
    change (calculateExpectedValue w s) with (score (detailedGuess s w)).
    apply (sorted_head_max top ts); [done|].
    rewrite Hperm. by apply list_elem_of_fmap_2.
Qed.

Lemma recommendations_are_best_of_pool_witness :
  let words := [str "ABOUT"; str "CRANE"; str "CRAZE"] in
  let s := loaded words words in
  length (findTopGuesses 2 s) = 2 `min` length (allWords s)
  ∧ (∀ r, r ∈ findTopGuesses 2 s → word r ∈ allWords s ∧ r = detailedGuess s (word r))
  ∧ (∀ top, head (findTopGuesses 2 s) = Some top →
       ∀ w, w ∈ allWords s → (calculateExpectedValue w s ≤ score top)%Qc).
Proof.
  intros words s.
  apply (recommendations_are_best_of_pool 2 s). vm_compute. lia.
Defined.

(** X20. Every recommendation can be submitted: when the candidates are
    allowed words and the allowed words have five letters, each word
    that [findTopGuesses] returns passes both checks of [submitGuess]. *)
Theorem recommendations_are_accepted (n : nat) (s : WordleSolver)
    (res : list color) (r : recommendation) :
  Forall (λ w, length w = 5) (allWords s) →
  (∀ w, w ∈ possibleWords s → w ∈ allWords s) →
  r ∈ findTopGuesses n s →
  accepted (allWords s) (word r, res).
Proof.
  intros Hfive Hsub Hr.
  assert (word r ∈ allWords s) as Hin; [|split; [|done]].
  2:{ rewrite Forall_forall in Hfive. by apply Hfive. }
  unfold findTopGuesses in Hr.
  assert (∀ pool, (∀ w, w ∈ pool → w ∈ allWords s) →
     r ∈ take n (sortByScore (detailedGuess s <$> pool)) → word r ∈ allWords s) as Hrank.
  { intros pool Hpool (i & Hi & _)%elem_of_take. apply list_elem_of_lookup_2 in Hi.
    rewrite sortByScore_Permutation in Hi.
    apply list_elem_of_fmap in Hi as (w & -> & Hw). by apply Hpool. }
  destruct (possibleWords s) as [|w1 [|w2 ws]] eqn:Hp.
  - by apply elem_of_nil in Hr.
  - apply list_elem_of_singleton in Hr as ->. apply Hsub. left.
  - destruct (decide (50 < _)).
    { eapply Hrank; [|exact Hr]. intros w (i & Hw & _)%elem_of_take.
      by eapply list_elem_of_lookup_2. }
    destruct (decide (2 < _)); [by apply (Hrank (allWords s))|].
    destruct (decide (length (findDistinguishingWords s) = 0)).
    + apply list_elem_of_fmap in Hr as (w & -> & Hw). by apply Hsub.
    + apply (Hrank (findDistinguishingWords s)); [|done].
      unfold findDistinguishingWords. rewrite Hp.
      destruct ws as [|? ?]; [|done]. by intros w [_ ?]%list_elem_of_filter.
Qed.

Lemma recommendations_are_accepted_witness :
  let s := loaded [str "TRACE"] [str "TRACE"; str "CRANE"] in
  accepted (allWords s) (word (answerEntry (str "TRACE")), replicate 5 grey).
Proof.
  intros s.
  assert (allWords s = [str "TRACE"; str "CRANE"]) as Hall by (vm_compute; reflexivity).
  assert (possibleWords s = [str "TRACE"]) as Hposs by (vm_compute; reflexivity).
  apply (recommendations_are_accepted 8 s (replicate 5 grey)).
  - rewrite Hall. repeat constructor.
  - rewrite Hall, Hposs. intros w ->%list_elem_of_singleton. left.
  - unfold findTopGuesses. rewrite Hposs. left.
Defined.

(** ** The scorer *)

Lemma groups_concat_Permutation {A B} `{EqDecision B} (f : A → B) (l : list A) :
  ∀ ps, NoDup ps → (∀ a, a ∈ l → f a ∈ ps) →
  concat ((λ p, filter (λ a, f a = p) l) <$> ps) ≡ₚ l.
Proof.
  induction l as [|a l IH]; intros ps Hnd Hin.
  - clear. induction ps as [|p ps IH]; [done|]. cbn. by rewrite IH.
  - assert (∀ qs, NoDup qs →
      concat ((λ p, filter (λ a', f a' = p) (a :: l)) <$> qs)
      ≡ₚ (if decide (f a ∈ qs) then [a] else [])
         ++ concat ((λ p, filter (λ a', f a' = p) l) <$> qs)) as Hcons.
    { induction 1 as [|q qs Hq Hqs IHq]; [done|].
      cbn [fmap list_fmap concat]. rewrite IHq, filter_cons.
      destruct (decide (f a = q)) as [<-|Hne].
      - destruct (decide (f a ∈ qs)) as [?|_]; [done|].
        destruct (decide (f a ∈ f a :: qs)) as [_|Hn]; [done|].
        exfalso. apply Hn. left.
      - destruct (decide (f a ∈ qs)) as [Hfa|Hfa].
        + destruct (decide (f a ∈ q :: qs)) as [_|Hn]; [|exfalso; apply Hn; by right].
          cbn [app]. by rewrite Permutation_middle.
        + destruct (decide (f a ∈ q :: qs)) as [[?|?]%elem_of_cons|_]; done. }
    rewrite (Hcons ps Hnd). rewrite decide_True by (apply Hin; left).
    cbn [app]. f_equiv. apply IH; [done|]. intros a' Ha'. apply Hin. by right.
Qed.

(** X21. The groups of the scorer partition the candidates: every
    candidate is in exactly one group (the groups put together are the
    candidates, up to order), no group is empty, the keys are distinct
    and every member of a group has the pattern of the group's key. *)
Theorem groups_partition_candidates (guess : list ascii) (candidates : list (list ascii)) :
  concat (snd <$> groupByPattern guess candidates) ≡ₚ candidates
  ∧ NoDup (fst <$> groupByPattern guess candidates)
  ∧ ∀ key group, (key, group) ∈ groupByPattern guess candidates →
      group ≠ []
      ∧ ∀ answer, answer ∈ group ↔
          answer ∈ candidates ∧ join (getResultPattern guess answer) = key.
Proof.
  split_and!.
  - rewrite (groupByPattern_Permutation guess candidates), <-list_fmap_compose.
    apply (groups_concat_Permutation (getResultPattern guess));
      [apply NoDup_remove_dups|].
    intros a Ha. apply elem_of_remove_dups. by apply list_elem_of_fmap_2.
  - apply (groupByPattern_groupsOf guess candidates).
  - intros key group Hin.
    destruct (groupByPattern_groupsOf guess candidates) as [Hnd Hget].
    apply (mapGet_elem_of _ _ _ Hnd) in Hin. rewrite Hget in Hin.
    destruct (filter _ candidates) as [|a l] eqn:Hf; [done|]. simplify_eq.
    split; [done|]. intros answer. rewrite <-Hf, list_elem_of_filter. tauto.
Qed.

(** *** The terms of the expected remaining sum, as computed *)

Lemma term_nonneg (g n : nat) : 0 < n → (0 <= num g ⊘ num n ⊗ num g)%Q.
Proof.
  intros Hn. unfold jsMul. apply binary64_nonneg. rewrite Qcmult_val.
  apply Qmult_le_0_compat; [|apply inject_nat_nonneg].
  unfold jsDiv. apply binary64_nonneg. rewrite Qcdiv_val.
  apply Qle_shift_div_l;
    [change (inject_Z 0 < inject_Z (Z.of_nat n))%Q; rewrite <-Zlt_Qlt; lia|].
  rewrite Qmult_0_l. apply inject_nat_nonneg.
Qed.

(** One term [(g / n) * g] of the expected remaining sum, as computed. *)
Lemma term_bounds (g n : nat) :
  0 < g ≤ n → (Z.of_nat n < 2 ^ 53)%Z →
  let G := inject_Z (Z.of_nat g) in
  let N := inject_Z (Z.of_nat n) in
  ((1 - (2 # 9007199254740992)) * (G * G / N) <= num g ⊘ num n ⊗ num g)%Q
  ∧ (num g ⊘ num n ⊗ num g <= G)%Q.
Proof.
  intros [Hg Hgn] Hn G N.
  assert (1 <= G)%Q as HG by (subst G; rewrite <-(Zle_Qle 1); lia).
  assert (G <= N)%Q as HGN by (subst G N; rewrite <-Zle_Qle; lia).
  unfold jsMul, jsDiv.
  set (r := (num g / num n)%Qc).
  assert (r == G / N)%Q as Hr by (subst r; by rewrite Qcdiv_val).
  assert (0 <= r)%Q as Hr0.
  { rewrite Hr. apply Qle_shift_div_l; lra. }
  assert (r <= 1)%Q as Hr1.
  { rewrite Hr. apply Qle_shift_div_r; lra. }
  pose proof (binary64_lower r Hr0) as Hq1.
  assert (binary64 r <= 1)%Q as Hq2.
  { change 1%Q with (inject_Z (Z.of_nat 1)). apply binary64_le_num; [done|done|done]. }
  pose proof (binary64_nonneg r Hr0) as Hq0.
  set (q := binary64 r) in *.
  assert ((q * num g)%Qc == q * G)%Q as Hprod by (by rewrite Qcmult_val).
  assert (0 <= (q * num g)%Qc)%Q as Hp0
    by (rewrite Hprod; apply Qmult_le_0_compat; lra).
  pose proof (binary64_lower _ Hp0) as Ht1.
  assert (binary64 (q * num g) <= G)%Q as Ht2.
  { apply binary64_le_num; [lia|done|]. rewrite Hprod.
    apply Qle_trans with (1 * G)%Q; [apply Qmult_le_compat_r; lra|]. subst G. lra. }
  split; [|done].
  rewrite Hprod in Ht1.
  assert (G * G / N == r * G)%Q as -> by (rewrite Hr; field; lra).
  set (t := this (binary64 (q * num g))) in *. clearbody t.
  set (qq := this q) in *. clearbody qq. set (rr := this r) in *. clearbody rr. clear Hr.
  nra.
Qed.

(** A term of a group that is not all the candidates is at least one
    half below the size of the group. *)
Lemma term_below (g n : nat) :
  0 < g < n → (Z.of_nat n < 2 ^ 32)%Z →
  (num g ⊘ num n ⊗ num g <= inject_Z (2 * Z.of_nat g - 1) / 2)%Q.
Proof.
  intros [Hg Hgn] Hn.
  destruct (decide (n = 2)) as [->|Hn2].
  { assert (g = 1) as -> by lia. by vm_compute. }
  assert (1 <= inject_Z (Z.of_nat g))%Q as HG by (rewrite <-(Zle_Qle 1); lia).
  assert (inject_Z (Z.of_nat g) + 1 <= inject_Z (Z.of_nat n))%Q as HGN.
  { change 1%Q with (inject_Z 1). rewrite <-inject_Z_plus, <-Zle_Qle. lia. }
  assert (3 <= inject_Z (Z.of_nat n))%Q as HN3 by (rewrite <-(Zle_Qle 3); lia).
  assert (inject_Z (Z.of_nat n) <= 4294967296)%Q as HN32
    by (rewrite <-(Zle_Qle _ 4294967296); lia).
  unfold jsMul, jsDiv.
  set (r := (num g / num n)%Qc).
  assert (r == inject_Z (Z.of_nat g) / inject_Z (Z.of_nat n))%Q as Hr
    by (subst r; by rewrite Qcdiv_val).
  assert (0 <= r)%Q as Hr0 by (rewrite Hr; apply Qle_shift_div_l; lra).
  pose proof (binary64_upper r Hr0) as Hq1.
  pose proof (binary64_nonneg r Hr0) as Hq0.
  set (q := binary64 r) in *.
  assert ((q * num g)%Qc == q * inject_Z (Z.of_nat g))%Q as Hprod by (by rewrite Qcmult_val).
  apply binary64_le_half; [lia|rewrite Hprod; apply Qmult_le_0_compat; lra|].
  rewrite Hprod. unfold Z.sub. rewrite inject_Z_plus, inject_Z_mult.
  change (inject_Z 2) with 2%Q. change (inject_Z (- (1))) with (-1)%Q.
  set (G := inject_Z (Z.of_nat g)) in *. set (N := inject_Z (Z.of_nat n)) in *.
  clearbody G N. set (qq := this q) in *. clearbody qq q.
  assert (r * N == G)%Q as HrN by (rewrite Hr; field; lra).
  set (rr := this r) in *. clearbody rr r.
  assert (0 <= (G - 1) * (N - G - 1))%Q as Hgap by (apply Qmult_le_0_compat; lra).
  assert (rr * G * N == G * G)%Q as Hsq
    by (transitivity (rr * N * G)%Q; [ring|by rewrite HrN]).
  assert (rr * G * N <= (G - 1) * N + 1)%Q as Hexact by (rewrite Hsq; lra).
  assert (qq * G * N <= (rr + rr * (1 # 9007199254740992)) * G * N)%Q as Hq.
  { apply Qmult_le_compat_r; [|lra]. apply Qmult_le_compat_r; lra. }
  assert (G * G <= N * N)%Q as HGG by (apply Qmult_le_compat_nonneg; lra).
  assert (N * N <= 4294967296 * N)%Q as HNN by (apply Qmult_le_compat_r; lra).
  apply (Qmult_le_r _ _ N); [lra|].
  assert ((rr + rr * (1 # 9007199254740992)) * G * N
          == G * G + G * G * (1 # 9007199254740992))%Q as Hexp
    by (rewrite <-Hsq; ring).
  rewrite Hexp in Hq.
  assert ((2 * G + -1) / 2 * N == G * N - N * (1 # 2))%Q as -> by (field; lra).
  assert ((G - 1) * N + 1 == G * N - N + 1)%Q as Hlin by ring.
  rewrite Hlin in Hexact. rewrite Hsq in Hexact.
  set (X := (qq * G * N)%Q) in *. set (P := (G * N)%Q) in *. set (Y := (G * G)%Q) in *.
  set (Z := (N * N)%Q) in *. clearbody X P Y Z. lra.
Qed.

(** The loop that adds the terms: after [k] groups of sizes adding up
    to [S] and squares adding up to [Q], the sum is at most [S] and
    has lost at most [3 k] parts in 2^53 of [Q / n]. *)
Lemma sumLoop_bounds (n : nat) (gs : list nat) :
  (Z.of_nat n < 2 ^ 53)%Z → 0 < n →
  ∀ (acc : Qc) (k S Q : nat),
    Forall (λ g, 0 < g ≤ n) gs → S + sum_list gs ≤ n →
    (0 <= acc)%Q → (acc <= inject_Z (Z.of_nat S))%Q →
    ((1 - inject_Z (Z.of_nat k) * (3 # 9007199254740992))
       * (inject_Z (Z.of_nat Q) / inject_Z (Z.of_nat n)) <= acc)%Q →
    let r := foldl (λ acc g, acc ⊕ num g ⊘ num n ⊗ num g) acc gs in
    (0 <= r)%Q
    ∧ (r <= inject_Z (Z.of_nat (S + sum_list gs)))%Q
    ∧ ((1 - inject_Z (Z.of_nat (k + length gs)) * (3 # 9007199254740992))
         * (inject_Z (Z.of_nat (Q + sum_list ((λ g : nat, (g * g)%nat) <$> gs)))
            / inject_Z (Z.of_nat n)) <= r)%Q.
Proof.
  intros Hn Hn0. induction gs as [|g gs IH]; intros acc k S Q Hgs Hsum Hacc0 HaccS HaccQ.
  - cbn [foldl sum_list fmap list_fmap length]. rewrite !Nat.add_0_r. done.
  - apply Forall_cons in Hgs as [Hg Hgs].
    change (sum_list (g :: gs)) with (g + sum_list gs) in *.
    rewrite fmap_cons.
    change (sum_list (g * g :: ((λ g0 : nat, g0 * g0) <$> gs)))
      with (g * g + sum_list ((λ g0 : nat, g0 * g0) <$> gs)).
    cbn [foldl length].
    replace (S + (g + sum_list gs)) with ((S + g) + sum_list gs) by lia.
    replace (k + Datatypes.S (length gs)) with ((k + 1) + length gs) by lia.
    replace (Q + (g * g + sum_list ((λ g0 : nat, g0 * g0) <$> gs)))
      with ((Q + g * g) + sum_list ((λ g0 : nat, g0 * g0) <$> gs)) by lia.
    destruct (term_bounds g n Hg Hn) as [Ht1 Ht2].
    set (t := num g ⊘ num n ⊗ num g) in *.
    pose proof (term_nonneg g n Hn0) as Ht0. fold t in Ht0.
    assert ((acc + t)%Qc == acc + t)%Q as Hsumval by apply Qcplus_val.
    apply IH; [done|lia|..]; unfold jsAdd.
    + apply binary64_nonneg. rewrite Hsumval. lra.
    + apply binary64_le_num; [lia|rewrite Hsumval; lra|].
      rewrite Hsumval, inject_nat_add. lra.
    + assert (0 <= (acc + t)%Qc)%Q as Hnn by (rewrite Hsumval; lra).
      pose proof (binary64_lower _ Hnn) as Hlow. rewrite Hsumval in Hlow.
      set (r := this (binary64 (acc + t))) in *. clearbody r.
      rewrite !inject_nat_add, inject_nat_mul.
      change (inject_Z (Z.of_nat 1)) with 1%Q.
      pose proof (inject_nat_nonneg k) as Hk. pose proof (inject_nat_nonneg Q) as HQ.
      assert (1 <= inject_Z (Z.of_nat g))%Q as HG by (rewrite <-(Zle_Qle 1); lia).
      assert (0 < inject_Z (Z.of_nat n))%Q as HN by (rewrite <-(Zlt_Qlt 0); lia).
      set (K := inject_Z (Z.of_nat k)) in *. set (G := inject_Z (Z.of_nat g)) in *.
      set (N := inject_Z (Z.of_nat n)) in *. set (QQ := inject_Z (Z.of_nat Q)) in *.
      clearbody K G N QQ. set (tt := this t) in *. clearbody tt t.
      set (a := this acc) in *. clearbody a.
      assert (0 <= QQ / N)%Q as HE by (apply Qle_shift_div_l; lra).
      assert (0 <= G * G / N)%Q as He by (apply Qle_shift_div_l; nra).
      assert ((QQ + G * G) / N == QQ / N + G * G / N)%Q as -> by (field; lra).
      set (E := (QQ / N)%Q) in *. set (e := (G * G / N)%Q) in *. clearbody E e.
      nra.
Qed.

(** The loop over groups none of which holds all the candidates: every
    group puts the sum one half further below the number of candidates
    counted so far. *)
Lemma sumLoop_below (n : nat) (gs : list nat) :
  (Z.of_nat n < 2 ^ 32)%Z →
  ∀ (acc : Qc) (k S : nat),
    Forall (λ g, 0 < g < n) gs → S + sum_list gs ≤ n → k ≤ 2 * S →
    (0 <= acc)%Q → (acc <= inject_Z (2 * Z.of_nat S - Z.of_nat k) / 2)%Q →
    (foldl (λ acc g, acc ⊕ num g ⊘ num n ⊗ num g) acc gs
     <= inject_Z (2 * Z.of_nat (S + sum_list gs) - Z.of_nat (k + length gs)) / 2)%Q.
Proof.
  intros Hn. induction gs as [|g gs IH]; intros acc k S Hgs Hsum Hk Hacc0 Hacc.
  - cbn [foldl sum_list length]. by rewrite !Nat.add_0_r.
  - apply Forall_cons in Hgs as [Hg Hgs].
    change (sum_list (g :: gs)) with (g + sum_list gs) in *. cbn [foldl length].
    replace (S + (g + sum_list gs)) with ((S + g) + sum_list gs) by lia.
    replace (k + Datatypes.S (length gs)) with ((k + 1) + length gs) by lia.
    pose proof (term_below g n Hg Hn) as Ht.
    pose proof (term_nonneg g n ltac:(lia)) as Ht0.
    set (t := num g ⊘ num n ⊗ num g) in *.
    assert ((acc + t)%Qc == acc + t)%Q as Hsumval by apply Qcplus_val.
    apply IH; [done|lia|lia|..]; unfold jsAdd.
    + apply binary64_nonneg. rewrite Hsumval. lra.
    + apply binary64_le_half; [lia|rewrite Hsumval; lra|]. rewrite Hsumval.
      assert (inject_Z (2 * Z.of_nat (S + g) - Z.of_nat (k + 1))
              == inject_Z (2 * Z.of_nat S - Z.of_nat k) + inject_Z (2 * Z.of_nat g - 1))%Q
        as -> by (rewrite <-inject_Z_plus; f_equiv; lia).
      set (A := inject_Z (2 * Z.of_nat S - Z.of_nat k)) in *.
      set (B := inject_Z (2 * Z.of_nat g - 1)) in *. clearbody A B.
      assert ((A + B) / 2 == A / 2 + B / 2)%Q as -> by field. lra.
Qed.

(** *** The sizes of the groups *)

Lemma length_concat_sum {A} (ls : list (list A)) :
  length (concat ls) = sum_list (length <$> ls).
Proof.
  induction ls as [|l ls IH]; [done|].
  cbn [concat]. rewrite length_app, IH. done.
Qed.

Lemma distinct_constant {A} `{EqDecision A} (x : A) (l : list A) :
  l ≠ [] → (∀ y, y ∈ l → y = x) → distinct l = [x].
Proof.
  intros Hne Hall.
  pose proof (NoDup_distinct l) as Hnd.
  assert (∀ y, y ∈ distinct l → y = x) as Hall'
    by (intros y Hy; apply Hall; by rewrite elem_of_distinct in Hy).
  assert (x ∈ distinct l) as Hx.
  { apply elem_of_distinct. destruct l as [|y l]; [done|].
    rewrite <-(Hall y) by left. left. }
  destruct (distinct l) as [|y [|z k]].
  - by apply elem_of_nil in Hx.
  - by rewrite (Hall' y) by left.
  - exfalso. apply NoDup_cons in Hnd as [Hy _]. apply Hy.
    assert (y = x) as -> by (apply Hall'; left).
    assert (z = x) as -> by (apply Hall'; right; left).
    left.
Qed.

Lemma sum_list_squares (gs : list nat) :
  sum_list gs ≤ sum_list ((λ g : nat, g * g) <$> gs).
Proof.
  induction gs as [|g gs IH]; [done|].
  change (g + sum_list gs ≤ g * g + sum_list ((λ g : nat, g * g) <$> gs)). nia.
Qed.

Lemma sum_list_length (gs : list nat) :
  Forall (λ g, 0 < g) gs → length gs ≤ sum_list gs.
Proof.
  induction 1 as [|g gs Hg _ IH]; [done|].
  change (Datatypes.S (length gs) ≤ g + sum_list gs). lia.
Qed.

Lemma groupByPattern_sizes guess (candidates : list (list ascii)) :
  let sizes := (λ e, length e.2) <$> groupByPattern guess candidates in
  Forall (λ g, 0 < g ≤ length candidates) sizes
  ∧ sum_list sizes = length candidates
  ∧ (∀ a b, a ∈ candidates → b ∈ candidates →
       getResultPattern guess a ≠ getResultPattern guess b →
       Forall (λ g, g < length candidates) sizes ∧ 2 ≤ length sizes).
Proof.
  intros sizes. subst sizes. rewrite groupByPattern_groups, <-list_fmap_compose.
  set (ps := distinct (getResultPattern guess <$> candidates)).
  split_and!.
  - apply Forall_fmap, Forall_forall. intros p Hp. cbn.
    apply elem_of_distinct, list_elem_of_fmap in Hp as (a & -> & Ha).
    split; [|apply length_filter].
    assert (a ∈ filter (λ answer, getResultPattern guess answer = getResultPattern guess a)
                       candidates) as Hin by (by apply list_elem_of_filter).
    destruct (filter _ candidates); [by apply elem_of_nil in Hin|cbn; lia].
  - rewrite <-(Permutation_length
      (groups_concat_Permutation (getResultPattern guess) candidates ps
         (NoDup_distinct _)
         (λ a Ha, proj2 (elem_of_distinct _ _) (list_elem_of_fmap_2 _ _ _ Ha)))).
    rewrite length_concat_sum, <-list_fmap_compose. done.
  - intros a b Ha Hb Hab. split.
    + apply Forall_fmap, Forall_forall. intros p _. cbn.
      destruct (decide (getResultPattern guess a = p)) as [<-|Hne].
      * apply (length_filter_lt _ _ b); [done|]. by intros ?.
      * by apply (length_filter_lt _ _ a).
    + rewrite length_fmap.
      assert (getResultPattern guess a ∈ ps) as Hpa
        by (by apply elem_of_distinct, list_elem_of_fmap_2).
      assert (getResultPattern guess b ∈ ps) as Hpb
        by (by apply elem_of_distinct, list_elem_of_fmap_2).
      destruct ps as [|p [|p' ps']]; cbn; [by apply elem_of_nil in Hpa| |lia].
      apply list_elem_of_singleton in Hpa, Hpb. congruence.
Qed.

Lemma sumExpectedRemaining_sizes n (resultGroups : list (list ascii * list (list ascii))) :
  sumExpectedRemaining n resultGroups
  = foldl (λ acc g, acc ⊕ num g ⊘ num n ⊗ num g) 0%Qc
          ((λ e, length e.2) <$> resultGroups).
Proof. unfold sumExpectedRemaining. by rewrite foldl_fmap. Qed.

(** The sum that the grouping loop and the adding loop compute, for a
    candidate list that JavaScript can hold: it is at most the number
    of candidates, and rounding brings it below 1 by less than 2^-19. *)
Lemma sumExpectedRemaining_bounds guess (candidates : list (list ascii)) :
  0 < length candidates → (Z.of_nat (length candidates) < 2 ^ 32)%Z →
  ((524287 # 524288)
   <= sumExpectedRemaining (length candidates) (groupByPattern guess candidates))%Q
  ∧ (sumExpectedRemaining (length candidates) (groupByPattern guess candidates)
     <= inject_Z (Z.of_nat (length candidates)))%Q.
Proof.
  intros Hn0 Hn. rewrite sumExpectedRemaining_sizes.
  destruct (groupByPattern_sizes guess candidates) as (Hsizes & Hsum & _).
  set (sizes := (λ e, length e.2) <$> groupByPattern guess candidates) in *.
  set (n := length candidates) in *.
  destruct (sumLoop_bounds n sizes ltac:(lia) Hn0 0%Qc 0 0 0 Hsizes ltac:(lia))
    as (_ & Hup & Hlow); [done|done| |].
  { change (inject_Z (Z.of_nat 0)) with 0%Q.
    assert (0 / inject_Z (Z.of_nat n) == 0)%Q as -> by (by unfold Qdiv; rewrite Qmult_0_l).
    rewrite Qmult_0_r. done. }
  cbn [Nat.add] in Hup, Hlow. rewrite Hsum in Hup. split; [|done].
  eapply Qle_trans; [|exact Hlow].
  assert (length sizes ≤ n) as Hlen.
  { rewrite <-Hsum. apply sum_list_length. eapply Forall_impl; [exact Hsizes|].
    by intros g [? _]. }
  pose proof (sum_list_squares sizes) as Hsq. rewrite Hsum in Hsq.
  assert (inject_Z (Z.of_nat (length sizes)) <= 4294967296)%Q as HL
    by (rewrite <-(Zle_Qle _ 4294967296); lia).
  pose proof (inject_nat_nonneg (length sizes)) as HL0.
  assert (0 < inject_Z (Z.of_nat n))%Q as HN by (rewrite <-(Zlt_Qlt 0); lia).
  assert (1 <= inject_Z (Z.of_nat (sum_list ((λ g : nat, (g * g)%nat) <$> sizes)))
               / inject_Z (Z.of_nat n))%Q as HE.
  { apply Qle_shift_div_l; [done|]. rewrite Qmult_1_l, <-Zle_Qle. lia. }
  set (L := inject_Z (Z.of_nat (length sizes))) in *.
  set (E := (inject_Z (Z.of_nat (sum_list ((λ g : nat, (g * g)%nat) <$> sizes)))
             / inject_Z (Z.of_nat n))%Q) in *.
  clearbody L E. nra.
Qed.

(** [Math.round(x * 10) / 10] brings a number that is at most [n] and
    less than 2^-19 below 1 between 1 and [n]. *)
Lemma roundToTenth_bounds (x : Qc) (n : nat) :
  (Z.of_nat n < 2 ^ 32)%Z →
  ((524287 # 524288) <= x)%Q → (x <= inject_Z (Z.of_nat n))%Q →
  (1 <= Math_round (x ⊗ num 10) ⊘ num 10)%Q
  ∧ (Math_round (x ⊗ num 10) ⊘ num 10 <= inject_Z (Z.of_nat n))%Q.
Proof.
  intros Hn Hx1 Hxn.
  assert ((x * num 10)%Qc == x * 10)%Q as Hval by (by rewrite Qcmult_val).
  assert (inject_Z 19 / 2 <= x ⊗ num 10)%Q as Hy1.
  { unfold jsMul. apply binary64_ge_half; [done|]. rewrite Hval.
    change (inject_Z 19 / 2)%Q with (19 # 2)%Q. lra. }
  assert (x ⊗ num 10 <= inject_Z (Z.of_nat (10 * n)))%Q as Hy2.
  { unfold jsMul. apply binary64_le_num; [lia|rewrite Hval; lra|].
    rewrite Hval, inject_nat_mul. change (inject_Z (Z.of_nat 10)) with 10%Q. lra. }
  change (inject_Z 19 / 2)%Q with (19 # 2)%Q in Hy1.
  rewrite inject_nat_mul in Hy2. change (inject_Z (Z.of_nat 10)) with 10%Q in Hy2.
  set (y := x ⊗ num 10) in *. clearbody y.
  unfold Math_round. set (w := (y + Q2Qc (1 # 2))%Qc).
  assert (w == y + (1 # 2))%Q as Hw.
  { subst w. rewrite Qcplus_val. unfold Q2Qc, this. by rewrite Qred_correct. }
  assert (10 ≤ Qfloor w)%Z as HR1.
  { rewrite <-(Qfloor_Z 10). apply Qfloor_resp_le. rewrite Hw.
    change (inject_Z 10) with 10%Q. lra. }
  assert (Qfloor w ≤ 10 * Z.of_nat n)%Z as HR2.
  { assert (inject_Z (Qfloor w) < inject_Z (10 * Z.of_nat n + 1))%Q as H;
      [|rewrite <-Zlt_Qlt in H; lia].
    assert (inject_Z (Qfloor w) <= y + (1 # 2))%Q as Hfl
      by (rewrite <-Hw; apply Qfloor_le).
    rewrite inject_Z_plus, inject_Z_mult. change (inject_Z 10) with 10%Q.
    change (inject_Z 1) with 1%Q. lra. }
  rewrite Zle_Qle in HR1, HR2. rewrite inject_Z_mult in HR2.
  change (inject_Z 10) with 10%Q in HR1, HR2.
  unfold jsDiv.
  assert ((Qc_of_Z (Qfloor w) / num 10)%Qc == inject_Z (Qfloor w) / 10)%Q as Hdiv
    by (by rewrite Qcdiv_val).
  set (R := inject_Z (Qfloor w)) in *. clearbody R. split.
  - change 1%Q with (inject_Z (Z.of_nat 1)). apply binary64_ge_num; [done|].
    rewrite Hdiv. change (inject_Z (Z.of_nat 1)) with 1%Q.
    apply Qle_shift_div_l; lra.
  - apply binary64_le_num; [lia| |]; rewrite Hdiv.
    + apply Qle_shift_div_l; lra.
    + apply Qle_shift_div_r; lra.
Qed.

(** *** Bounds on the expected remaining candidates *)

(** X22. The expected number of remaining candidates is between 1 and
    the number of candidates: whenever at least one candidate remains,
    and the candidates are an array that JavaScript can hold (fewer
    than 2^32 elements), the value returned for any guess is at least 1
    and at most the candidate count, with all the roundings of the
    binary64 computation. *)
Theorem expectedRemaining_within_candidates (guess : list ascii) (s : WordleSolver) :
  0 < length (possibleWords s) →
  (Z.of_nat (length (possibleWords s)) < 2 ^ 32)%Z →
  (1 ≤ calculateExpectedRemainingWords guess s)%Qc
  ∧ (calculateExpectedRemainingWords guess s ≤ num (length (possibleWords s)))%Qc.
Proof.
  intros Hn0 Hn. unfold calculateExpectedRemainingWords.
  destruct (decide (length (possibleWords s) ≤ 1)) as [Hle|Hgt].
  - assert (length (possibleWords s) = 1) as -> by lia. by split.
  - destruct (sumExpectedRemaining_bounds guess (possibleWords s) Hn0 Hn) as [H1 H2].
    by apply roundToTenth_bounds.
Qed.

Lemma expectedRemaining_within_candidates_witness :
  let s := loaded [str "ABOUT"; str "CRANE"; str "CRAZE"]
                  [str "ABOUT"; str "CRANE"; str "CRAZE"] in
  (1 ≤ calculateExpectedRemainingWords (str "ABOUT") s)%Qc
  ∧ (calculateExpectedRemainingWords (str "ABOUT") s ≤ num (length (possibleWords s)))%Qc.
Proof.
  intros s. apply expectedRemaining_within_candidates; vm_compute; [lia|reflexivity].
Defined.

(** X23. The information gain before bonuses is never negative: with at
    least one candidate, and fewer than 2^32, the expected remaining sum
    that [calculateExpectedValue] subtracts from the candidate count is
    at most that count, so that the difference is not negative; and the
    sum, which is at least 1 in exact arithmetic, stays above 1 - 2^-19
    after the roundings. *)
Theorem expectedRemainingSum_within_candidates (guess : list ascii)
    (candidates : list (list ascii)) :
  0 < length candidates → (Z.of_nat (length candidates) < 2 ^ 32)%Z →
  (Q2Qc (524287 # 524288)
   ≤ sumExpectedRemaining (length candidates) (groupByPattern guess candidates))%Qc
  ∧ (sumExpectedRemaining (length candidates) (groupByPattern guess candidates)
     ≤ num (length candidates))%Qc
  ∧ (0 ≤ num (length candidates)
         ⊖ sumExpectedRemaining (length candidates) (groupByPattern guess candidates))%Qc.
Proof.
  intros Hn0 Hn.
  destruct (sumExpectedRemaining_bounds guess candidates Hn0 Hn) as [H1 H2].
  split_and!.
  - unfold Qcle. cbn [this Q2Qc]. by rewrite Qred_correct.
  - done.
  - unfold jsSub. apply binary64_nonneg. rewrite Qcminus_val, num_val. lra.
Qed.

Lemma expectedRemainingSum_within_candidates_witness :
  let words := [str "ABOUT"; str "CRANE"; str "CRAZE"] in
  (Q2Qc (524287 # 524288)
   ≤ sumExpectedRemaining (length words) (groupByPattern (str "ABOUT") words))%Qc
  ∧ (sumExpectedRemaining (length words) (groupByPattern (str "ABOUT") words)
     ≤ num (length words))%Qc
  ∧ (0 ≤ num (length words)
         ⊖ sumExpectedRemaining (length words) (groupByPattern (str "ABOUT") words))%Qc.
Proof.
  intros words. apply expectedRemainingSum_within_candidates; vm_compute; [lia|reflexivity].
Defined.

(** X24. A guess that cannot tell the candidates apart removes nothing,
    and one that can removes at least one on average: for fewer than
    2^32 candidates, when every candidate gives the same feedback the
    expected remaining sum is the candidate count, exactly; when two
    candidates give different feedback it is at most the candidate
    count minus 1, with all the roundings of the binary64 computation. *)
Theorem expectedRemainingSum_informative (guess : list ascii)
    (candidates : list (list ascii)) :
  0 < length candidates → (Z.of_nat (length candidates) < 2 ^ 32)%Z →
  ((∀ a b, a ∈ candidates → b ∈ candidates →
      getResultPattern guess a = getResultPattern guess b) →
   sumExpectedRemaining (length candidates) (groupByPattern guess candidates)
   = num (length candidates))
  ∧ (∀ a b, a ∈ candidates → b ∈ candidates →
      getResultPattern guess a ≠ getResultPattern guess b →
      (sumExpectedRemaining (length candidates) (groupByPattern guess candidates)
       ≤ num (length candidates) - 1)%Qc).
Proof.
  intros Hn0 Hn. split.
  - intros Hsame.
    assert (∃ c, c ∈ candidates) as [c Hc].
    { destruct candidates as [|c cs]; [cbn in Hn0; lia|]. exists c. left. }
    rewrite groupByPattern_groups.
    rewrite (distinct_constant (getResultPattern guess c)).
    + cbn [fmap list_fmap]. rewrite filter_Forall_id.
      * unfold sumExpectedRemaining. cbn [foldl snd].
        rewrite (jsDiv_self _ Hn0). unfold jsMul, jsAdd.
        rewrite Qcmult_1_l, (binary64_num (length candidates) ltac:(lia)), Qcplus_0_l.
        apply binary64_num. lia.
      * apply Forall_forall. intros a Ha. by apply Hsame.
    + intros Hnil. apply (f_equal length) in Hnil. rewrite length_fmap in Hnil.
      cbn in Hnil. lia.
    + intros p (a & -> & Ha)%list_elem_of_fmap. by apply Hsame.
  - intros a b Ha Hb Hab. rewrite sumExpectedRemaining_sizes.
    destruct (groupByPattern_sizes guess candidates) as (Hsizes & Hsum & Hproper).
    destruct (Hproper a b Ha Hb Hab) as [Hlt Hlen].
    set (sizes := (λ e, length e.2) <$> groupByPattern guess candidates) in *.
    set (n := length candidates) in *.
    assert (Forall (λ g, 0 < g < n) sizes) as Hboth.
    { rewrite Forall_forall in *. intros g Hg. split; [by apply Hsizes|by apply Hlt]. }
    pose proof (sumLoop_below n sizes Hn 0%Qc 0 0 Hboth ltac:(lia) ltac:(lia)) as Hbelow.
    cbn [Nat.add] in Hbelow. rewrite Hsum in Hbelow.
    unfold Qcle. rewrite Qcminus_val, num_val. change (this 1%Qc) with 1%Q.
    eapply Qle_trans; [apply Hbelow; [done|by vm_compute]|].
    apply Qle_shift_div_r; [done|].
    change 1%Q with (inject_Z 1). unfold Qminus.
    rewrite <-inject_Z_opp, <-inject_Z_plus. change 2%Q with (inject_Z 2).
    rewrite <-inject_Z_mult, <-Zle_Qle. lia.
Qed.

Lemma expectedRemainingSum_informative_witness :
  let words := [str "ABOUT"; str "CRANE"; str "CRAZE"] in
  ((∀ a b, a ∈ words → b ∈ words →
      getResultPattern (str "ABOUT") a = getResultPattern (str "ABOUT") b) →
   sumExpectedRemaining (length words) (groupByPattern (str "ABOUT") words)
   = num (length words))
  ∧ (∀ a b, a ∈ words → b ∈ words →
      getResultPattern (str "ABOUT") a ≠ getResultPattern (str "ABOUT") b →
      (sumExpectedRemaining (length words) (groupByPattern (str "ABOUT") words)
       ≤ num (length words) - 1)%Qc).
Proof.
  intros words. apply expectedRemainingSum_informative; vm_compute; [lia|reflexivity].
Defined.

(** *** The information value *)

(** X25. The information value of a feedback lies between all grey and
    all green: for the evaluator's feedback of any guess against any
    answer, [calculateExpectedInformation] is at least 2 (five times
    0.4) and at most 7.5 (five times 1.5), the roundings of the five
    additions included. *)
Theorem information_value_bounds (guess answer : list ascii) :
  (num 2 ≤ calculateExpectedInformation (getResultPattern guess answer))%Qc
  ∧ (calculateExpectedInformation (getResultPattern guess answer) ≤ literal (15 # 2))%Qc.
Proof.
  pose proof (getResultPattern_length guess answer) as Hlen.
  destruct (getResultPattern guess answer) as [|c1 [|c2 [|c3 [|c4 [|c5 [|c6 p]]]]]];
    try done.
  clear Hlen.
  destruct c1, c2, c3, c4, c5; split; by vm_compute.
Qed.

(** *** Terminal states *)

(** X26. A session that has run out of candidates stays so: once the
    candidate list is empty, no sequence of submissions brings a word
    back, and no recommendation is computed, until the game is reset. *)
Theorem exhausted_stays_exhausted (s : WordleSolver)
    (records : list (list ascii * list color)) (n : nat) :
  possibleWords s = [] →
  possibleWords (playAll s records) = []
  ∧ findTopGuesses n (playAll s records) = []
  ∧ possibleWords (resetGame (playAll s records)) = answerWords s.
Proof.
  intros Hempty.
  assert (possibleWords (playAll s records) = []) as Hstay
    by (by rewrite playAll_possibleWords, Hempty).
  split; [done|]. split.
  - unfold findTopGuesses. by rewrite Hstay.
  - destruct (resetGame_fields (playAll s records)) as (p & -> & _).
    cbn [possibleWords]. apply playAll_answerWords.
Qed.

Lemma exhausted_stays_exhausted_witness :
  let words := [str "CRANE"; str "TRACE"; str "ABOUT"] in
  let s := playAll (loaded words words) [(str "ABOUT", replicate 5 grey)] in
  possibleWords (playAll s [(str "CRANE", replicate 5 green)]) = []
  ∧ findTopGuesses 8 (playAll s [(str "CRANE", replicate 5 green)]) = []
  ∧ possibleWords (resetGame (playAll s [(str "CRANE", replicate 5 green)]))
    = answerWords s.
Proof.
  intros words s. apply exhausted_stays_exhausted. vm_compute. reflexivity.
Defined.

(** *** Solved sessions *)

(** X27. A solved session has found the answer: when the feedback of
    every record is the evaluator's for one 5-letter answer that was a
    candidate, and a single candidate is left, that candidate is the
    answer and the answer is the one word that is recommended. *)
Theorem solved_means_answer (s : WordleSolver) (answer w : list ascii)
    (records : list (list ascii * list color)) (n : nat) :
  length answer = 5 → truthful answer records →
  answer ∈ possibleWords s →
  possibleWords (playAll s records) = [w] →
  w = answer ∧ word <$> findTopGuesses n (playAll s records) = [answer].
Proof.
  intros Ha Htrue Hin Hone.
  assert (answer ∈ possibleWords (playAll s records)) as Hsurv.
  { rewrite playAll_possibleWords. apply list_elem_of_filter. split; [|done].
    unfold truthful in Htrue. rewrite Forall_forall in *.
    intros [guess res] Hr [Hlen _]. specialize (Htrue _ Hr). simpl in *. subst res.
    by apply isWordCompatible_own. }
  rewrite Hone in Hsurv. apply list_elem_of_singleton in Hsurv as ->.
  split; [done|]. unfold findTopGuesses. by rewrite Hone.
Qed.

Lemma solved_means_answer_witness :
  let words := [str "CRANE"; str "TRACE"; str "ABOUT"] in
  let records := [(str "ABOUT", getResultPattern (str "ABOUT") (str "TRACE"));
                  (str "CRANE", getResultPattern (str "CRANE") (str "TRACE"))] in
  str "TRACE" = str "TRACE"
  ∧ word <$> findTopGuesses 8 (playAll (loaded words words) records) = [str "TRACE"].
Proof.
  intros words records.
  apply (solved_means_answer (loaded words words) (str "TRACE") (str "TRACE") records 8).
  - reflexivity.
  - repeat constructor.
  - assert (possibleWords (loaded words words) = words) as ->
      by (vm_compute; reflexivity).
    right. left.
  - vm_compute. reflexivity.
Defined.

(** *** The letter sets and the candidates *)

Lemma trackLetters_invariant guess (res : list color)
    (PK PE : option ascii → Prop) positions :
  (∀ i, i ∈ positions → marked res i → PK (guess !! i)) →
  (∀ i, i ∈ positions → res !! i = Some grey →
     appearsElsewhere guess res i (guess !! i) = false → PE (guess !! i)) →
  ∀ sets, (∀ x, x ∈ sets.1.2 → PK x) → (∀ x, x ∈ sets.2 → PE x) →
  let r := foldl (trackLetter guess res) sets positions in
  (∀ x, x ∈ r.1.2 → PK x) ∧ (∀ x, x ∈ r.2 → PE x).
Proof.
  induction positions as [|i positions IH]; intros HK HE [[t k] e] Hk He; [done|].
  cbn [foldl]. apply IH.
  - intros j Hj. apply HK. by right.
  - intros j Hj. apply HE. by right.
  - unfold trackLetter. destruct (isGreenOrYellow (res !! i)) eqn:Hgy; cbn [fst snd].
    + intros x [->%elem_of_singleton|?]%elem_of_union; [|by apply Hk].
      apply HK; [left|]. by apply isGreenOrYellow_marked.
    + destruct (decide _); [|done]. by destruct (appearsElsewhere _ _ _ _).
  - unfold trackLetter. destruct (isGreenOrYellow (res !! i)) eqn:Hgy; cbn [fst snd]; [done|].
    destruct (decide (res !! i = Some grey)) as [Hgrey|]; [|done].
    destruct (appearsElsewhere guess res i (guess !! i)) eqn:Hel; [done|]. cbn [snd].
    intros x [->%elem_of_singleton|?]%elem_of_union; [|by apply He].
    apply HE; [left|done..].
Qed.

Lemma hasYellowOrGreen_elsewhere guess (res : list color) i :
  res !! i = Some grey →
  appearsElsewhere guess res i (guess !! i) = false →
  hasYellowOrGreen guess res (guess !! i) = false.
Proof.
  intros Hgrey Hel. apply not_true_iff_false. intros Hyg.
  unfold hasYellowOrGreen in Hyg.
  apply existsb_exists in Hyg as ([j r] & Hin%list_elem_of_In%indexed_lookup & Hj).
  simpl in Hj. apply andb_true_iff in Hj as [Hgy Heq%bool_decide_eq_true].
  assert (appearsElsewhere guess res i (guess !! i) = true) as Ht; [|congruence].
  apply (appearsElsewhere_true guess res i j).
  - intros ->. rewrite Hgrey in Hin. by simplify_eq.
  - apply isGreenOrYellow_marked. by rewrite Hin.
  - done.
Qed.

Lemma compatible_contains_marked word guess (res : list color) i c :
  isWordCompatible word guess res = true → i < 5 →
  marked res i → guess !! i = Some c → c ∈ word.
Proof.
  intros Hcompat Hi Hmk Hc.
  rewrite isWordCompatible_positions in Hcompat. destruct (Hcompat i Hi) as [Hpos _].
  unfold positionCompatible in Hpos. rewrite Hc in Hpos.
  destruct Hmk as [Hg|Hy].
  - rewrite Hg in Hpos. apply bool_decide_eq_true in Hpos.
    by eapply list_elem_of_lookup_2.
  - rewrite Hy in Hpos. apply andb_true_iff in Hpos as [_ Hinc].
    by apply bool_decide_eq_true in Hinc.
Qed.

Lemma compatible_lacks_excluded word guess (res : list color) i c :
  isWordCompatible word guess res = true → i < 5 →
  res !! i = Some grey → appearsElsewhere guess res i (guess !! i) = false →
  guess !! i = Some c → c ∉ word.
Proof.
  intros Hcompat Hi Hgrey Hel Hc.
  rewrite isWordCompatible_positions in Hcompat. destruct (Hcompat i Hi) as [Hpos _].
  unfold positionCompatible in Hpos.
  rewrite Hgrey, (hasYellowOrGreen_elsewhere guess res i Hgrey Hel), Hc in Hpos.
  simpl in Hpos. by apply negb_true_iff, bool_decide_eq_false in Hpos.
Qed.

Lemma play_lettersFitCandidates s record :
  lettersFitCandidates s → lettersFitCandidates (play s record).
Proof.
  intros Hfit.
  destruct (play_cases s record)
    as [(Hacc & p & t & k & e & -> & Hfold)|(Hrej & p & ->)]; [|done].
  intros w [Hcompat Hw]%list_elem_of_filter. cbn [knownLetters excludedLetters].
  destruct (Hfit w Hw) as [Hk He].
  pose proof (trackLetters_invariant record.1 record.2
    (λ x, ∀ c, x = Some c → c ∈ w) (λ x, ∀ c, x = Some c → c ∉ w) (seq 0 5)) as Hinv.
  specialize (Hinv
    (λ i Hi Hmk c Hc,
       compatible_contains_marked w record.1 record.2 i c Hcompat
         (proj2 (proj1 (elem_of_seq 0 5 i) Hi)) Hmk Hc)
    (λ i Hi Hgrey Hel c Hc,
       compatible_lacks_excluded w record.1 record.2 i c Hcompat
         (proj2 (proj1 (elem_of_seq 0 5 i) Hi)) Hgrey Hel Hc)
    (testedLetters s, knownLetters s, excludedLetters s)).
  cbn zeta in Hinv. rewrite <-Hfold in Hinv. cbn [fst snd] in Hinv.
  destruct Hinv as [Hk' He'].
  - intros x Hx c ->. by apply Hk.
  - intros x Hx c ->. by apply He.
  - split; intros c Hc; [by apply (Hk' (Some c))|by apply (He' (Some c))].
Qed.

(** *** Known and Excluded stay apart *)

Lemma play_agree_candidate w s record :
  w ∈ possibleWords (play s record) →
  lettersAgree w (knownLetters s) (excludedLetters s) →
  lettersAgree w (knownLetters (play s record)) (excludedLetters (play s record)).
Proof.
  intros Hw [Hk He].
  destruct (play_cases s record)
    as [([Hlen _] & p & t & k & e & Hplay & Hfold)|(Hrej & p & ->)]; [|done].
  rewrite Hplay in Hw |- *. cbn [possibleWords knownLetters excludedLetters] in *.
  apply list_elem_of_filter in Hw as [Hcompat Hw].
  pose proof (trackLetters_invariant record.1 record.2
    (λ x, ∃ c, x = Some c ∧ c ∈ w) (λ x, ∀ c, x = Some c → c ∉ w) (seq 0 5)) as Hinv.
  destruct (Hinv) with (sets := (testedLetters s, knownLetters s, excludedLetters s))
    as [Hk' He'].
  - intros i [_ Hi]%elem_of_seq Hmk.
    destruct (lookup_lt_is_Some_2 record.1 i) as [c Hc]; [lia|].
    exists c. split; [done|].
    by apply (compatible_contains_marked w record.1 record.2 i c).
  - intros i [_ Hi]%elem_of_seq Hgrey Hel c Hc.
    by apply (compatible_lacks_excluded w record.1 record.2 i c).
  - done.
  - intros x Hx c ->. by apply He.
  - rewrite <-Hfold in Hk', He'. cbn [fst snd] in Hk', He'.
    split; [done|]. intros c Hc. by apply (He' (Some c)).
Qed.

Lemma playAll_agree_candidate w records : ∀ s,
  w ∈ possibleWords (playAll s records) →
  lettersAgree w (knownLetters s) (excludedLetters s) →
  lettersAgree w (knownLetters (playAll s records)) (excludedLetters (playAll s records)).
Proof.
  induction records as [|r records IH]; intros s Hw Hs; [done|].
  unfold playAll in *. cbn [foldl] in *. apply IH; [done|].
  apply play_agree_candidate; [|done].
  change (foldl play (play s r) records) with (playAll (play s r) records) in Hw.
  rewrite playAll_possibleWords in Hw. by apply list_elem_of_filter in Hw as [_ Hw].
Qed.

(** C8, as the code has it. Letter-state disjointness while the
    feedback is consistent: from a state whose Known and Excluded sets
    are empty (the loaded state, or the state after a reset), a sequence
    of submitted records leads to a state in which Known and Excluded
    are disjoint whenever it leaves a candidate, whatever the feedback
    was, and also whenever the feedback of every record is the
    evaluator's pattern against one fixed 5-letter answer, whether that
    answer is a candidate or not. *)
Theorem known_excluded_disjoint (s : WordleSolver)
    (records : list (list ascii * list color)) :
  knownLetters s = ∅ → excludedLetters s = ∅ →
  possibleWords (playAll s records) ≠ []
  ∨ (∃ answer, length answer = 5 ∧ truthful answer records) →
  knownLetters (playAll s records) ## excludedLetters (playAll s records).
Proof.
  intros Hk He Hconsistent.
  assert (∀ w, lettersAgree w (knownLetters s) (excludedLetters s)) as Hs.
  { intros w. rewrite Hk, He. split; intros ? []%not_elem_of_empty. }
  destruct Hconsistent as [Hleft|(answer & Ha & Htrue)].
  - destruct (possibleWords (playAll s records)) as [|w ws] eqn:Hp; [done|].
    apply (lettersAgree_disjoint w), playAll_agree_candidate; [|done].
    rewrite Hp. left.
  - apply (lettersAgree_disjoint answer). by apply playAll_agree.
Qed.

Lemma known_excluded_disjoint_witness :
  let words := [str "EERIE"; str "SPEED"; str "HENCE"; str "FENCE"] in
  let records := [(str "EERIE", [yellow; grey; grey; grey; grey]);
                  (str "SPEED", [grey; grey; yellow; yellow; grey])] in
  possibleWords (playAll (loaded words words) records) = [str "HENCE"; str "FENCE"]
  ∧ knownLetters (playAll (loaded words words) records)
    ## excludedLetters (playAll (loaded words words) records).
Proof.
  intros words records.
  assert (possibleWords (playAll (loaded words words) records)
          = [str "HENCE"; str "FENCE"]) as Hleft by (vm_compute; reflexivity).
  split; [exact Hleft|].
  apply (known_excluded_disjoint (loaded words words) records).
  - exact (proj1 (loaded_letters words words)).
  - exact (proj2 (loaded_letters words words)).
  - left. rewrite Hleft. discriminate.
Defined.

(** C8, as stated, fails: the feedback is the player's input, and two
    records that contradict each other put the same letter in both
    sets. *)
Lemma known_excluded_overlap :
  let words := [str "CRANE"; str "TRACE"; str "ABOUT"] in
  let s := playAll (loaded words words)
             [(str "ABOUT", replicate 5 grey); (str "ABOUT", replicate 5 green)] in
  ¬ (knownLetters s ## excludedLetters s).
Proof.
  intros words s Hdisj. apply (Hdisj (Some "A"%char)); vm_compute; reflexivity.
Qed.

(** X28. The letter state agrees with the candidates, whatever the
    feedback is: after any sequence of submissions from a fresh state,
    every candidate contains every Known letter and no Excluded
    letter. *)
Theorem letters_fit_candidates (s : WordleSolver)
    (records : list (list ascii * list color)) :
  fresh s →
  ∀ w, w ∈ possibleWords (playAll s records) →
    (∀ c, Some c ∈ knownLetters (playAll s records) → c ∈ w)
    ∧ (∀ c, Some c ∈ excludedLetters (playAll s records) → c ∉ w).
Proof.
  intros (_ & _ & _ & Hk & He & _).
  assert (lettersFitCandidates s) as Hs.
  { intros w _. rewrite Hk, He. split; intros c Hc; by apply not_elem_of_empty in Hc. }
  clear Hk He. revert s Hs. induction records as [|r records IH]; intros s Hs; [done|].
  unfold playAll in *. cbn [foldl]. apply IH. by apply play_lettersFitCandidates.
Qed.

Lemma letters_fit_candidates_witness :
  let words := [str "CRANE"; str "TRACE"; str "ABOUT"] in
  let s := playAll (loaded words words) [(str "ABOUT", [yellow; grey; grey; grey; yellow])] in
  (∀ c, Some c ∈ knownLetters s → c ∈ str "TRACE")
  ∧ (∀ c, Some c ∈ excludedLetters s → c ∉ str "TRACE").
Proof.
  intros words s.
  apply (letters_fit_candidates (loaded words words)); [apply loaded_fresh|].
  assert (possibleWords
            (playAll (loaded words words)
               [(str "ABOUT", [yellow; grey; grey; grey; yellow])])
          = [str "TRACE"]) as -> by (vm_compute; reflexivity).
  left.
Defined.
